(** * bos-web-engine: container/host messaging, component ids and hooks

    A shallow embedding of the parts of the repository that its
    specification talks about:

    - [Js]: the JavaScript built-ins the sources rely on
      ([String.prototype.split], [Array.prototype.join], truthiness,
      [+] and [||] on dynamically typed values);
    - [ComponentMonitor]: [parseComponentId] of the developer-tools monitor;
    - [Messaging] and [ContainerTypes]: the wire-message declarations of
      [packages/common/src/types/messaging.ts] and
      [packages/container/src/types.ts];
    - [UseComponents]: the [useComponents] hook of the application package;
    - [SocialDb]: [SocialDb.get] of the social SDK;
    - [SandboxWebEngine]: [fetchLocalComponents] of the web application;
    - [Correlator]: the request correlator; of it the sources hold the
      types only, and its handlers are modelled from the specification;
    - [Runtime]: what a container and the host do on a message; of them
      too the sources hold the declarations only, and the handlers are
      modelled from the specification.
*)

From Stdlib Require Import ZArith Ascii String List Lia.
From stdpp Require Import base option list gmap strings pretty fin_maps.

Local Open Scope string_scope.
Local Open Scope list_scope.

(* ===================================================================== *)
(** * JavaScript built-ins *)
(* ===================================================================== *)

Module Js.

(** [s.split(sep)] for a non-empty separator [sep], scanning left to
    right for non-overlapping occurrences.  [skip] counts the characters
    of a separator occurrence that are still to be passed over. The
    result is never empty: the empty string splits to one empty segment. *)
Fixpoint split_go (sep : string) (skip : nat) (s : string) : list string :=
  match s with
  | EmptyString => [ EmptyString ]
  | String c s' =>
      match skip with
      | S k => split_go sep k s'
      | O =>
          if String.prefix sep s
          then EmptyString :: split_go sep (String.length sep - 1) s'
          else match split_go sep 0 s' with
               | seg :: segs => String c seg :: segs
               | [] => [ String c EmptyString ]
               end
      end
  end.

Definition split (sep s : string) : list string := split_go sep 0 s.

(** [xs.join(sep)]: an [undefined] element is rendered as the empty string. *)
Definition join (sep : string) (xs : list string) : string :=
  String.concat sep xs.

(** The string ['\n']. *)
Definition newline : string := String (ascii_of_nat 10) EmptyString.

(** Truthiness of a string: only the empty string is falsy. *)
Definition truthy_string (s : string) : bool :=
  match s with EmptyString => false | _ => true end.

(** The numbers of the code are IEEE doubles.  Of them the model keeps
    the integer-valued ones, by their integer value: a double holds every
    integer up to [2^53] in absolute value, and beyond that the integers of
    53 significant bits.  [round_double z] is the double nearest to the
    integer [z], ties going to the even significand: it is what an
    arithmetic operation whose exact result is [z] returns. *)
Definition round_double (z : Z) : Z :=
  let a := Z.abs z in
  if (a <=? 2 ^ 53)%Z then z
  else
    let shift := (Z.log2 a - 52)%Z in
    let q := (a / 2 ^ shift)%Z in
    let r := (a mod 2 ^ shift)%Z in
    let half := (2 ^ (shift - 1))%Z in
    let q' := if (r <? half)%Z then q
              else if (half <? r)%Z then (q + 1)%Z
              else if Z.even q then q else (q + 1)%Z in
    (Z.sgn z * (q' * 2 ^ shift))%Z.

(** The integers that are doubles. *)
Definition is_double (z : Z) : bool := (round_double z =? z)%Z.

(** [Number::toString] picks the decimal of fewest significant digits
    that still reads back as the same double, and of those the nearest;
    [shortest_go] tries [k] digits, then [k + 1], for a positive double
    [a] of [len] decimal digits.  The result is the chosen decimal, its
    insignificant digits being zeros. *)
Fixpoint shortest_go (fuel : nat) (k len a : Z) : Z :=
  match fuel with
  | O => a
  | S fuel' =>
      if (len <=? k)%Z then a
      else
        let p := (10 ^ (len - k))%Z in
        let lo := (a / p * p)%Z in
        let hi := (lo + p)%Z in
        let lo_ok := (round_double lo =? a)%Z in
        let hi_ok := (round_double hi =? a)%Z in
        if lo_ok && hi_ok
        then if (a - lo <? hi - a)%Z then lo
             else if (hi - a <? a - lo)%Z then hi
             else if Z.even (a / p) then lo else hi
        else if lo_ok then lo
        else if hi_ok then hi
        else shortest_go fuel' (k + 1)%Z len a
  end.

Definition shortest_decimal (a : Z) : Z :=
  shortest_go 17 1 (Z.of_nat (String.length (pretty a))) a.

(** A string without its trailing zeros. *)
Fixpoint strip_zeros (s : string) : string :=
  match s with
  | EmptyString => EmptyString
  | String c s' =>
      match strip_zeros s' with
      | EmptyString => if Ascii.eqb c "0" then EmptyString else String c EmptyString
      | rest => String c rest
      end
  end.

(** [Number::toString] on the double nearest to [n]: the digits of the
    shortest decimal, written out in full while there are at most 21 of
    them, and in exponent notation from [1e21] on. *)
Definition number_to_string (n : Z) : string :=
  if (n =? 0)%Z then "0"
  else
    let text := pretty (shortest_decimal (Z.abs (round_double n))) in
    let len := String.length text in
    let body :=
      if (len <=? 21)%nat then text
      else match strip_zeros text with
           | String d EmptyString =>
               String d EmptyString +:+ "e+" +:+ pretty (len - 1)%nat
           | String d rest =>
               String d EmptyString +:+ "." +:+ rest +:+ "e+" +:+ pretty (len - 1)%nat
           | EmptyString => text
           end in
    if (n <? 0)%Z then "-" +:+ body else body.

(** Dynamically typed values, as far as the hooks inspect them.  A
    number [VNum n] is an integer-valued double: [n] itself when that is a
    double (see [is_double]), and otherwise the double nearest to it, as
    for a numeric literal.  [VNaN] is the number [NaN]; numbers with a
    fraction are not among the values kept here.  A non-primitive (object,
    array, function) is kept by the string its conversion to a primitive
    yields, which is what [+] and [ToString] see of it. *)
Inductive Value : Type :=
| VUndefined
| VNull
| VBool (b : bool)
| VNum (n : Z)
| VNaN
| VStr (s : string)
| VObject (repr : string).

(** [ToString] on a value. *)
Definition to_string (v : Value) : string :=
  match v with
  | VUndefined => "undefined"
  | VNull => "null"
  | VBool true => "true"
  | VBool false => "false"
  | VNum n => number_to_string n
  | VNaN => "NaN"
  | VStr s => s
  | VObject r => r
  end.

(** [v + 1]: string concatenation when the primitive of [v] is a string,
    addition of doubles otherwise. *)
Definition add_one (v : Value) : Value :=
  match v with
  | VUndefined => VNaN
  | VNull => VNum 1
  | VBool true => VNum 2
  | VBool false => VNum 1
  | VNum n => VNum (round_double (round_double n + 1))
  | VNaN => VNaN
  | VStr s => VStr (s +:+ "1")
  | VObject r => VStr (r +:+ "1")
  end.

(** [v + str] for a string [str]: always a concatenation. *)
Definition add_string (v : Value) (str : string) : Value :=
  VStr (to_string v +:+ str).

Definition truthy (v : Value) : bool :=
  match v with
  | VUndefined | VNull | VNaN => false
  | VBool b => b
  | VNum n => negb (n =? 0)%Z
  | VStr s => truthy_string s
  | VObject _ => true
  end.

(** [a || b]. *)
Definition or_else (a b : Value) : Value := if truthy a then a else b.

(** A property read [o?.[k]] on an object that may itself be undefined;
    a missing property reads as [undefined]. *)
Definition get_prop (o : option (gmap string Value)) (k : string) : Value :=
  match o with
  | Some m => default VUndefined (m !! k)
  | None => VUndefined
  end.

(** Object spread [{...a, ...b}]: later properties win; spreading
    [undefined] contributes nothing. *)
Definition spread (a b : gmap string Value) : gmap string Value := b ∪ a.

Definition spread_opt (o : option (gmap string Value)) : gmap string Value :=
  default ∅ o.

End Js.

(* ===================================================================== *)
(** * Developer-tools monitor: component ids *)
(* ===================================================================== *)

Module ComponentMonitor.

(** [interface ComponentId].  The declaration types every field as
    [string]; array destructuring in [parseComponentId] can leave [name]
    and [id] undefined, which is [None] here. *)
#[warnings="-register-all"]
Inductive ComponentId : Type := mkComponentId {
  author : string;
  name : option string;
  path : string;
  id : option string;
  parent : option ComponentId
}.

(** The reserved delimiter of the wire form. *)
Definition delimiter : string := "##".

(** [parseComponentId], with the recursion on the joined ancestors
    bounded by [fuel]. *)
Fixpoint parse_fuel (fuel : nat) (componentId : string) : option ComponentId :=
  match fuel with
  | O => None
  | S fuel' =>
      if negb (Js.truthy_string componentId) then None
      else
        let segments := Js.split delimiter componentId in
        let path := nth 0 segments EmptyString in
        let id := segments !! 1%nat in
        let ancestors := drop 3 segments in
        let pathSegments := Js.split "/" path in
        Some {| author := nth 0 pathSegments EmptyString;
                name := pathSegments !! 2%nat;
                path := path;
                id := id;
                parent := parse_fuel fuel' (Js.join delimiter ancestors) |}
  end.

(** Each recursive call is on a strictly shorter string, so the length of
    the input (plus one) is enough fuel; see [parseComponentId_unfold]. *)
Definition parseComponentId (componentId : string) : option ComponentId :=
  parse_fuel (S (String.length componentId)) componentId.

(** Modelled from the spec: the segments of the wire form of a component
    id, whose serializer is not among the sources.  "Wire form is a string
    built by joining path, instanceId, and the full ancestor chain with a
    reserved delimiter". *)
Fixpoint segments_of (v : ComponentId) : list string :=
  path v :: default EmptyString (id v) ::
    match parent v with
    | Some p => segments_of p
    | None => []
    end.

(** Modelled from the spec: [serialize], the join of those segments with
    the delimiter. *)
Definition serialize (v : ComponentId) : string :=
  Js.join delimiter (segments_of v).

(** Modelled from the spec: a string is malformed when it is not the wire
    form of any component id. *)
Definition malformed (s : string) : Prop :=
  ∀ v : ComponentId, serialize v ≠ s.

(** A segment is free of the delimiter's character. *)
Fixpoint hash_free (s : string) : bool :=
  match s with
  | EmptyString => true
  | String c s' => negb (Ascii.eqb c "#") && hash_free s'
  end.

End ComponentMonitor.

(* ===================================================================== *)
(** * Wire-message declarations *)
(* ===================================================================== *)

(** TypeScript interface declarations as data, and what it means for a
    message object to have the declared shape. *)
Module TsDecl.

Inductive TsType : Type :=
| TString                       (* string *)
| TStringOrNull                 (* string | null *)
| TAny                          (* any *)
| TLiteral (s : string)         (* a string literal type *)
| TEventType                    (* the union EventType *)
| TNamed (type_name : string).  (* a structured type declared elsewhere *)

Record Member : Type := mkMember {
  member_name : string;
  member_type : TsType;
  member_optional : bool
}.

(** [interface I extends B { own }]: a member of [own] overrides the
    inherited member of the same name. *)
Record Interface : Type := mkInterface {
  inherited : list Member;
  own : list Member
}.

Definition required (n : string) (t : TsType) : Member := mkMember n t false.
Definition optional (n : string) (t : TsType) : Member := mkMember n t true.

Definition overridden (i : Interface) (m : Member) : bool :=
  existsb (λ o, String.eqb (member_name o) (member_name m)) (own i).

Definition members (i : Interface) : list Member :=
  own i ++ List.filter (λ m, negb (overridden i m)) (inherited i).

Definition field_names (i : Interface) : gset string :=
  list_to_set (member_name <$> members i).

Definition field_type (i : Interface) (n : string) : option TsType :=
  member_type <$> List.find (λ m, String.eqb (member_name m) n) (members i).

Definition event_type_literals : list string :=
  [ "component.callbackInvocation"; "component.callbackResponse";
    "component.domCallback"; "component.render"; "component.update" ].

Definition has_type (v : Js.Value) (t : TsType) : bool :=
  match t, v with
  | TString, Js.VStr _ => true
  | TStringOrNull, (Js.VStr _ | Js.VNull) => true
  | TAny, _ => true
  | TLiteral l, Js.VStr s => String.eqb s l
  | TEventType, Js.VStr s => existsb (String.eqb s) event_type_literals
  | TNamed _, Js.VObject _ => true
  | _, _ => false
  end.

Definition member_ok (o : gmap string Js.Value) (m : Member) : bool :=
  match o !! member_name m with
  | Some v => has_type v (member_type m)
  | None => member_optional m
  end.

(** A message object carries an interface: every declared member is
    there with its type (or is optional and absent), and nothing else is. *)
Definition carries (o : gmap string Js.Value) (i : Interface) : Prop :=
  forallb (member_ok o) (members i) = true ∧ dom o ⊆ field_names i.

(** A union of interfaces. *)
Definition in_union (o : gmap string Js.Value) (u : list Interface) : Prop :=
  ∃ i, i ∈ u ∧ carries o i.

End TsDecl.

(** [packages/common/src/types/messaging.ts] *)
Module Messaging.
Import TsDecl.

Definition ComponentCallbackInvocationType := "component.callbackInvocation".
Definition ComponentCallbackResponseType := "component.callbackResponse".
Definition ComponentDomCallbackType := "component.domCallback".
Definition ComponentRenderType := "component.render".
Definition ComponentUpdateType := "component.update".

Definition PostMessageParams : list Member := [ required "type" TEventType ].

Definition ComponentCallbackInvocation : Interface :=
  mkInterface PostMessageParams
    [ required "args" (TNamed "SerializedArgs");
      required "method" TString;
      required "containerId" TString;
      required "requestId" TString;
      required "targetId" TStringOrNull;
      required "type" (TLiteral ComponentCallbackInvocationType) ].

Definition ComponentCallbackResponse : Interface :=
  mkInterface PostMessageParams
    [ required "containerId" TString;
      required "requestId" TString;
      required "result" TString;
      required "targetId" TString;
      required "type" (TLiteral ComponentCallbackResponseType) ].

Definition ComponentRender : Interface :=
  mkInterface PostMessageParams
    [ required "childComponents" (TNamed "ComponentChildMetadata[]");
      required "containerId" TString;
      required "node" (TNamed "SerializedNode");
      required "trust" (TNamed "ComponentTrust");
      required "type" (TLiteral ComponentRenderType) ].

Definition ComponentUpdate : Interface :=
  mkInterface PostMessageParams
    [ required "props" TAny;
      required "type" (TLiteral ComponentUpdateType);
      required "componentId" TString ].

Definition DomCallback : Interface :=
  mkInterface []
    [ required "args" (TNamed "SerializedArgs");
      optional "componentId" TString;
      required "method" TString;
      required "type" (TLiteral ComponentDomCallbackType) ].

(** payloads sent by the application to a container *)
Definition ApplicationPayload : list Interface :=
  [ ComponentUpdate; DomCallback ].

(** payloads sent by a container to the application *)
Definition ContainerPayload : list Interface :=
  [ ComponentCallbackInvocation; ComponentCallbackResponse; ComponentRender ].

Definition MessagePayload : list Interface :=
  ApplicationPayload ++ ContainerPayload.

End Messaging.

(** [packages/container/src/types.ts], the message declarations and the
    callback namespaces of [Props]. *)
Module ContainerTypes.
Import TsDecl.

Definition PostMessageParams : list Member := [ required "type" TEventType ].

Definition DomCallback : Interface :=
  mkInterface []
    [ required "args" (TNamed "SerializedArgs");
      optional "componentId" TString;
      required "method" TString;
      required "type" (TLiteral "component.domCallback") ].

Definition ComponentCallbackInvocation : Interface :=
  mkInterface PostMessageParams
    [ required "args" (TNamed "SerializedArgs");
      required "method" TString;
      required "originator" TString;
      required "requestId" TString;
      required "targetId" TString;
      required "type" (TLiteral "component.callbackInvocation") ].

Definition ComponentCallbackResponse : Interface :=
  mkInterface PostMessageParams
    [ required "componentId" TString;
      required "requestId" TString;
      required "result" TString;
      required "targetId" TString;
      required "type" (TLiteral "component.callbackResponse") ].

Definition ComponentRender : Interface :=
  mkInterface PostMessageParams
    [ required "childComponents" (TNamed "ComponentChildMetadata[]");
      required "componentId" TString;
      required "node" (TNamed "SerializedNode");
      required "trust" (TNamed "ComponentTrust");
      required "type" (TLiteral "component.render") ].

Definition ComponentUpdate : Interface :=
  mkInterface PostMessageParams
    [ required "props" TAny;
      required "type" (TLiteral "component.update");
      required "componentId" TString ].

Definition MessagePayload : list Interface :=
  [ ComponentCallbackInvocation; ComponentCallbackResponse; DomCallback;
    ComponentRender; ComponentUpdate ].

(** [interface Props extends KeyValuePair]: the two callback namespaces. *)
Definition Props : Interface :=
  mkInterface []
    [ optional "__domcallbacks" (TNamed "{ [key: string]: any }");
      optional "__componentcallbacks" (TNamed "{ [key: string]: any }");
      optional "children" (TNamed "any[]") ].

(** [RequestMap = { [key: string]: CallbackRequest }]: the pending
    requests of one container, keyed by request id.  A [CallbackRequest]
    holds a promise with its optional [resolver] and [rejecter]; the
    promise is kept by an identifier. *)
Record CallbackRequest : Type := mkCallbackRequest {
  promise : nat;
  rejecter : bool;
  resolver : bool
}.

End ContainerTypes.

(* ===================================================================== *)
(** * The [useComponents] hook *)
(* ===================================================================== *)

Module UseComponents.

(** The hook's [useState] cells. *)
Record State : Type := mkState {
  components : gmap string (gmap string Js.Value);
  isValidRootComponentPath : bool;
  error : option string;
  rootComponentSource : option string
}.

Definition initial : State :=
  {| components := ∅; isValidRootComponentPath := false;
     error := None; rootComponentSource := None |}.

(** [UseComponentsParams], as far as the hook reads them: [compiler]
    tells whether a compiler instance was handed in, the two [hook] fields
    whether [config.hooks] brings a callback of that name. *)
Record Params : Type := mkParams {
  compiler : bool;
  rootComponentPath : string;
  bosLoaderUrl : option string;
  hookComponentRendered : bool;
  hookContainerSourceCompiled : bool
}.

(** [ComponentCompilerResponse]; [loadError] holds [error.message]. *)
Record ComponentCompilerResponse : Type := mkResponse {
  componentId : string;
  componentSource : string;
  containerStyles : option string;
  loadError : option string;
  importedModules : Js.Value
}.

(** What the hook does to the outside. *)
Inductive Output : Type :=
| PostMessage (action : string) (componentId : string)   (* compiler.postMessage *)
| AppendStylesheet (styles : string)
| ContainerSourceCompiled (data : ComponentCompilerResponse)
| ComponentRenderedHook (componentId : string).

Definition set_components (f : gmap string (gmap string Js.Value) →
                               gmap string (gmap string Js.Value))
    (st : State) : State :=
  {| components := f (components st);
     isValidRootComponentPath := isValidRootComponentPath st;
     error := error st;
     rootComponentSource := rootComponentSource st |}.

Definition setError (e : option string) (st : State) : State :=
  {| components := components st;
     isValidRootComponentPath := isValidRootComponentPath st;
     error := e;
     rootComponentSource := rootComponentSource st |}.

Definition setRootComponentSource (s : option string) (st : State) : State :=
  {| components := components st;
     isValidRootComponentPath := isValidRootComponentPath st;
     error := error st;
     rootComponentSource := s |}.

Definition setIsValidRootComponentPath (b : bool) (st : State) : State :=
  {| components := components st;
     isValidRootComponentPath := b;
     error := error st;
     rootComponentSource := rootComponentSource st |}.

(** The updater [addComponent] hands to [setComponents]. *)
Definition addComponent_update (componentId : string)
    (component : gmap string Js.Value)
    (currentComponents : gmap string (gmap string Js.Value))
  : gmap string (gmap string Js.Value) :=
  <[ componentId :=
       <[ "renderCount" := Js.VNum 1 ]>
         (Js.spread (Js.spread_opt (currentComponents !! componentId)) component) ]>
    currentComponents.

Definition addComponent (componentId : string) (component : gmap string Js.Value)
    (st : State) : State :=
  set_components (addComponent_update componentId component) st.

Definition getComponentRenderCount (componentId : string) (st : State) : Js.Value :=
  Js.get_prop (components st !! componentId) "renderCount".

(** The updater of [hooks.componentRendered]:
    [renderCount: currentComponents?.[componentId]?.renderCount + 1 || 0]. *)
Definition componentRendered_update (componentId : string)
    (currentComponents : gmap string (gmap string Js.Value))
  : gmap string (gmap string Js.Value) :=
  <[ componentId :=
       <[ "renderCount" :=
            Js.or_else
              (Js.add_one (Js.get_prop (currentComponents !! componentId) "renderCount"))
              (Js.VNum 0) ]>
         (Js.spread_opt (currentComponents !! componentId)) ]>
    currentComponents.

(** [hooks.componentRendered]: the configuration's hook of that name,
    if any, is called first. *)
Definition componentRendered (p : Params) (componentId : string)
    (st : State) : State * list Output :=
  (set_components (componentRendered_update componentId) st,
   if hookComponentRendered p then [ ComponentRenderedHook componentId ] else []).

Definition truthy_opt (s : option string) : bool :=
  match s with Some x => Js.truthy_string x | None => false end.

(** [compiler.onmessage], as installed by the second effect.  [captured]
    is the state of the render in which the effect ran (the closure reads
    [components] and [rootComponentSource] from it); [st] is the state the
    setters act on. *)
Definition onmessage (p : Params) (captured : State)
    (data : ComponentCompilerResponse) (st : State) : State * list Output :=
  match loadError data with
  | Some message => (setError (Some message) st, [])
  | None =>
      let styled :=
        match containerStyles data with
        | Some styles => if Js.truthy_string styles then [ AppendStylesheet styles ] else []
        | None => []
        end in
      let hooked :=
        if hookContainerSourceCompiled p then [ ContainerSourceCompiled data ] else [] in
      let component :=
        <[ "moduleImports" := importedModules data ]>
          (<[ "componentSource" := Js.VStr (componentSource data) ]>
             (<[ "componentId" := Js.VStr (componentId data) ]>
                (Js.spread_opt (components captured !! componentId data)))) in
      let st1 :=
        if negb (truthy_opt (rootComponentSource captured))
           && String.eqb (componentId data) (rootComponentPath p)
        then setRootComponentSource (Some (componentId data)) st
        else st in
      (addComponent (componentId data) component st1, styled ++ hooked)
  end.

(** The body of the second effect: past its guard it installs
    [onmessage] and posts an [execute] request for the root component. *)
Definition effect_guard (p : Params) (st : State) : bool :=
  Js.truthy_string (rootComponentPath p)
  && isValidRootComponentPath st && compiler p.

Definition run_effect (p : Params) (st : State) : list Output :=
  if effect_guard p st then [ PostMessage "execute" (rootComponentPath p) ] else [].

(** The dependency array of the second effect. *)
Definition effect_deps (p : Params) (st : State)
  : bool * string * option string * option string * bool * option string :=
  (compiler p, rootComponentPath p, rootComponentSource st, error st,
   isValidRootComponentPath st, bosLoaderUrl p).

(** The hook between two events: the current state, and the state the
    installed [onmessage] closed over, if one is installed. *)
Record Hook : Type := mkHook {
  current : State;
  handler : option State
}.

Inductive Event : Type :=
| CompilerMessage (data : ComponentCompilerResponse)
| ComponentRendered (componentId : string)
| AddComponent (componentId : string) (component : gmap string Js.Value)
| PathChecked (valid : bool)    (* the first effect's regular-expression test *)
| SetComponents (update : gmap string (gmap string Js.Value) →
                          gmap string (gmap string Js.Value)).
                                (* the [setComponents] the hook returns *)

(** The event's own handler. *)
Definition handle (p : Params) (h : Hook) (ev : Event)
  : State * list Output :=
  match ev with
  | CompilerMessage data =>
      match handler h with
      | Some captured => onmessage p captured data (current h)
      | None => (current h, [])
      end
  | ComponentRendered componentId =>
      componentRendered p componentId (current h)
  | AddComponent componentId component =>
      (addComponent componentId component (current h), [])
  | PathChecked valid => (setIsValidRootComponentPath valid (current h), [])
  | SetComponents update => (set_components update (current h), [])
  end.

(** After the handler, React renders again and runs the second effect
    when one of its dependencies differs from the previous render's. *)
Definition commit (p : Params) (before : Hook) (after : State)
  : Hook * list Output :=
  if decide (effect_deps p (current before) = effect_deps p after)
  then ({| current := after; handler := handler before |}, [])
  else ({| current := after;
           handler := if effect_guard p after then Some after else handler before |},
        run_effect p after).

Definition step (p : Params) (h : Hook) (ev : Event)
  : Hook * list Output :=
  let '(after, outs) := handle p h ev in
  let '(h', posted) := commit p h after in
  (h', outs ++ posted).

(** The hook at its first render: nothing stored, no handler installed. *)
Definition mounted : Hook := {| current := initial; handler := None |}.

(** A run of events under the same props, collecting the outputs. *)
Fixpoint run (p : Params) (h : Hook) (evs : list Event) : Hook * list Output :=
  match evs with
  | [] => (h, [])
  | ev :: evs' =>
      let '(h', outs) := step p h ev in
      let '(h'', outs') := run p h' evs' in
      (h'', outs ++ outs')
  end.

(** The requests to the compiler among some outputs. *)
Definition compiler_requests (outs : list Output) : list string :=
  omap (λ o, match o with PostMessage _ c => Some c | _ => None end) outs.

End UseComponents.

(* ===================================================================== *)
(** * [SocialDb.get] *)
(* ===================================================================== *)

Module SocialDb.

(** A block height (number) or a block hash (string). *)
Inductive BlockId : Type :=
| BlockHeight (height : Z)
| BlockHash (hash : string).

Definition truthy_block (b : option BlockId) : bool :=
  match b with
  | Some (BlockHeight n) => negb (n =? 0)%Z
  | Some (BlockHash h) => Js.truthy_string h
  | None => false
  end.

(** [SocialGetParams]; an omitted parameter is [None]. *)
Record SocialGetParams : Type := mkGetParams {
  blockId : option BlockId;
  key : option string;
  keys : option (list string);
  finality : option string;
  options : option Js.Value
}.

(** The [data] of a [get] request. *)
Record GetData : Type := mkGetData {
  data_keys : list string;
  data_options : option Js.Value
}.

(** The request [rpcFetch] hands to [provider.query]. *)
Record RpcRequest : Type := mkRpcRequest {
  account_id : string;
  args_base64 : string;
  block_id : option BlockId;
  request_finality : option string;
  method_name : string;
  request_type : string
}.

(** How a promise settles. *)
Inductive Settled (A : Type) : Type :=
| Resolved (value : A)
| Rejected (message : string).
Arguments Resolved {A} value.
Arguments Rejected {A} message.

Section Get.

(** The instance: its network, and the collaborators reached through imports. *)
Variable networkId : string.
Variable MAINNET_SOCIAL_CONTRACT_ID TESTNET_SOCIAL_CONTRACT_ID : string.
Variable encodeJsonRpcArgs : GetData → string.
(** [provider.query] followed by [parseJsonRpcResponse]; [None] when
    either throws. *)
Variable Response : Type.
Variable query : RpcRequest → option Response.

Definition contractId : string :=
  if String.eqb networkId "mainnet"
  then MAINNET_SOCIAL_CONTRACT_ID else TESTNET_SOCIAL_CONTRACT_ID.

(** [rpcFetch] for [methodName: 'get']: the requests issued, and how
    the returned promise settles.  [finality] is the parameter after its
    default. *)
Definition rpcFetch (blockId : option BlockId) (data : GetData)
    (finality : string) (methodName : string)
  : list RpcRequest * Settled Response :=
  let request :=
    {| account_id := contractId;
       args_base64 := encodeJsonRpcArgs data;
       block_id := blockId;
       request_finality := if truthy_block blockId then None else Some finality;
       method_name := methodName;
       request_type := "call_function" |} in
  match query request with
  | Some responseData => ([ request ], Resolved responseData)
  | None => ([ request ], Rejected "Failed to fetch data from RPC.")
  end.

(** [((key ? [key] : keys) ?? []).filter((value) => value)] *)
Definition normalizedKeys (p : SocialGetParams) : list string :=
  List.filter Js.truthy_string
    (default []
       (match key p with
        | Some k => if Js.truthy_string k then Some [ k ] else keys p
        | None => keys p
        end)).

(** [get]: the RPC requests issued and the settlement of the promise. *)
Definition get (p : SocialGetParams) : list RpcRequest * Settled Response :=
  let finality := default "optimistic" (finality p) in
  let normalizedKeys := normalizedKeys p in
  if Nat.eqb (List.length normalizedKeys) 0 then
    ([], Rejected
           "Must pass a valid `key` or `keys` parameter with non empty string(s).")
  else if negb (truthy_block (blockId p)) && negb (Js.truthy_string finality) then
    ([], Rejected "Must pass either `blockId` or `finality`")
  else
    (* ...(blockId ? { blockId } : { finality }): the parameter left out
       is undefined in rpcFetch, where finality has its default again *)
    if truthy_block (blockId p)
    then rpcFetch (blockId p)
           {| data_keys := normalizedKeys; data_options := options p |}
           "optimistic" "get"
    else rpcFetch None
           {| data_keys := normalizedKeys; data_options := options p |}
           finality "get".

End Get.

End SocialDb.

(* ===================================================================== *)
(** * [SandboxWebEngine]: fetching local components *)
(* ===================================================================== *)

Module SandboxWebEngine.

Inductive LocalFetchStatus : Type := LOADING | SUCCESS | ERROR.

(** What [data.components] holds under one key: an object, or something
    a property cannot be set on ([null]/a primitive), which is [None]. *)
Abbreviation Entry := (option (gmap string Js.Value)).

(** The outcome of [fetch(url)] and [response.json()]: a failure of
    either, or the parsed [data] by its [components] property.  That is
    kept by its own properties when it has keys or is an object (an array
    by its indices, a non-empty string by its characters, which are no
    objects), and is [None] when [data] has none or null.  A number, a
    boolean and the empty string have no keys: of them [FetchJsonScalar]
    keeps whether they are truthy. *)
Inductive Fetched : Type :=
| FetchFailed
| FetchJson (components : option (gmap string Entry))
| FetchJsonScalar (truthy : bool).

(** What the [forEach] callback does to the entry object under a key:
    [[
      data.components[key].component = data.components[key].code + '\n';
      delete data.components[key].code;
    ]] *)
Definition transform_entry (entry : gmap string Js.Value) : gmap string Js.Value :=
  delete "code"
    (<[ "component" := Js.add_string (Js.get_prop (Some entry) "code") Js.newline ]>
       entry).

(** One round of the callback on the shared [data.components]; [None]
    is the [TypeError] of setting a property on a non-object. *)
Definition transform_at (store : gmap string Entry) (key : string)
  : option (gmap string Entry) :=
  match store !! key with
  | Some (Some entry) => Some (<[ key := Some (transform_entry entry) ]> store)
  | _ => None
  end.

(** [Object.keys(data.components).forEach(...)], threading the store and
    stopping at the first exception. *)
Fixpoint forEach_keys (ks : list string) (store : gmap string Entry)
  : option (gmap string Entry) :=
  match ks with
  | [] => Some store
  | k :: ks' =>
      match transform_at store k with
      | Some store' => forEach_keys ks' store'
      | None => None
      end
  end.

Definition object_keys (o : gmap string Entry) : list string :=
  (map_to_list o).*1.

(** The component's state cells this callback writes.  What
    [localComponents] holds is kept by its own properties, and is [None]
    when it is null or another falsy value. *)
Record State : Type := mkState {
  localComponents : option (gmap string Entry);   (* null while loading *)
  localFetchStatus : option LocalFetchStatus
}.

Definition initial : State :=
  {| localComponents := None; localFetchStatus := None |}.

Definition setLocalFetchStatus (s : LocalFetchStatus) (st : State) : State :=
  {| localComponents := localComponents st; localFetchStatus := Some s |}.

Definition setLocalComponents (c : gmap string Entry) (st : State) : State :=
  {| localComponents := Some c; localFetchStatus := localFetchStatus st |}.

(** [setLocalComponents] with a number, a boolean or the empty string. *)
Definition setLocalComponents_scalar (truthy : bool) (st : State) : State :=
  {| localComponents := if truthy then Some ∅ else None;
     localFetchStatus := localFetchStatus st |}.

(** [fetchLocalComponents(url)], given what the fetch brings back. *)
Definition fetchLocalComponents (fetched : Fetched) (st : State) : State :=
  let loading := setLocalFetchStatus LOADING st in
  let failure := setLocalFetchStatus ERROR (setLocalComponents ∅ loading) in
  match fetched with
  | FetchFailed => failure
  | FetchJson None => failure                 (* Object.keys(undefined) throws *)
  | FetchJson (Some components) =>
      match forEach_keys (object_keys components) components with
      | Some transformed =>
          setLocalFetchStatus SUCCESS (setLocalComponents transformed loading)
      | None => failure
      end
  | FetchJsonScalar truthy =>               (* no keys: nothing to transform *)
      setLocalFetchStatus SUCCESS (setLocalComponents_scalar truthy loading)
  end.


End SandboxWebEngine.

(* ===================================================================== *)
(** * Request correlator *)
(* ===================================================================== *)

Module Correlator.

(** A [component.callbackResponse] as the receiver reads it. *)
Record CallbackResponse : Type := mkCallbackResponse {
  targetId : string;
  componentId : string;
  requestId : string;
  result : string    (* transport-encoded { value, error } *)
}.

(** Why a pending request is rejected. *)
Inductive Reason : Type :=
| Reconstructed (message : string)   (* the error rebuilt from a response *)
| Unmounted.                         (* the owning component was removed *)

Section Correlate.

(** The values that cross the boundary, and the transport decoding of
    a response's [result] into its value and its error, if present. *)
Variable Val : Type.

Record ResultPair : Type := mkResultPair {
  value : Val;
  error : option string
}.

Variable decode : string → ResultPair.

(** A settlement of the future behind a pending entry. *)
Inductive Settlement : Type :=
| Resolve (requestId : string) (entry : ContainerTypes.CallbackRequest) (v : Val)
| Reject (requestId : string) (entry : ContainerTypes.CallbackRequest) (r : Reason).

Definition settled_id (s : Settlement) : string :=
  match s with Resolve i _ _ => i | Reject i _ _ => i end.

(** Modelled from the spec: the handling of a callback-response, which
    is not among the sources.  "looks up the pending entry by requestId;
    [...] on present error, rejects with a reconstructed error, else
    resolves with value; removes the entry exactly once — a duplicate or
    late response for an already-settled or unknown requestId is
    ignored". *)
Definition receive (requests : gmap string ContainerTypes.CallbackRequest)
    (m : CallbackResponse)
  : gmap string ContainerTypes.CallbackRequest * list Settlement :=
  match requests !! requestId m with
  | None => (requests, [])
  | Some entry =>
      (delete (requestId m) requests,
       [ match error (decode (result m)) with
         | Some message => Reject (requestId m) entry (Reconstructed message)
         | None => Resolve (requestId m) entry (value (decode (result m)))
         end ])
  end.

(** Modelled from the spec: unmounting, which is not among the sources.
    "unmounting a component rejects all of its outstanding outbound
    requests immediately". *)
Definition unmount (requests : gmap string ContainerTypes.CallbackRequest)
  : gmap string ContainerTypes.CallbackRequest * list Settlement :=
  (∅, (λ kv, Reject kv.1 kv.2 Unmounted) <$> map_to_list requests).

(** A run of responses through [receive], collecting the settlements. *)
Fixpoint receive_all (requests : gmap string ContainerTypes.CallbackRequest)
    (ms : list CallbackResponse)
  : gmap string ContainerTypes.CallbackRequest * list Settlement :=
  match ms with
  | [] => (requests, [])
  | m :: ms' =>
      let '(requests', out) := receive requests m in
      let '(requests'', outs) := receive_all requests' ms' in
      (requests'', out ++ outs)
  end.

(** How often the request [i] is settled in [outs]. *)
Definition settlements_of (i : string) (outs : list Settlement) : nat :=
  List.length (List.filter (λ s, String.eqb (settled_id s) i) outs).

End Correlate.

Arguments Resolve {Val} requestId entry v.
Arguments Reject {Val} requestId entry r.
Arguments value {Val} r.
Arguments error {Val} r.

End Correlator.

(* ===================================================================== *)
(** * Container and host runtimes: what a message sets off *)
(* ===================================================================== *)

(** Of the two runtimes the sources hold the declarations of the
    messages and of [Props]; the handlers are modelled from the
    specification. *)
Module Runtime.
Import Js.

(** Modelled from the spec: a wire message as its receiver reads it,
    with the fields of the table of "wire message shapes, discriminated by
    a literal [type] field". *)
Inductive Message : Type :=
| Render (componentId : string)
| Update (componentId : string) (props : Value)
| DomCallback (componentId : option string) (method : string) (args : Value)
| CallbackInvocation (targetId method : string) (args : Value)
    (requestId originator : string)
| CallbackResponse (targetId componentId requestId result : string).

Definition tag (m : Message) : string :=
  match m with
  | Render _ => "component.render"
  | Update _ _ => "component.update"
  | DomCallback _ _ _ => "component.domCallback"
  | CallbackInvocation _ _ _ _ _ => "component.callbackInvocation"
  | CallbackResponse _ _ _ _ => "component.callbackResponse"
  end.

Definition get_string (o : gmap string Value) (k : string) : option string :=
  match o !! k with
  | Some (VStr s) => Some s
  | _ => None
  end.

(** Modelled from the spec: reading a message object by its [type]. *)
Definition decode (o : gmap string Value) : option Message :=
  t ← get_string o "type";
  if String.eqb t "component.render" then
    Render <$> get_string o "componentId"
  else if String.eqb t "component.update" then
    componentId ← get_string o "componentId";
    props ← o !! "props";
    Some (Update componentId props)
  else if String.eqb t "component.domCallback" then
    method ← get_string o "method";
    args ← o !! "args";
    Some (DomCallback (get_string o "componentId") method args)
  else if String.eqb t "component.callbackInvocation" then
    targetId ← get_string o "targetId";
    method ← get_string o "method";
    args ← o !! "args";
    requestId ← get_string o "requestId";
    originator ← get_string o "originator";
    Some (CallbackInvocation targetId method args requestId originator)
  else if String.eqb t "component.callbackResponse" then
    targetId ← get_string o "targetId";
    componentId ← get_string o "componentId";
    requestId ← get_string o "requestId";
    result ← get_string o "result";
    Some (CallbackResponse targetId componentId requestId result)
  else None.

(** Modelled from the spec: a container instance, which "persists props,
    render count, pending requests, and its callback registry"; its DOM
    handlers are registered in "a namespace distinct from component-level
    callbacks" ([__domcallbacks] and [__componentcallbacks] in [Props]).
    A registered function is kept by an identifier. *)
Record Container : Type := mkContainer {
  containerId : string;
  props : Value;
  domCallbacks : gmap string nat;
  componentCallbacks : gmap string nat
}.

Definition with_componentCallbacks (registry : gmap string nat)
    (c : Container) : Container :=
  {| containerId := containerId c; props := props c;
     domCallbacks := domCallbacks c; componentCallbacks := registry |}.

(** Modelled from the spec: what a container does on a message. *)
Inductive Effect : Type :=
| Invoke (handler : nat) (args : Value)     (* a registered function is called *)
| RenderPass                                (* the component is rendered anew *)
| Settle (requestId result : string)        (* the pending request is settled *)
| Post (m : Message).                       (* a message is emitted *)

(** Modelled from the spec: what the host does on a message. *)
Inductive HostEffect : Type :=
| StoreRender (componentId : string)
| InvokeCapability (capability : nat) (args : Value)
| Forward (target : string) (m : Message).

(** Modelled from the spec: the host, with the component ids of the
    active tree and its host-level capabilities. *)
Record Host : Type := mkHost {
  active : gset string;
  capabilities : gmap string nat
}.

Section Handlers.

(** The transport encoding of what a called function returned or threw,
    and of the error that answers a call nobody can take. *)
Variable outcome : nat → Value → string.
Variable unanswerable : string → string.

(** Modelled from the spec: the container's handling of a message, which
    is not among the sources.  "On an update message {props}:
    merges/replaces current props and forces a new render pass", which
    "emits one render message".  "On a dom-callback message {method,
    args}: invokes a locally registered DOM handler from a namespace
    distinct from component-level callbacks — DOM callbacks are never
    routed across containers".  On a callback-invocation, "looks up
    [method] in the local registry by name, invokes it, captures both the
    return value and any thrown error, and always emits exactly one
    callback-response".  A callback-response goes to the request
    correlator. *)
Definition process (c : Container) (m : Message) : Container * list Effect :=
  match m with
  | Render _ => (c, [])
  | Update _ props' =>
      ({| containerId := containerId c; props := props';
          domCallbacks := domCallbacks c;
          componentCallbacks := componentCallbacks c |},
       [ RenderPass; Post (Render (containerId c)) ])
  | DomCallback _ method args =>
      (c, match domCallbacks c !! method with
          | Some handler => [ Invoke handler args ]
          | None => []
          end)
  | CallbackInvocation _ method args requestId originator =>
      (c, match componentCallbacks c !! method with
          | Some handler =>
              [ Invoke handler args;
                Post (CallbackResponse originator (containerId c) requestId
                        (outcome handler args)) ]
          | None =>
              [ Post (CallbackResponse originator (containerId c) requestId
                        (unanswerable method)) ]
          end)
  | CallbackResponse _ _ requestId result => (c, [ Settle requestId result ])
  end.

(** Modelled from the spec: the host's handling of a message a container
    sent, which is not among the sources.  "On a render message: replaces
    the stored entry".  "On a callback-invocation message: if targetId
    addresses a mounted container, forwards the message unchanged; if it
    addresses a host-level capability, invokes it directly and synthesizes
    the callback-response itself"; "a late invocation against an unmounted
    target must still receive an error response".  A callback-response is
    passed on to the container it names.  The two application payloads
    are nothing a container sends, and the host passes none on. *)
Definition host_process (h : Host) (m : Message) : list HostEffect :=
  match m with
  | Render componentId => [ StoreRender componentId ]
  | CallbackInvocation targetId method args requestId originator =>
      if decide (targetId ∈ active h) then [ Forward targetId m ]
      else match capabilities h !! targetId with
           | Some capability =>
               [ InvokeCapability capability args;
                 Forward originator
                   (CallbackResponse originator targetId requestId
                      (outcome capability args)) ]
           | None =>
               [ Forward originator
                   (CallbackResponse originator targetId requestId
                      (unanswerable method)) ]
           end
  | CallbackResponse targetId _ _ _ =>
      if decide (targetId ∈ active h) then [ Forward targetId m ] else []
  | Update _ _ | DomCallback _ _ _ => []
  end.

End Handlers.

End Runtime.

(* ===================================================================== *)
(** * [SocialDb.get] in closed form *)
(* ===================================================================== *)

(** The request and the checks of [SocialDb.get], written out for the
    statements about it; [SocialDbGetFacts.get_unfold] relates them to
    [SocialDb.get]. *)
Module SocialDbGetShape.
Import SocialDb.

Definition keys_error : string :=
  "Must pass a valid `key` or `keys` parameter with non empty string(s).".
Definition finality_error : string := "Must pass either `blockId` or `finality`".
Definition rpc_error : string := "Failed to fetch data from RPC.".

Section Shape.
Variable networkId : string.
Variable MAINNET_SOCIAL_CONTRACT_ID TESTNET_SOCIAL_CONTRACT_ID : string.
Variable encodeJsonRpcArgs : GetData → string.

(** The request [get] builds once its checks have passed. *)
Definition request_of (p : SocialGetParams) : RpcRequest :=
  {| account_id :=
       contractId networkId MAINNET_SOCIAL_CONTRACT_ID TESTNET_SOCIAL_CONTRACT_ID;
     args_base64 :=
       encodeJsonRpcArgs {| data_keys := normalizedKeys p; data_options := options p |};
     block_id := if truthy_block (blockId p) then blockId p else None;
     request_finality :=
       if truthy_block (blockId p) then None
       else Some (default "optimistic" (finality p));
     method_name := "get";
     request_type := "call_function" |}.

(** The two checks of [get]. *)
Definition passes_checks (p : SocialGetParams) : bool :=
  negb (Nat.eqb (List.length (normalizedKeys p)) 0)
  && negb (negb (truthy_block (blockId p))
           && negb (Js.truthy_string (default "optimistic" (finality p)))).

End Shape.

End SocialDbGetShape.

(* ===================================================================== *)
(** * [SandboxWebEngine]: when the sandbox is rendered *)
(* ===================================================================== *)

Module SandboxWebEngineView.
Import SandboxWebEngine.

(** The effect of [SandboxWebEngine] at mount, with the fetch settled:
    [[
      if (!flags?.bosLoaderUrl) return;
      fetchLocalComponents(flags?.bosLoaderUrl);
    ]]
    [fetch] is what the loader brings back for a url. *)
Definition after_mount (bosLoaderUrl : option string) (fetch : string → Fetched)
  : State :=
  match bosLoaderUrl with
  | Some url =>
      if Js.truthy_string url then fetchLocalComponents (fetch url) initial
      else initial
  | None => initial
  end.

(** What the component returns: [PreparedLocalSandbox] with the local
    components once [localComponents] is truthy (an object, empty or not,
    is), the empty fragment otherwise. *)
Definition rendered (st : State) : option (gmap string Entry) :=
  match localComponents st with
  | Some components => Some components
  | None => None
  end.

End SandboxWebEngineView.

(* ===================================================================== *)
(** * Developer-tools monitor: groups, counters and event summaries *)
(* ===================================================================== *)

Module ComponentMonitorView.
Import ComponentMonitor.

(** [ComponentEventData]: the messages the monitor is handed, by the
    properties [buildEventSummary] reads; they are the members of
    [MessagePayload] in [packages/container/src/types.ts]. [node] is kept by
    its keys and [childComponents] by its length, which is all that is
    read of them. *)
Inductive ComponentEventData : Type :=
| RenderEvent (componentId : string) (nodeKeys : list string) (childComponents : nat)
| CallbackInvocationEvent (targetId requestId method : string) (args : Js.Value)
    (originator : string)
| CallbackResponseEvent (targetId requestId : string) (result : string)
| UpdateEvent (componentId : string) (props : Js.Value)
| DomCallbackEvent (method : string) (args : Js.Value).

Definition event_type (ev : ComponentEventData) : string :=
  match ev with
  | RenderEvent _ _ _ => "component.render"
  | CallbackInvocationEvent _ _ _ _ _ => "component.callbackInvocation"
  | CallbackResponseEvent _ _ _ => "component.callbackResponse"
  | UpdateEvent _ _ => "component.update"
  | DomCallbackEvent _ _ => "component.domCallback"
  end.

(** The [value] of a [ComponentEvent]. *)
Inductive SummaryValue : Type :=
| RenderValue (node : list string) (children : nat)
| InvokeValue (requestId method : string) (args : Js.Value) (caller : string)
| ReturnValue (requestId : string) (result : string)
| UpdateValue (props : Js.Value).

(** [interface ComponentEvent]; [componentId] is what [parseComponentId]
    returned, the non-null assertion on it not being checked. *)
Record ComponentEvent : Type := mkComponentEvent {
  badgeClass : string;
  name : string;
  componentId : option ComponentId;
  value : SummaryValue
}.

(** [s.split(sep)[0]] *)
Definition first_segment (sep s : string) : string :=
  nth 0 (Js.split sep s) EmptyString.

(** [sep] occurs in [s]. *)
Definition occurs (sep s : string) : Prop :=
  ∃ pre post, s = pre +:+ sep +:+ post.

(** [shown] is [s] up to the first [sep]: all of [s] when [sep] does not
    occur in it, and otherwise the text before the leftmost occurrence of
    [sep], which is the one occurrence of [sep] in [shown +:+ sep]. *)
Definition up_to_first (sep s shown : string) : Prop :=
  (¬ occurs sep s ∧ shown = s)
  ∨ (∃ rest, s = shown +:+ sep +:+ rest)
    ∧ ∀ pre post, shown +:+ sep = pre +:+ sep +:+ post → post = "".

Definition buildEventSummary (event : ComponentEventData) : option ComponentEvent :=
  match event with
  | RenderEvent componentId nodeKeys childComponents =>
      Some {| badgeClass := "bg-danger"; name := "render";
              componentId := parseComponentId componentId;
              value := RenderValue nodeKeys childComponents |}
  | CallbackInvocationEvent targetId requestId method args originator =>
      Some {| badgeClass := "bg-primary"; name := "invoke";
              componentId := parseComponentId targetId;
              value := InvokeValue (first_segment "-" requestId)
                         (first_segment "::" method) args originator |}
  | CallbackResponseEvent targetId requestId result =>
      Some {| badgeClass := "bg-success"; name := "return";
              componentId := parseComponentId targetId;
              value := ReturnValue (first_segment "-" requestId) result |}
  | UpdateEvent componentId props =>
      Some {| badgeClass := "bg-warning"; name := "update";
              componentId := parseComponentId componentId;
              value := UpdateValue props |}
  | DomCallbackEvent _ _ => None
  end.

(** The text of an event row:
    [{event.componentId.name}{event.componentId.id && `(${event.componentId.id})`}];
    [None] is the [TypeError] of reading [name] off null. An undefined
    name and a falsy id render as nothing. *)
Definition event_label (event : ComponentEvent) : option string :=
  match componentId event with
  | None => None
  | Some c =>
      Some (default EmptyString (ComponentMonitor.name c)
            +:+ match ComponentMonitor.id c with
                | Some i => if Js.truthy_string i then "(" +:+ i +:+ ")" else EmptyString
                | None => EmptyString
                end)
  end.

(** The id string an event's summary is parsed from, if it has one. *)
Definition event_id (event : ComponentEventData) : option string :=
  match event with
  | RenderEvent componentId _ _ => Some componentId
  | CallbackInvocationEvent targetId _ _ _ _ => Some targetId
  | CallbackResponseEvent targetId _ _ => Some targetId
  | UpdateEvent componentId _ => Some componentId
  | DomCallbackEvent _ _ => None
  end.

(** [reversedEvents.map(buildEventSummary)]: the summaries of the
    events, newest first, null for an event that has none. *)
Definition event_rows (events : list ComponentEventData)
  : list (option ComponentEvent) :=
  buildEventSummary <$> rev events.

(** A row of the event list: the badge and its text, the label, and the
    value written out. *)
Record EventRow : Type := mkEventRow {
  rowBadge : string;
  rowName : string;
  rowLabel : string;
  rowValue : string
}.

Section Rows.

(** [JSON.stringify] on the value of a summary; [None] is the
    [TypeError] it throws on a value it cannot write out. *)
Variable stringify : SummaryValue → option string.

(** [event && (<div ...>...</div>)]: a null summary renders nothing;
    for a row the label is read and the value written out, and either can
    throw. *)
Definition render_row (summary : option ComponentEvent)
  : option (option EventRow) :=
  match summary with
  | None => Some None
  | Some event =>
      label ← event_label event;
      text ← stringify (value event);
      Some (Some {| rowBadge := badgeClass event; rowName := name event;
                    rowLabel := label; rowValue := text |})
  end.

(** The event list as it is rendered; one row that throws makes the
    rendering throw, which is [None]. *)
Definition rendered_rows (events : list ComponentEventData)
  : option (list (option EventRow)) :=
  mapM render_row (event_rows events).

(** The rows that are shown. *)
Definition shown_rows (events : list ComponentEventData)
  : option (list EventRow) :=
  match rendered_rows events with
  | Some rows => Some (omap (λ row : option EventRow, row) rows)
  | None => None
  end.

End Rows.

(** [metrics], and the counters of [displayMetrics]. *)
Record ComponentMetrics (Loaded Missing : Type) : Type := mkMetrics {
  componentsLoaded : list Loaded;
  events : list ComponentEventData;
  missingComponents : list Missing
}.
Arguments componentsLoaded {Loaded Missing} _.
Arguments events {Loaded Missing} _.
Arguments missingComponents {Loaded Missing} _.

Record DisplayMetrics : Type := mkDisplayMetrics {
  containersLoaded : nat;      (* 'Component Containers Loaded' *)
  componentRenders : nat;      (* 'Component Renders' *)
  updatesRequested : nat;      (* 'Component Updates Requested' *)
  callbacksInvoked : nat;      (* 'Callbacks Invoked' *)
  callbacksReturned : nat;     (* 'Callbacks Returned' *)
  missing : nat                (* 'Missing Components' *)
}.

Definition count_type (t : string) (events : list ComponentEventData) : nat :=
  List.length (List.filter (λ ev, String.eqb (event_type ev) t) events).

Definition displayMetrics {Loaded Missing : Type}
    (metrics : ComponentMetrics Loaded Missing) : DisplayMetrics :=
  {| containersLoaded := List.length (componentsLoaded metrics);
     componentRenders := count_type "component.render" (events metrics);
     updatesRequested := count_type "component.update" (events metrics);
     callbacksInvoked := count_type "component.callbackInvocation" (events metrics);
     callbacksReturned := count_type "component.callbackResponse" (events metrics);
     missing := List.length (missingComponents metrics) |}.

Section Grouping.

(** A component instance, by its optional [componentId]; and the names
    an object literal inherits from [Object.prototype] ([constructor],
    [toString], ...), all of which read as truthy values. *)
Variable ComponentInstance : Type.
Variable instanceId : ComponentInstance → option string.
Variable inherited : string → bool.

(** [component.componentId?.split('##')[0] || ''] *)
Definition source_of (component : ComponentInstance) : string :=
  match instanceId component with
  | Some componentId =>
      let source := first_segment delimiter componentId in
      if Js.truthy_string source then source else EmptyString
  | None => EmptyString
  end.

(** The reducer of [groupedComponents]; [None] is a [TypeError]. Under
    an inherited name [componentsBySource[source]] is truthy without being
    an array, so no array is stored and [push] is not a function. *)
Definition group_step (acc : option (gmap string (list ComponentInstance)))
    (component : ComponentInstance)
  : option (gmap string (list ComponentInstance)) :=
  match acc with
  | None => None
  | Some componentsBySource =>
      let source := source_of component in
      if inherited source then None
      else
        let withArray :=
          match componentsBySource !! source with
          | Some _ => componentsBySource
          | None => <[ source := [] ]> componentsBySource
          end in
        Some (<[ source := default [] (withArray !! source) ++ [ component ] ]>
                withArray)
  end.

Definition groupedComponents (components : list ComponentInstance)
  : option (gmap string (list ComponentInstance)) :=
  foldl group_step (Some ∅) components.

(** The components of one source, in the order they came. *)
Definition of_source (source : string) (components : list ComponentInstance)
  : list ComponentInstance :=
  List.filter (λ c, String.eqb (source_of c) source) components.

End Grouping.

(** The functions an object literal finds on [Object.prototype], by
    their names; under ["__proto__"] it finds [Object.prototype] itself. *)
Definition prototype_functions : list string :=
  [ "constructor"; "hasOwnProperty"; "isPrototypeOf"; "propertyIsEnumerable";
    "toLocaleString"; "toString"; "valueOf";
    "__defineGetter__"; "__defineSetter__";
    "__lookupGetter__"; "__lookupSetter__" ].

(** The names under which an object literal without own properties
    finds a value. *)
Definition inherited_name (key : string) : bool :=
  String.eqb key "__proto__" || existsb (String.eqb key) prototype_functions.

(** What [componentsBySource[key]] finds. *)
Inductive Found (A : Type) : Type :=
| FoundArray (items : list A)      (* an own property, set by the reducer *)
| FoundFunction (name : string)    (* a function of [Object.prototype] *)
| FoundPrototype                   (* [Object.prototype] *)
| FoundNothing.                    (* undefined *)
Arguments FoundArray {A} items.
Arguments FoundFunction {A} name.
Arguments FoundPrototype {A}.
Arguments FoundNothing {A}.

Section GroupingByReads.

Variable ComponentInstance : Type.
Variable instanceId : ComponentInstance → option string.

(** A property read on the accumulator, whose own properties are the
    arrays the reducer has stored: an own property is found first, then
    the prototype is looked at. *)
Definition read (own : gmap string (list ComponentInstance)) (key : string)
  : Found ComponentInstance :=
  match own !! key with
  | Some items => FoundArray items
  | None =>
      if String.eqb key "__proto__" then FoundPrototype
      else if existsb (String.eqb key) prototype_functions then FoundFunction key
      else FoundNothing
  end.

(** An array, a function and an object are truthy; undefined is not. *)
Definition found_truthy (found : Found ComponentInstance) : bool :=
  match found with
  | FoundNothing => false
  | _ => true
  end.

(** [found.push(component)]: an array takes the component; a function
    and [Object.prototype] have no [push], and neither has undefined, so
    the call throws, which is [None]. *)
Definition push (found : Found ComponentInstance) (component : ComponentInstance)
  : option (list ComponentInstance) :=
  match found with
  | FoundArray items => Some (items ++ [ component ])
  | _ => None
  end.

(** The reducer of [groupedComponents], read by read:
    [[
      if (!componentsBySource[source]) { componentsBySource[source] = []; }
      componentsBySource[source].push(component);
    ]] *)
Definition group_step_reads (acc : option (gmap string (list ComponentInstance)))
    (component : ComponentInstance)
  : option (gmap string (list ComponentInstance)) :=
  match acc with
  | None => None
  | Some componentsBySource =>
      let source := source_of ComponentInstance instanceId component in
      let stored :=
        if found_truthy (read componentsBySource source) then componentsBySource
        else <[ source := [] ]> componentsBySource in
      (λ items, <[ source := items ]> stored) <$> push (read stored source) component
  end.

Definition groupedComponents_reads (components : list ComponentInstance)
  : option (gmap string (list ComponentInstance)) :=
  foldl group_step_reads (Some ∅) components.

(** No own property of the accumulator has an inherited name. *)
Definition own_names_free (own : gmap string (list ComponentInstance)) : Prop :=
  ∀ key, inherited_name key = true → own !! key = None.

End GroupingByReads.

End ComponentMonitorView.

(* ===================================================================== *)
(** * Sandbox [Preview]: the editor's files as local components *)
(* ===================================================================== *)

Module Preview.

(** A file of the sandbox store, by the property the preview reads. *)
Record SandboxFile : Type := mkSandboxFile { source : string }.

(** [filePath.split('.').pop() ?? ''] *)
Definition fileType (filePath : string) : string :=
  List.last (Js.split "." filePath) EmptyString.

(** [['jsx', 'tsx'].includes(fileType)] *)
Definition is_component_file (filePath : string) : bool :=
  existsb (String.eqb (fileType filePath)) [ "jsx"; "tsx" ].

Section Preview.

(** From [../constants] and [../utils]. *)
Variable ACCOUNT_ID : string.
Variable convertFilePathToComponentName : string → string.

(** [`${ACCOUNT_ID}/${componentName}`] *)
Definition component_path (filePath : string) : string :=
  ACCOUNT_ID +:+ "/" +:+ convertFilePathToComponentName filePath.

(** The callback of the [forEach] over [Object.entries(debouncedFiles)],
    on the object [editorComponents] being filled; a local component is
    kept by its [source]. *)
Definition add_file (editorComponents : gmap string string)
    (entry : string * option SandboxFile) : gmap string string :=
  match entry.2 with
  | None => editorComponents
  | Some file =>
      if is_component_file entry.1
      then <[ component_path entry.1 := source file ]> editorComponents
      else editorComponents
  end.

(** What the second effect hands to [setLocalComponents]. *)
Definition editorComponents (entries : list (string * option SandboxFile))
  : gmap string string :=
  foldl add_file ∅ entries.

(** The first effect: [previewFilePath] is
    [pinnedPreviewFilePath ?? activeFilePath]; a falsy one leaves the root
    component path as it is. *)
Definition previewFilePath (pinned active : option string) : option string :=
  match pinned with
  | Some p => Some p
  | None => active
  end.

Definition rootComponentPath_after (pinned active : option string)
    (rootComponentPath : string) : string :=
  match previewFilePath pinned active with
  | Some p => if Js.truthy_string p then component_path p else rootComponentPath
  | None => rootComponentPath
  end.

End Preview.

End Preview.

(* ===================================================================== *)
(** * [SocialDb.set] *)
(* ===================================================================== *)

Module SocialDbSet.
Import SocialDb.

(** JSON data, and an object as its properties in order. *)
#[warnings="-register-all"]
Inductive Json : Type :=
| JLeaf (v : Js.Value)
| JObject (properties : list (string * Json)).

Abbreviation Obj := (list (string * Json)).

(** The wallet selector, as [set] reads it: the state its store returns
    (taken to stay the same during one call), and whether
    [walletSelector.wallet()] yields a wallet or throws. *)
Record AccountState : Type := mkAccountState {
  accountId : string;
  publicKey : option string
}.

Record WalletSelectorState : Type := mkWalletSelectorState {
  accounts : list AccountState;
  selectedWalletId : option string
}.

Record WalletSelector : Type := mkWalletSelector {
  getState : option WalletSelectorState;
  walletResolves : bool
}.

Inductive Strategy : Type := DIFF | FORCE.

(** [SocialSetParams]; an omitted [strategy] is [None]. *)
Record SocialSetParams : Type := mkSetParams {
  data : Json;
  strategy : option Strategy
}.

(** The [data] of the three kinds of RPC call. *)
Inductive RpcData : Type :=
| GetArgs (d : GetData)
| AccountStorageArgs (account_id : string)
| WritePermissionArgs (public_key key : string).

Record AccountStorage : Type := mkAccountStorage {
  available_bytes : Z;
  used_bytes : Z
}.

(** A [FunctionCallAction] ([type: 'FunctionCall']) and its arguments. *)
Inductive ActionArgs : Type :=
| SetArgs (data : Obj)
| GrantArgs (public_key : string) (keys : list string).

Record FunctionCallAction : Type := mkAction {
  methodName : string;
  args : ActionArgs;
  gas : string;
  deposit : string
}.

Record TransactionRequest : Type := mkTransactionRequest {
  receiverId : string;
  actions : list FunctionCallAction
}.

(** The [status] of a [FinalExecutionOutcome]: one of the basic statuses,
    or an object, of which [failure] tells whether its [Failure] is
    truthy. *)
Inductive ExecutionStatus : Type :=
| StatusBasic (s : string)
| StatusObject (failure : bool).

Record FinalExecutionOutcome : Type := mkOutcome { status : ExecutionStatus }.

(** What [wallet.signAndSendTransaction] does: throw an error with a
    message, or return a response, possibly none. *)
Inductive SignResult : Type :=
| SignThrows (message : string)
| SignReturns (response : option FinalExecutionOutcome).

(** What a call has done and how its promise settled: the RPC requests
    issued, the transactions handed to the wallet, the settlement. *)
Record Ran (A : Type) : Type := mkRan {
  requests : list RpcRequest;
  transactions : list TransactionRequest;
  settled : Settled A
}.
Arguments mkRan {A} _ _ _.
Arguments requests {A} _.
Arguments transactions {A} _.
Arguments settled {A} _.

(** The result of [fetchStorageAndPermissions]. *)
Record StorageAndPermissions : Type := mkStorageAndPermissions {
  availableBytes : Z;
  hasInitializedStorageBalance : bool;
  hasWritePermission : bool;
  usedBytes : Z
}.

Section SetCall.

(** The instance. *)
Variable networkId : string.
Variable walletSelector : option WalletSelector.

(** From [./constants]; amounts are whole numbers of yoctoNEAR and of
    gas, for which [Big] arithmetic is integer arithmetic. *)
Variable MAINNET_SOCIAL_CONTRACT_ID TESTNET_SOCIAL_CONTRACT_ID : string.
Variable STORAGE_COST_PER_BYTE INITIAL_ACCOUNT_STORAGE_BALANCE : Z.
Variable MIN_STORAGE_BALANCE WRITE_PERMISSION_STORAGE_BALANCE : Z.
Variable EXTRA_STORAGE_BALANCE ONE_TGAS : Z.

(** From [./utils]. *)
Variable bigMax : Z → Z → Z.
Variable convertToStringLeaves : Json → Json.
Variable encodeJsonRpcArgs : RpcData → string.
Variable estimateRequiredBytesForStorage : Obj → Obj → Z.
Variable extractKeys : Obj → list string.
Variable removeDuplicateData : Obj → Obj → Obj.

(** [FinalExecutionStatusBasic.Failure], from [@near-js/types]. *)
Variable FinalExecutionStatusBasic_Failure : string.

(** [provider.query] followed by [parseJsonRpcResponse], at the three
    types it is used at; [None] when either throws. *)
Variable query_storage : RpcRequest → option (option AccountStorage).
Variable query_permission : RpcRequest → option bool.
Variable query_get : RpcRequest → option Obj.

(** The wallet's [signAndSendTransaction]. *)
Variable signAndSendTransaction : TransactionRequest → SignResult.

Definition contractId : string :=
  SocialDb.contractId networkId MAINNET_SOCIAL_CONTRACT_ID TESTNET_SOCIAL_CONTRACT_ID.

(** [walletSelectorState] and [accountState]. *)
Definition walletSelectorState : option WalletSelectorState :=
  match walletSelector with
  | Some selector => getState selector
  | None => None
  end.

Definition accountState : option AccountState :=
  match walletSelectorState with
  | Some state => head (accounts state)
  | None => None
  end.

(** [wallet()]: whether a wallet is returned ([false] is [null]). *)
Definition wallet : Settled bool :=
  match walletSelector with
  | None =>
      Rejected
        "Social SDK must be configured with `walletSelector` instance to support setting data."
  | Some selector =>
      match walletSelectorState with
      | Some state =>
          if Nat.ltb 0 (List.length (accounts state))
             && UseComponents.truthy_opt (selectedWalletId state)
          then Resolved (walletResolves selector)   (* a throw is caught: null *)
          else Resolved false
      | None => Resolved false
      end
  end.

(** The request of [rpcFetch] when neither [blockId] nor [finality] is
    passed. *)
Definition rpcRequest (data : RpcData) (methodName : string) : RpcRequest :=
  {| account_id := contractId;
     args_base64 := encodeJsonRpcArgs data;
     block_id := None;
     request_finality := Some "optimistic";
     method_name := methodName;
     request_type := "call_function" |}.

(** [fetchStorageAndPermissions]: both requests are issued, and
    [Promise.all] rejects when one of them fails. *)
Definition fetchStorageAndPermissions (accountState : AccountState)
    (publicKey : string) : list RpcRequest * Settled StorageAndPermissions :=
  let storageRequest :=
    rpcRequest (AccountStorageArgs (accountId accountState)) "get_account_storage" in
  let permissionRequest :=
    rpcRequest (WritePermissionArgs publicKey (accountId accountState))
      "is_write_permission_granted" in
  ([ storageRequest; permissionRequest ],
   match query_storage storageRequest, query_permission permissionRequest with
   | Some accountStorage, Some hasWritePermission =>
       Resolved
         {| availableBytes :=
              match accountStorage with Some s => available_bytes s | None => 0%Z end;
            hasInitializedStorageBalance :=
              match accountStorage with Some _ => true | None => false end;
            hasWritePermission := hasWritePermission;
            usedBytes :=
              match accountStorage with Some s => used_bytes s | None => 0%Z end |}
   | _, _ => Rejected "Failed to fetch data from RPC."
   end).

(** [this.get({ keys })], as [set] calls it. *)
Definition get_keys (keys : list string) : list RpcRequest * Settled Obj :=
  SocialDb.get networkId MAINNET_SOCIAL_CONTRACT_ID TESTNET_SOCIAL_CONTRACT_ID
    (λ d, encodeJsonRpcArgs (GetArgs d)) Obj query_get
    {| blockId := None; key := None; keys := Some keys;
       finality := None; options := None |}.

(** The deposit attached to the transaction. *)
Definition deposit_for (perms : StorageAndPermissions) (bytes : Z) : Z :=
  let expectedStorageBalance :=
    (STORAGE_COST_PER_BYTE * bytes
     + (if hasInitializedStorageBalance perms then 0
        else INITIAL_ACCOUNT_STORAGE_BALANCE)
     + (if hasWritePermission perms then 0 else WRITE_PERMISSION_STORAGE_BALANCE)
     + EXTRA_STORAGE_BALANCE)%Z in
  bigMax (expectedStorageBalance - availableBytes perms * STORAGE_COST_PER_BYTE)%Z
    (if hasInitializedStorageBalance perms then 1%Z else MIN_STORAGE_BALANCE).

(** [actions[0].params.deposit = deposit.toFixed(0)] *)
Definition attach_deposit (deposit : Z) (actions : list FunctionCallAction)
  : list FunctionCallAction :=
  match actions with
  | first :: rest =>
      {| methodName := methodName first; args := args first; gas := gas first;
         deposit := pretty deposit |} :: rest
  | [] => []
  end.

(** The actions of the transaction: the [set] call, with a
    [grant_write_permission] call put before it when the permission is
    missing, and the deposit on the first of them. *)
Definition build_actions (account : AccountState) (publicKey : string)
    (perms : StorageAndPermissions) (dataToWrite : Obj) (deposit : Z)
  : list FunctionCallAction :=
  let setAction :=
    {| methodName := "set"; args := SetArgs dataToWrite;
       gas := pretty (ONE_TGAS * 100)%Z; deposit := "0" |} in
  let grantAction :=
    {| methodName := "grant_write_permission";
       args := GrantArgs publicKey [ accountId account ];
       gas := pretty (ONE_TGAS * 100)%Z; deposit := "0" |} in
  attach_deposit deposit
    (if hasWritePermission perms then [ setAction ] else [ grantAction; setAction ]).

(** Whether the response counts as a failed transaction. *)
Definition failed (response : FinalExecutionOutcome) : bool :=
  match status response with
  | StatusBasic s => String.eqb s FinalExecutionStatusBasic_Failure
  | StatusObject failure => failure
  end.

(** The [try] block around [signAndSendTransaction]: every error is
    thrown on, the wallet's message for a cancelled signature being
    replaced. *)
Definition send (request : TransactionRequest)
  : Settled (option FinalExecutionOutcome) :=
  match signAndSendTransaction request with
  | SignThrows message =>
      if String.eqb message "Invalid message. Only transactions can be signed"
      then Rejected "Transaction cancelled by user."
      else Rejected message
  | SignReturns None => Rejected "Transaction failed to return any response."
  | SignReturns (Some response) =>
      if failed response then Rejected "Transaction failed to execute."
      else Resolved (Some response)
  end.

(** [set], from the storage and permissions on. *)
Definition write (account : AccountState) (publicKey : string)
    (perms : StorageAndPermissions) (p : SocialSetParams)
  : Ran (option FinalExecutionOutcome) :=
  let wrapped : Obj := [ (accountId account, convertToStringLeaves (data p)) ] in
  let continue (fetched : list RpcRequest) (currentData dataToWrite : Obj) :=
    match dataToWrite with
    | [] => mkRan fetched [] (Resolved None)
    | _ :: _ =>
        let bytes := estimateRequiredBytesForStorage dataToWrite currentData in
        let request :=
          {| receiverId := contractId;
             actions := build_actions account publicKey perms dataToWrite
                          (deposit_for perms bytes) |} in
        mkRan fetched [ request ] (send request)
    end in
  match default DIFF (strategy p) with
  | DIFF =>
      let '(fetched, got) := get_keys (extractKeys wrapped) in
      match got with
      | Resolved currentData =>
          continue fetched currentData (removeDuplicateData wrapped currentData)
      | Rejected message => mkRan fetched [] (Rejected message)
      end
  | FORCE => continue [] [] wrapped
  end.

Definition set (p : SocialSetParams) : Ran (option FinalExecutionOutcome) :=
  let signedOut :=
    mkRan [] []
      (Rejected "User needs to be signed in with wallet before setting data.") in
  match wallet with
  | Rejected message => mkRan [] [] (Rejected message)
  | Resolved false => signedOut
  | Resolved true =>
      match accountState with
      | Some account =>
          match publicKey account with
          | Some key =>
              if Js.truthy_string key then
                let '(fetched, perms) := fetchStorageAndPermissions account key in
                match perms with
                | Resolved perms =>
                    let ran := write account key perms p in
                    mkRan (fetched ++ requests ran) (transactions ran) (settled ran)
                | Rejected message => mkRan fetched [] (Rejected message)
                end
              else signedOut
          | None => signedOut
          end
      | None => signedOut
      end
  end.

End SetCall.

End SocialDbSet.

(* ===================================================================== *)
(** * Reading runs of the [useComponents] hook *)
(* ===================================================================== *)

Module UseComponentsTrace.
Import UseComponents.

(** The events that may store the component [k] anew: an
    [addComponent] for [k] or a compiler response for [k] without an
    error, which store [renderCount: 1], and any call of the returned
    [setComponents]. *)
Definition resets (k : string) (ev : Event) : bool :=
  match ev with
  | AddComponent k' _ => String.eqb k' k
  | CompilerMessage data =>
      match loadError data with
      | Some _ => false
      | None => String.eqb (componentId data) k
      end
  | SetComponents _ => true
  | _ => false
  end.

(** How often [hooks.componentRendered] is called for [k] in a run. *)
Fixpoint renders (k : string) (evs : list Event) : Z :=
  match evs with
  | [] => 0
  | ComponentRendered k' :: evs' =>
      ((if String.eqb k' k then 1 else 0) + renders k evs')%Z
  | _ :: evs' => renders k evs'
  end.

End UseComponentsTrace.

(* ===================================================================== *)
(** * The [useComponents] hook under changing props *)
(* ===================================================================== *)

Module UseComponentsProps.
Import UseComponents.

(** The mounted hook between two events: its cells and installed
    handler, the props of its last render, and the props of the render
    whose effect installed the handler ([compiler.onmessage] closes over
    the [rootComponentPath] and the [hooks] of that render). *)
Record Mounted : Type := mkMounted {
  hook : Hook;
  props : Params;
  installed : Params
}.

(** What happens to a mounted hook: one of the events, or its parent
    renders it with other props. *)
Inductive Action : Type :=
| Happens (ev : Event)
| Rerender (p : Params).

(** The second effect after a render with the props [p] and the state
    [after], the render before having had the props [previous]: it runs
    when a dependency differs, and past its guard installs a new handler. *)
Definition commit_props (previous p : Params) (m : Mounted) (after : State)
  : Mounted * list Output :=
  if decide (effect_deps previous (current (hook m)) = effect_deps p after)
  then ({| hook := {| current := after; handler := handler (hook m) |};
           props := p; installed := installed m |}, [])
  else ({| hook := {| current := after;
                      handler := if effect_guard p after then Some after
                                 else handler (hook m) |};
           props := p;
           installed := if effect_guard p after then p else installed m |},
        run_effect p after).

(** A compiler response is handled by the installed closure, with the
    props it captured; the other events act under the current props. *)
Definition act (m : Mounted) (a : Action) : Mounted * list Output :=
  match a with
  | Rerender p => commit_props (props m) p m (current (hook m))
  | Happens ev =>
      let '(after, outs) :=
        match ev with
        | CompilerMessage _ => handle (installed m) (hook m) ev
        | _ => handle (props m) (hook m) ev
        end in
      let '(m', posted) := commit_props (props m) (props m) m after in
      (m', outs ++ posted)
  end.

(** The hook at its first render with the props [p]. *)
Definition first_render (p : Params) : Mounted :=
  {| hook := mounted; props := p; installed := p |}.

Fixpoint run_actions (m : Mounted) (actions : list Action)
  : Mounted * list Output :=
  match actions with
  | [] => (m, [])
  | a :: actions' =>
      let '(m', outs) := act m a in
      let '(m'', outs') := run_actions m' actions' in
      (m'', outs ++ outs')
  end.

(** The root component paths the hook was rendered with. *)
Definition root_paths (p : Params) (actions : list Action) : list string :=
  rootComponentPath p
  :: omap (λ a, match a with
                | Rerender p' => Some (rootComponentPath p')
                | Happens _ => None
                end) actions.

(** [rootComponentSource] is unset or one of [paths], and so are the
    current and the captured root component path. *)
Definition source_known (paths : list string) (m : Mounted) : Prop :=
  rootComponentPath (props m) ∈ paths
  ∧ rootComponentPath (installed m) ∈ paths
  ∧ (rootComponentSource (current (hook m)) = None
     ∨ ∃ path, path ∈ paths ∧ rootComponentSource (current (hook m)) = Some path).

End UseComponentsProps.

(* ===================================================================== *)
(** * Facts about the built-ins *)
(* ===================================================================== *)

Module JsFacts.
Import Js.

Lemma append_nil_l (s : string) : "" +:+ s = s.
Proof. reflexivity. Qed.

Lemma append_cons (c : ascii) (s t : string) :
  String c s +:+ t = String c (s +:+ t).
Proof. reflexivity. Qed.

Lemma length_append (s t : string) :
  String.length (s +:+ t) = String.length s + String.length t.
Proof. induction s as [|c s IH]; simpl; [done | by rewrite IH]. Qed.

(** A prefix test that succeeds exhibits the rest of the string. *)
Lemma prefix_inv (p s : string) :
  String.prefix p s = true → ∃ rest, s = p +:+ rest.
Proof.
  revert p. induction s as [|c s IH]; intros [|a p] H; cbn [String.prefix] in H.
  - by exists "".
  - discriminate.
  - by exists (String c s).
  - destruct (ascii_dec a c) as [->|]; [|discriminate].
    destruct (IH _ H) as [rest ->]. by exists rest.
Qed.

Lemma prefix_append (p rest : string) : String.prefix p (p +:+ rest) = true.
Proof.
  induction p as [|a p IH].
  - by destruct rest.
  - rewrite append_cons. cbn [String.prefix].
    destruct (ascii_dec a a); [done | congruence].
Qed.

Lemma split_go_nonempty (sep : string) (k : nat) (s : string) :
  split_go sep k s ≠ [].
Proof.
  revert k. induction s as [|c s IH]; intros k; cbn [split_go]; [done|].
  destruct k; [|apply IH].
  destruct (String.prefix sep (String c s)); [done|].
  destruct (split_go sep 0 s); done.
Qed.

(** The characters of a found separator are passed over. *)
Lemma split_go_skip (sep pre rest : string) :
  split_go sep (String.length pre) (pre +:+ rest) = split_go sep 0 rest.
Proof.
  induction pre as [|c pre IH]; [done|].
  rewrite append_cons. cbn [String.length split_go]. apply IH.
Qed.

Lemma split_at_separator (a : ascii) (sep rest : string) :
  split (String a sep) (String a sep +:+ rest) = "" :: split (String a sep) rest.
Proof.
  unfold split. rewrite append_cons. cbn [split_go].
  rewrite <- append_cons, prefix_append. f_equal.
  replace (String.length (String a sep) - 1) with (String.length sep)
    by (cbn [String.length]; lia).
  apply split_go_skip.
Qed.

Lemma split_no_separator (sep : string) (c : ascii) (s : string) :
  String.prefix sep (String c s) = false →
  split sep (String c s) =
    match split sep s with
    | seg :: segs => String c seg :: segs
    | [] => [ String c "" ]
    end.
Proof. unfold split. intros H. cbn [split_go]. by rewrite H. Qed.

Lemma concat_cons (sep x : string) (xs : list string) :
  xs ≠ [] → String.concat sep (x :: xs) = x +:+ sep +:+ String.concat sep xs.
Proof. by destruct xs. Qed.

(** Joining the segments of a split with the separator gives the string back. *)
Lemma join_split (sep s : string) :
  sep ≠ "" → join sep (split sep s) = s.
Proof.
  intros Hsep. unfold join.
  remember (String.length s) as n eqn:Hn.
  revert s Hn. induction (lt_wf n) as [n _ IH]. intros s ->.
  destruct s as [|c s]; [done|].
  destruct (String.prefix sep (String c s)) eqn:Hp.
  - destruct (prefix_inv _ _ Hp) as [rest Hrest]. rewrite Hrest.
    destruct sep as [|a sep]; [done|].
    rewrite split_at_separator.
    rewrite concat_cons by apply split_go_nonempty.
    rewrite append_nil_l. f_equal.
    apply (IH (String.length rest)); [|done].
    rewrite Hrest, length_append. cbn [String.length]. lia.
  - rewrite split_no_separator by done.
    specialize (IH (String.length s) ltac:(cbn [String.length]; lia) s eq_refl).
    pose proof (split_go_nonempty sep 0 s) as Hne. fold (split sep s) in Hne.
    destruct (split sep s) as [|seg segs]; [done|].
    destruct segs as [|seg' segs].
    + cbn [String.concat] in *. by rewrite IH.
    + rewrite concat_cons in IH by done. rewrite concat_cons by done.
      rewrite append_cons. by rewrite IH.
Qed.

(** Dropping leading segments shortens a non-empty joined string. *)
Lemma length_join_drop (sep : string) (xs : list string) :
  sep ≠ "" → join sep xs ≠ "" →
  String.length (join sep (drop 3 xs)) < String.length (join sep xs).
Proof.
  intros Hsep Hne. unfold join in *.
  assert (0 < String.length sep) as Hlen by (destruct sep; [done | simpl; lia]).
  destruct xs as [|a [|b [|c [|d xs]]]]; cbn [drop].
  - done.
  - cbn [String.concat] in *. destruct a; [done | cbn [String.length]; lia].
  - cbn [String.concat]. rewrite !length_append. cbn [String.length]. lia.
  - cbn [String.concat]. rewrite !length_append. cbn [String.length]. lia.
  - rewrite (concat_cons sep a) by done. rewrite (concat_cons sep b) by done.
    rewrite (concat_cons sep c) by done. rewrite !length_append. lia.
Qed.

Lemma truthy_string_spec (s : string) : truthy_string s = false ↔ s = "".
Proof. by destruct s. Qed.

End JsFacts.

(* ===================================================================== *)
(** * Component ids: parsing and the wire form *)
(* ===================================================================== *)

Module ComponentMonitorFacts.
Import Js JsFacts ComponentMonitor.

Lemma delimiter_nonempty : delimiter ≠ "".
Proof. done. Qed.

(** Any amount of fuel above the length of the input gives the same result. *)
Lemma parse_fuel_enough (f1 f2 : nat) (s : string) :
  String.length s < f1 → String.length s < f2 →
  parse_fuel f1 s = parse_fuel f2 s.
Proof.
  revert f2 s. induction f1 as [|f1 IH]; intros f2 s H1 H2; [lia|].
  destruct f2 as [|f2]; [lia|]. simpl.
  destruct (truthy_string s) eqn:Ht; [|done]. simpl.
  do 2 f_equal.
  assert (s ≠ "") as Hs by (intros ->; discriminate).
  pose proof (length_join_drop delimiter (split delimiter s) delimiter_nonempty) as Hlt.
  rewrite join_split in Hlt by apply delimiter_nonempty.
  specialize (Hlt Hs).
  apply IH; lia.
Qed.

(** [parseComponentId] satisfies the equation of the source function: the
    fuel never runs out. *)
Lemma parseComponentId_unfold (componentId : string) :
  parseComponentId componentId =
    if negb (truthy_string componentId) then None
    else
      let segments := split delimiter componentId in
      let path := nth 0 segments "" in
      let pathSegments := split "/" path in
      Some {| author := nth 0 pathSegments "";
              name := pathSegments !! 2%nat;
              path := path;
              id := segments !! 1%nat;
              parent := parseComponentId (join delimiter (drop 3 segments)) |}.
Proof.
  unfold parseComponentId at 1. cbn [parse_fuel].
  destruct (truthy_string componentId) eqn:Ht; [|done]. cbn [negb].
  cbv zeta. do 2 f_equal.
  assert (componentId ≠ "") as Hs by (intros ->; discriminate).
  pose proof (length_join_drop delimiter (split delimiter componentId)
                delimiter_nonempty) as Hlt.
  rewrite join_split in Hlt by apply delimiter_nonempty.
  specialize (Hlt Hs).
  apply parse_fuel_enough; lia.
Qed.

(** A segment free of ['#'] ends at the next delimiter. *)
Lemma split_segment (p rest : string) :
  hash_free p = true →
  split delimiter (p +:+ delimiter +:+ rest) = p :: split delimiter rest.
Proof.
  induction p as [|c p IH]; intros Hp.
  - rewrite append_nil_l. apply (split_at_separator "#" "#" rest).
  - cbn [hash_free] in Hp. apply andb_prop in Hp as [Hc Hp].
    rewrite append_cons, split_no_separator.
    + by rewrite IH.
    + unfold delimiter. cbn [String.prefix].
      destruct (ascii_dec "#" c) as [<-|]; [discriminate | done].
Qed.

Lemma split_last_segment (p : string) :
  hash_free p = true → split delimiter p = [ p ].
Proof.
  induction p as [|c p IH]; intros Hp; [done|].
  cbn [hash_free] in Hp. apply andb_prop in Hp as [Hc Hp].
  rewrite split_no_separator.
  - by rewrite IH.
  - unfold delimiter. cbn [String.prefix].
    destruct (ascii_dec "#" c) as [<-|]; [discriminate | done].
Qed.

Lemma truthy_with_delimiter (p rest : string) :
  truthy_string (p +:+ delimiter +:+ rest) = true.
Proof. by destruct p. Qed.

(** The third segment of the wire form plays no part in the result:
    the ancestors are parsed from the fourth segment on. *)
Lemma parse_skips_third_segment (p i x rest : string) :
  hash_free p = true → hash_free i = true → hash_free x = true →
  parseComponentId (p +:+ delimiter +:+ i +:+ delimiter +:+ x +:+ delimiter +:+ rest) =
    Some {| author := nth 0 (split "/" p) "";
            name := split "/" p !! 2%nat;
            path := p;
            id := Some i;
            parent := parseComponentId rest |}.
Proof.
  intros Hp Hi Hx. rewrite parseComponentId_unfold.
  rewrite truthy_with_delimiter. cbn [negb]. cbv zeta.
  rewrite !split_segment by done. cbn [nth drop lookup list_lookup].
  rewrite drop_0. by rewrite join_split by apply delimiter_nonempty.
Qed.

(** Whatever the input, the author and the name of a parsed id are read
    off its path. *)
Lemma parse_author_from_path (s : string) (v : ComponentId) :
  parseComponentId s = Some v →
  author v = nth 0 (split "/" (path v)) ""
  ∧ name v = split "/" (path v) !! 2%nat.
Proof.
  rewrite parseComponentId_unfold. destruct (negb (truthy_string s)); [done|].
  cbv zeta. by intros [= <-].
Qed.

(** ** C2 *)

(** C2, counterexample: a component id with one ancestor does not come
    back from its wire form. The parsed parent is built from the
    ancestor's instance id alone, since the segment holding the ancestor's
    path is skipped. *)
Lemma roundtrip_fails_with_parent :
  let root := {| author := "alice.near"; name := Some "Feed";
                 path := "alice.near/widget/Feed"; id := Some "root";
                 parent := None |} in
  let child := {| author := "bob.near"; name := Some "Post";
                  path := "bob.near/widget/Post"; id := Some "post-1";
                  parent := Some root |} in
  serialize child = "bob.near/widget/Post##post-1##alice.near/widget/Feed##root"
  ∧ parseComponentId (serialize child) =
      Some {| author := "bob.near"; name := Some "Post";
              path := "bob.near/widget/Post"; id := Some "post-1";
              parent := Some {| author := "root"; name := None; path := "root";
                                id := None; parent := None |} |}
  ∧ parseComponentId (serialize child) ≠ Some child.
Proof. vm_compute. repeat split. discriminate. Qed.

(** C2, amended: a component id without a parent, whose path and instance
    id hold no ['#'] and whose author and name are the first and third
    ['/']-separated segments of its path, is recovered from its wire
    form. *)
Theorem roundtrip_root (v : ComponentId) (i : string) :
  parent v = None →
  id v = Some i →
  hash_free (path v) = true →
  hash_free i = true →
  author v = nth 0 (split "/" (path v)) "" →
  name v = split "/" (path v) !! 2%nat →
  parseComponentId (serialize v) = Some v.
Proof.
  destruct v as [a n p i' par]. cbn [parent id path author name].
  intros -> -> Hp Hi -> ->.
  unfold serialize, join. cbn [segments_of path id parent default String.concat].
  rewrite parseComponentId_unfold, truthy_with_delimiter. cbn [negb]. cbv zeta.
  rewrite split_segment, split_last_segment by done.
  cbn [nth drop lookup list_lookup String.concat].
  by rewrite parseComponentId_unfold.
Qed.

Lemma roundtrip_root_witness :
  let v := {| author := "alice.near"; name := Some "Feed";
              path := "alice.near/widget/Feed"; id := Some "root";
              parent := None |} in
  parseComponentId (serialize v) = Some v.
Proof. intros v. apply (roundtrip_root v "root"); reflexivity. Defined.

(** ** C3 *)

(** C3, counterexample: a string without any delimiter is not the wire
    form of a component id, yet it parses to an id whose name and
    instance id are undefined. *)
Lemma malformed_input_parses :
  malformed "not-a-component-id"
  ∧ parseComponentId "not-a-component-id" =
      Some {| author := "not-a-component-id"; name := None;
              path := "not-a-component-id"; id := None; parent := None |}.
Proof.
  split; [|by vm_compute].
  intros v Hv.
  assert (hash_free (serialize v) = true) as Hfree by (by rewrite Hv).
  revert Hfree. unfold serialize, join. destruct v as [a n p i par].
  cbn [segments_of path id parent]. rewrite concat_cons by done.
  clear. induction p as [|c p IH]; [done|].
  rewrite append_cons. cbn [hash_free]. intros H%andb_prop. tauto.
Qed.

(** C3, amended: [parseComponentId] is a total function into
    [ComponentId | null] that returns null for the empty string and for
    no other input. *)
Theorem parse_null_iff_empty (s : string) :
  parseComponentId s = None ↔ s = "".
Proof.
  split.
  - rewrite parseComponentId_unfold. by destruct s.
  - by intros ->.
Qed.

End ComponentMonitorFacts.

(* ===================================================================== *)
(** * Wire messages: declared shapes and direction *)
(* ===================================================================== *)

Module MessageFacts.
Import Js TsDecl.

Lemma carries_member (o : gmap string Value) (i : Interface) (m : Member) :
  carries o i → In m (members i) → member_ok o m = true.
Proof. intros [Hall _] Hin. by apply (proj1 (forallb_forall _ _) Hall). Qed.

(** A required member with a literal type pins the property's value. *)
Lemma carries_literal (o : gmap string Value) (i : Interface) (n l : string) :
  carries o i → In (required n (TLiteral l)) (members i) →
  o !! n = Some (VStr l).
Proof.
  intros Hc Hin. pose proof (carries_member _ _ _ Hc Hin) as Hok.
  unfold member_ok in Hok. cbn [member_name member_type member_optional required] in Hok.
  destruct (o !! n) as [[| | | | |s|]|]; try discriminate.
  cbn [has_type] in Hok. by apply String.eqb_eq in Hok as ->.
Qed.

Lemma carries_string (o : gmap string Value) (i : Interface) (n : string) :
  carries o i → In (required n TString) (members i) →
  ∃ s, o !! n = Some (VStr s).
Proof.
  intros Hc Hin. pose proof (carries_member _ _ _ Hc Hin) as Hok.
  unfold member_ok in Hok. cbn [member_name member_type member_optional required] in Hok.
  destruct (o !! n) as [[| | | | |s|]|]; try discriminate. by exists s.
Qed.

(** When no member is optional, the properties of a message are exactly
    the declared ones. *)
Lemma carries_dom (o : gmap string Value) (i : Interface) :
  carries o i →
  forallb (λ m, negb (member_optional m)) (members i) = true →
  dom o = field_names i.
Proof.
  intros Hc Hreq. apply set_eq. intros x. split.
  - destruct Hc as [_ Hsub]. apply Hsub.
  - unfold field_names. rewrite elem_of_list_to_set, list_elem_of_fmap.
    intros (m & -> & Hm%list_elem_of_In).
    pose proof (carries_member _ _ _ Hc Hm) as Hok.
    pose proof (proj1 (forallb_forall _ _) Hreq _ Hm) as Hm'.
    unfold member_ok in Hok. apply elem_of_dom.
    destruct (o !! member_name m); [done|].
    cbv beta in Hm'. rewrite Hok in Hm'. discriminate.
Qed.

Ltac member_in := vm_compute; tauto.

(** ** C4 *)

(** C4, counterexample: a message that has the shape declared for
    [ComponentCallbackInvocation] in [common/src/types/messaging.ts] names
    the initiating container [containerId]; it has no [originator]. *)
Lemma common_invocation_without_originator :
  let o : gmap string Value :=
    <[ "args" := VObject "[]" ]>
      (<[ "method" := VStr "onChange" ]>
         (<[ "containerId" := VStr "alice.near/widget/Feed##root" ]>
            (<[ "requestId" := VStr "r-1" ]>
               (<[ "targetId" := VNull ]>
                  (<[ "type" := VStr "component.callbackInvocation" ]> ∅))))) in
  carries o Messaging.ComponentCallbackInvocation
  ∧ o !! "originator" = None
  ∧ dom o ≠ ({[ "targetId"; "method"; "args"; "requestId"; "originator"; "type" ]}
               : gset string).
Proof.
  intros o. split; [|split].
  - split; [by vm_compute|]. apply (bool_decide_unpack _); by vm_compute.
  - by vm_compute.
  - intros Heq. assert ("originator" ∈ dom o) as Hin by (rewrite Heq; set_solver).
    apply elem_of_dom in Hin as [v Hv]. by vm_compute in Hv.
Qed.

(** C4, amended: a message of the shape declared in
    [container/src/types.ts] carries exactly [targetId], [method], [args],
    [requestId], [originator] and the literal [type]; one of the shape
    declared in [common/src/types/messaging.ts] carries [containerId]
    where the other has [originator]. *)
Theorem invocation_fields (o : gmap string Value) :
  (carries o ContainerTypes.ComponentCallbackInvocation →
     dom o = {[ "targetId"; "method"; "args"; "requestId"; "originator"; "type" ]}
     ∧ o !! "type" = Some (VStr "component.callbackInvocation")
     ∧ ∃ initiator, o !! "originator" = Some (VStr initiator))
  ∧ (carries o Messaging.ComponentCallbackInvocation →
     dom o = {[ "targetId"; "method"; "args"; "requestId"; "containerId"; "type" ]}
     ∧ o !! "type" = Some (VStr "component.callbackInvocation")
     ∧ ∃ initiator, o !! "containerId" = Some (VStr initiator)).
Proof.
  split; intros Hc.
  - split; [|split].
    + rewrite (carries_dom _ _ Hc) by done. unfold field_names.
      vm_compute members. cbn [fmap list_fmap member_name list_to_set foldr].
      set_solver.
    + apply (carries_literal _ _ _ _ Hc). member_in.
    + apply (carries_string _ _ _ Hc). member_in.
  - split; [|split].
    + rewrite (carries_dom _ _ Hc) by done. unfold field_names.
      vm_compute members. cbn [fmap list_fmap member_name list_to_set foldr].
      set_solver.
    + apply (carries_literal _ _ _ _ Hc). member_in.
    + apply (carries_string _ _ _ Hc). member_in.
Qed.

(** ** C7 *)

Lemma in_union_cons (o : gmap string Value) (i : Interface) (u : list Interface) :
  in_union o (i :: u) ↔ carries o i ∨ in_union o u.
Proof.
  unfold in_union. split.
  - intros (j & [->|Hj]%elem_of_cons & Hc); [by left | right; by exists j].
  - intros [Hc|(j & Hj & Hc)]; [exists i | exists j]; split; try done;
      apply elem_of_cons; auto.
Qed.

Lemma in_union_nil (o : gmap string Value) : ¬ in_union o [].
Proof. intros (j & Hj & _). by apply elem_of_nil in Hj. Qed.

(** A message carrying [i], whose literal [type] is [l], is tagged [l]. *)
Ltac tag_of Hc :=
  eapply carries_literal in Hc; [|member_in].

(** Among the payloads of [common/src/types/messaging.ts], a message
    tagged [component.domCallback] is a [DomCallback], which is an
    application-to-container payload and no container-to-application
    payload. *)
Lemma dom_callback_declared (o : gmap string Value) :
  in_union o Messaging.MessagePayload →
  o !! "type" = Some (VStr Messaging.ComponentDomCallbackType) →
  carries o Messaging.DomCallback
  ∧ in_union o Messaging.ApplicationPayload
  ∧ ¬ in_union o Messaging.ContainerPayload.
Proof.
  intros Hin Htype.
  assert (¬ in_union o Messaging.ContainerPayload) as Hnot.
  { unfold Messaging.ContainerPayload. rewrite !in_union_cons.
    intros [Hc|[Hc|[Hc|Hc]]]; [tag_of Hc | tag_of Hc | tag_of Hc |
                                 by apply in_union_nil in Hc];
      rewrite Htype in Hc; discriminate. }
  assert (carries o Messaging.DomCallback) as Hdom.
  { unfold Messaging.MessagePayload, Messaging.ApplicationPayload in Hin.
    cbn [app] in Hin. apply in_union_cons in Hin as [Hc|Hin].
    - tag_of Hc. rewrite Htype in Hc. discriminate.
    - apply in_union_cons in Hin as [Hc|Hin]; [done|]. by destruct Hnot. }
  split; [done|]. split; [|done].
  unfold Messaging.ApplicationPayload. rewrite !in_union_cons. auto.
Qed.

(** [Props] declares the two callback namespaces, under two names. *)
Lemma props_namespaces :
  "__domcallbacks" ∈ field_names ContainerTypes.Props
  ∧ "__componentcallbacks" ∈ field_names ContainerTypes.Props
  ∧ "__domcallbacks" ≠ "__componentcallbacks".
Proof.
  split; [|split; [|done]];
    unfold field_names; vm_compute members;
    cbn [fmap list_fmap member_name list_to_set foldr]; set_solver.
Qed.

(** The required members of a message that carries [DomCallback]. *)
Lemma dom_callback_members (o : gmap string Value) :
  carries o Messaging.DomCallback →
  (∃ method, o !! "method" = Some (VStr method))
  ∧ (∃ repr, o !! "args" = Some (VObject repr))
  ∧ (o !! "componentId" = None ∨ ∃ c, o !! "componentId" = Some (VStr c)).
Proof.
  intros Hc. split; [apply (carries_string _ _ _ Hc); member_in|]. split.
  - assert (In (required "args" (TNamed "SerializedArgs"))
              (members Messaging.DomCallback)) as Hin by member_in.
    pose proof (carries_member _ _ _ Hc Hin) as Hok.
    unfold member_ok in Hok.
    cbn [member_name member_type member_optional required] in Hok.
    destruct (o !! "args") as [[| | | | | |r]|]; try discriminate. by exists r.
  - assert (In (optional "componentId" TString)
              (members Messaging.DomCallback)) as Hin by member_in.
    pose proof (carries_member _ _ _ Hc Hin) as Hok.
    unfold member_ok in Hok.
    cbn [member_name member_type member_optional optional] in Hok.
    destruct (o !! "componentId") as [[| | | | |c|]|]; try discriminate;
      [right; by exists c | by left].
Qed.

Lemma invocation_fields_witness :
  let o : gmap string Value :=
    <[ "args" := VObject "[]" ]>
      (<[ "method" := VStr "onChange" ]>
         (<[ "originator" := VStr "bob.near/widget/Post##post-1" ]>
            (<[ "requestId" := VStr "r-1" ]>
               (<[ "targetId" := VStr "alice.near/widget/Feed##root" ]>
                  (<[ "type" := VStr "component.callbackInvocation" ]> ∅))))) in
  dom o = {[ "targetId"; "method"; "args"; "requestId"; "originator"; "type" ]}
  ∧ o !! "type" = Some (VStr "component.callbackInvocation")
  ∧ ∃ initiator, o !! "originator" = Some (VStr initiator).
Proof.
  intros o. apply (proj1 (invocation_fields o)).
  split; [by vm_compute|]. apply (bool_decide_unpack _); by vm_compute.
Defined.

End MessageFacts.

(* ===================================================================== *)
(** * [useComponents]: render counts and compile errors *)
(* ===================================================================== *)

Module UseComponentsFacts.
Import Js JsFacts UseComponents.

(** Up to [2^53] in absolute value an integer is a double. *)
Lemma round_double_exact (z : Z) :
  (Z.abs z ≤ 2 ^ 53)%Z → round_double z = z.
Proof. intros Hz. unfold round_double. by rewrite (proj2 (Z.leb_le _ _) Hz). Qed.

(** [n + 1 || 0] is the sum [n + 1], also when that is the falsy [0]. *)
Lemma next_count (n : Z) :
  or_else (add_one (VNum n)) (VNum 0) = VNum (round_double (round_double n + 1)).
Proof.
  unfold or_else. cbn [add_one truthy].
  destruct (round_double (round_double n + 1) =? 0)%Z eqn:Hz; [|done].
  apply Z.eqb_eq in Hz. cbn [negb]. by rewrite Hz.
Qed.

(** From [-2^53] to [2^53 - 1] the sum is exact. *)
Lemma next_count_exact (n : Z) :
  (- 2 ^ 53 ≤ n < 2 ^ 53)%Z → round_double (round_double n + 1) = (n + 1)%Z.
Proof. intros Hn. rewrite (round_double_exact n), round_double_exact; lia. Qed.


Lemma step_current (p : Params) (h : Hook) (ev : Event) :
  current (step p h ev).1 = (handle p h ev).1.
Proof.
  unfold step. destruct (handle p h ev) as [after outs]. unfold commit.
  by destruct (decide _).
Qed.

Lemma read_after_insert (cs : gmap string (gmap string Value)) (k : string)
    (o : gmap string Value) (v : Value) :
  get_prop (<[ k := <[ "renderCount" := v ]> o ]> cs !! k) "renderCount" = v.
Proof. unfold get_prop. by rewrite !lookup_insert_eq. Qed.

(** ** C8 *)



(** ** C6 *)

(** C6, counterexample: the root component fails to compile. The handler
    stores the message; the change of [error], a dependency of the effect,
    makes the effect run again, and the same [execute] request goes to the
    compiler a second time. *)
Lemma compile_error_posts_execute_again :
  let p := {| compiler := true; rootComponentPath := "alice.near/Feed";
              bosLoaderUrl := None; hookComponentRendered := false;
              hookContainerSourceCompiled := false |} in
  let failure := {| componentId := "alice.near/Feed"; componentSource := "";
                    containerStyles := None; loadError := Some "compile failed";
                    importedModules := VUndefined |} in
  let requested := step p mounted (PathChecked true) in
  let failed := step p requested.1 (CompilerMessage failure) in
  compiler_requests requested.2 = [ "alice.near/Feed" ]
  ∧ error (current failed.1) = Some "compile failed"
  ∧ compiler_requests failed.2 = [ "alice.near/Feed" ]
  ∧ compiler_requests failed.2 ≠ [].
Proof. vm_compute. repeat split. discriminate. Qed.

(** C6, amended: on a response with an error, the installed handler
    stores the error's message, leaves the stored components as they are
    (no entry is added, none is changed) and itself sends nothing; what
    goes to the compiler afterwards is what the effect posts when it runs
    again, which it does exactly when the stored error changed. *)
Theorem compile_error_surfaced (p : Params) (h : Hook) (captured : State)
    (data : ComponentCompilerResponse) (message : string) :
  handler h = Some captured →
  loadError data = Some message →
  let after := (step p h (CompilerMessage data)).1 in
  error (current after) = Some message
  ∧ components (current after) = components (current h)
  ∧ (handle p h (CompilerMessage data)).2 = []
  ∧ (step p h (CompilerMessage data)).2 =
      if decide (error (current h) = Some message) then []
      else run_effect p (current after).
Proof.
  intros Hh Herr after. subst after.
  rewrite step_current. unfold step. cbn [handle]. rewrite Hh.
  unfold onmessage. rewrite Herr. cbn [fst snd].
  split; [done|]. split; [done|]. split; [done|].
  unfold commit, effect_deps. cbn [setError error rootComponentSource
    isValidRootComponentPath components].
  destruct (decide (error (current h) = Some message)) as [He|He].
  - rewrite decide_True by (by rewrite He). done.
  - rewrite decide_False by congruence. done.
Qed.

Lemma compile_error_surfaced_witness :
  let p := {| compiler := true; rootComponentPath := "alice.near/Feed";
              bosLoaderUrl := None; hookComponentRendered := false;
              hookContainerSourceCompiled := false |} in
  let failure := {| componentId := "alice.near/Feed"; componentSource := "";
                    containerStyles := None; loadError := Some "compile failed";
                    importedModules := VUndefined |} in
  let h := (step p mounted (PathChecked true)).1 in
  let after := (step p h (CompilerMessage failure)).1 in
  error (current after) = Some "compile failed"
  ∧ components (current after) = components (current h)
  ∧ (handle p h (CompilerMessage failure)).2 = []
  ∧ (step p h (CompilerMessage failure)).2 =
      if decide (error (current h) = Some "compile failed") then []
      else run_effect p (current after).
Proof.
  intros p failure h.
  apply (compile_error_surfaced p h (current h) failure "compile failed");
    reflexivity.
Defined.

End UseComponentsFacts.

(* ===================================================================== *)
(** * [SocialDb.get]: the keys of a request *)
(* ===================================================================== *)

Module SocialDbFacts.
Import Js SocialDb.

Lemma filter_all_empty (ks : list string) :
  (∀ k, k ∈ ks → k = "") → List.filter truthy_string ks = [].
Proof.
  induction ks as [|k ks IH]; intros Hall; [done|].
  cbn [List.filter]. rewrite (Hall k) by apply list_elem_of_here.
  cbn [truthy_string]. apply IH. intros k' Hk'. apply Hall. by apply list_elem_of_further.
Qed.

Lemma normalizedKeys_none (p : SocialGetParams) :
  ¬ (∃ k, key p = Some k ∧ k ≠ "") →
  ¬ (∃ ks k, keys p = Some ks ∧ k ∈ ks ∧ k ≠ "") →
  normalizedKeys p = [].
Proof.
  intros Hkey Hkeys. unfold normalizedKeys.
  assert (List.filter truthy_string (default [] (keys p)) = []) as Hfilter.
  { apply filter_all_empty. intros k Hk. destruct (keys p) as [ks|] eqn:Hks.
    - destruct (decide (k = "")) as [|Hne]; [done|]. destruct Hkeys. by exists ks, k.
    - by apply elem_of_nil in Hk. }
  destruct (key p) as [k|]; [|done].
  destruct k as [|c k]; [done|]. destruct Hkey. by exists (String c k).
Qed.

Lemma normalizedKeys_single (p : SocialGetParams) (k : string) :
  key p = Some k → k ≠ "" → normalizedKeys p = [ k ].
Proof.
  intros Hk Hne. unfold normalizedKeys. rewrite Hk.
  destruct k as [|c k]; done.
Qed.

Section Get.
Variable networkId : string.
Variable MAINNET_SOCIAL_CONTRACT_ID TESTNET_SOCIAL_CONTRACT_ID : string.
Variable encodeJsonRpcArgs : GetData → string.
Variable Response : Type.
Variable query : RpcRequest → option Response.

Let get := get networkId MAINNET_SOCIAL_CONTRACT_ID TESTNET_SOCIAL_CONTRACT_ID
             encodeJsonRpcArgs Response query.

(** ** C9 *)

(** C9: a call that supplies neither a non-empty [key] nor a [keys]
    list with a non-empty string is rejected with an error before any
    RPC request is issued; with a non-empty [key], the keys of the
    request are that key alone, and the call is the same whatever [keys]
    holds. *)
Theorem get_keys (p : SocialGetParams) :
  (¬ (∃ k, key p = Some k ∧ k ≠ "") →
   ¬ (∃ ks k, keys p = Some ks ∧ k ∈ ks ∧ k ≠ "") →
   get p =
     ([], Rejected
            "Must pass a valid `key` or `keys` parameter with non empty string(s)."))
  ∧ (∀ k, key p = Some k → k ≠ "" →
     normalizedKeys p = [ k ]
     ∧ ∀ others,
         get {| blockId := blockId p; key := key p; keys := others;
                finality := finality p; options := options p |} = get p).
Proof.
  split.
  - intros Hkey Hkeys. unfold get, SocialDb.get.
    by rewrite normalizedKeys_none.
  - intros k Hk Hne. split; [by apply normalizedKeys_single|].
    intros others. unfold get, SocialDb.get.
    rewrite (normalizedKeys_single p k) by done.
    rewrite (normalizedKeys_single _ k) by done.
    done.
Qed.

End Get.

Lemma get_keys_witness :
  let query (r : RpcRequest) : option string := Some (args_base64 r) in
  let encode (d : GetData) : string := String.concat "," (data_keys d) in
  let get := get "mainnet" "social.near" "v1.social08.testnet" encode string query in
  let empty := {| blockId := None; key := Some ""; keys := Some [ ""; "" ];
                  finality := None; options := None |} in
  let single := {| blockId := None; key := Some "alice.near/profile/*";
                   keys := Some [ "bob.near/profile/*" ];
                   finality := None; options := None |} in
  get empty =
    ([], Rejected
           "Must pass a valid `key` or `keys` parameter with non empty string(s).")
  ∧ normalizedKeys single = [ "alice.near/profile/*" ]
  ∧ (get single).2 = Resolved "alice.near/profile/*".
Proof.
  intros query encode get empty single. split; [|split].
  - apply (proj1 (get_keys "mainnet" "social.near" "v1.social08.testnet"
                    encode string query empty)).
    + intros (k & [= <-] & Hk). done.
    + intros (ks & k & [= <-] & Hin & Hk).
      apply elem_of_cons in Hin as [->|Hin]; [done|].
      apply elem_of_cons in Hin as [->|Hin]; [done|].
      by apply elem_of_nil in Hin.
  - apply (proj2 (get_keys "mainnet" "social.near" "v1.social08.testnet"
                    encode string query single) "alice.near/profile/*");
      [reflexivity | discriminate].
  - reflexivity.
Defined.

End SocialDbFacts.

(* ===================================================================== *)
(** * [fetchLocalComponents]: from [code] to [component] *)
(* ===================================================================== *)

Module SandboxWebEngineFacts.
Import Js SandboxWebEngine.


Lemma elem_of_object_keys (o : gmap string Entry) (k : string) :
  k ∈ object_keys o ↔ is_Some (o !! k).
Proof.
  unfold object_keys. rewrite list_elem_of_fmap. split.
  - intros ([k' e] & -> & Hin%elem_of_map_to_list). by exists e.
  - intros [e He]. exists (k, e). split; [done|]. by apply elem_of_map_to_list.
Qed.





(** ** C10 *)



(** An entry that is no object makes the loop throw, and the handler
    falls back to the empty object. *)
Lemma fetch_non_object_entry :
  let components : gmap string Entry := {[ "alice.near/Feed" := None ]} in
  let st' := fetchLocalComponents (FetchJson (Some components)) initial in
  localComponents st' = Some ∅ ∧ localFetchStatus st' = Some ERROR.
Proof. by vm_compute. Qed.

End SandboxWebEngineFacts.

(* ===================================================================== *)
(** * Request correlator: settling pending requests *)
(* ===================================================================== *)

Module CorrelatorFacts.
Import Correlator.

Section Correlate.
Variable Val : Type.
Variable decode : string → ResultPair Val.

Let receive := receive Val decode.
Let receive_all := receive_all Val decode.
Let unmount := @unmount Val.

Lemma receive_unknown (requests : gmap string ContainerTypes.CallbackRequest)
    (m : CallbackResponse) :
  requests !! requestId m = None → receive requests m = (requests, []).
Proof. intros H. unfold receive, Correlator.receive. by rewrite H. Qed.

Lemma receive_removes (requests : gmap string ContainerTypes.CallbackRequest)
    (m : CallbackResponse) :
  (receive requests m).1 !! requestId m = None.
Proof.
  unfold receive, Correlator.receive.
  destruct (requests !! requestId m) eqn:H; cbn [fst]; [|done].
  apply lookup_delete_eq.
Qed.

Lemma receive_others (requests : gmap string ContainerTypes.CallbackRequest)
    (m : CallbackResponse) (i : string) :
  i ≠ requestId m → (receive requests m).1 !! i = requests !! i.
Proof.
  intros Hne. unfold receive, Correlator.receive.
  destruct (requests !! requestId m); cbn [fst]; [|done].
  by apply lookup_delete_ne.
Qed.

(** A response settles nothing but the request it names, and that one
    only when it is pending. *)
Lemma receive_settles (requests : gmap string ContainerTypes.CallbackRequest)
    (m : CallbackResponse) (i : string) :
  settlements_of Val i (receive requests m).2 =
    if decide (i = requestId m ∧ is_Some (requests !! i)) then 1 else 0.
Proof.
  unfold receive, Correlator.receive, settlements_of.
  destruct (requests !! requestId m) as [entry|] eqn:H; cbn [snd List.filter].
  - assert (settled_id Val
              match error (decode (result m)) with
              | Some message => Reject (requestId m) entry (Reconstructed message)
              | None => Resolve (requestId m) entry (value (decode (result m)))
              end = requestId m) as -> by (by destruct (error _)).
    destruct (decide (i = requestId m)) as [->|Hne].
    + rewrite String.eqb_refl. cbn [List.length].
      rewrite decide_True; [done|]. by rewrite H.
    + rewrite (proj2 (String.eqb_neq _ _)) by done. cbn [List.length].
      rewrite decide_False; [done|]. tauto.
  - cbn [List.length]. rewrite decide_False; [done|].
    intros [-> [? Hsome]]. congruence.
Qed.

Lemma settlements_of_app (i : string) (xs ys : list (Settlement Val)) :
  settlements_of Val i (xs ++ ys) =
    settlements_of Val i xs + settlements_of Val i ys.
Proof. unfold settlements_of. by rewrite List.filter_app, length_app. Qed.

(** Over any run of responses, a request is settled once when it is
    pending and some response names it, and not at all otherwise. *)
Lemma receive_all_settles (ms : list CallbackResponse)
    (requests : gmap string ContainerTypes.CallbackRequest) (i : string) :
  settlements_of Val i (receive_all requests ms).2 =
    if decide (is_Some (requests !! i) ∧ i ∈ requestId <$> ms) then 1 else 0.
Proof.
  revert requests. induction ms as [|m ms IH]; intros requests.
  - cbn. rewrite decide_False; [done|]. intros [_ []%elem_of_nil].
  - unfold receive_all. cbn [Correlator.receive_all]. fold receive_all. fold receive.
    pose proof (receive_settles requests m i) as Hone.
    pose proof (receive_removes requests m) as Hgone.
    pose proof (receive_others requests m i) as Hkeep.
    destruct (receive requests m) as [requests' out].
    specialize (IH requests'). destruct (receive_all requests' ms) as [requests'' outs].
    cbn [fst snd] in *. rewrite settlements_of_app, Hone, IH. clear Hone IH.
    rewrite fmap_cons.
    destruct (decide (i = requestId m)) as [->|Hne].
    + rewrite Hgone.
      rewrite (decide_False (P := is_Some None ∧ _)) by (intros [[] _]; done).
      destruct (requests !! requestId m) eqn:Hreq.
      * rewrite !decide_True; [done| |done]. split; [done|]. apply list_elem_of_here.
      * rewrite !decide_False; [done| |]; intros [H1 H2];
          first [ by apply is_Some_None in H1 | by apply is_Some_None in H2 ].
    + rewrite Hkeep by done.
      rewrite (decide_False (P := i = requestId m ∧ _)) by tauto.
      cbn [Nat.add]. apply decide_ext. rewrite elem_of_cons. tauto.
Qed.

(** Unmounting rejects every pending request, and leaves none. *)
Lemma unmount_rejects_all (requests : gmap string ContainerTypes.CallbackRequest) :
  (unmount requests).1 = ∅
  ∧ List.length (unmount requests).2 = size requests
  ∧ ∀ i entry, requests !! i = Some entry →
      Reject i entry Unmounted ∈ (unmount requests).2.
Proof.
  unfold unmount, Correlator.unmount. cbn [fst snd].
  split; [done|]. split.
  - by rewrite length_fmap, length_map_to_list.
  - intros i entry Hi. apply list_elem_of_fmap. exists (i, entry).
    split; [done|]. by apply elem_of_map_to_list.
Qed.

(** ** C1 *)

(** C1: a response removes the entry it names; a response naming a
    request that is unknown, already settled or rejected at unmount
    leaves the pending requests as they are and settles nothing, the
    same response received again included; so whatever responses
    arrive, no request is settled twice. *)
Theorem response_settles_once
    (requests : gmap string ContainerTypes.CallbackRequest)
    (m : CallbackResponse) (ms : list CallbackResponse) (i : string) :
  (receive requests m).1 !! requestId m = None
  ∧ receive (receive requests m).1 m = ((receive requests m).1, [])
  ∧ receive (unmount requests).1 m = (∅, [])
  ∧ (settlements_of Val i (receive_all requests ms).2 ≤ 1)%nat
  ∧ settlements_of Val i (receive_all (receive requests m).1 (m :: ms)).2
      = settlements_of Val i (receive_all (receive requests m).1 ms).2
  ∧ match requests !! requestId m with
    | None => receive requests m = (requests, [])
    | Some _ => (receive requests m).1 = delete (requestId m) requests
                ∧ List.length (receive requests m).2 = 1
    end.
Proof.
  split; [apply receive_removes|].
  split; [apply receive_unknown, receive_removes|].
  split; [by apply receive_unknown|].
  split; [rewrite receive_all_settles; case_decide; lia|].
  split.
  - unfold receive_all at 1. cbn [Correlator.receive_all]. fold receive_all. fold receive.
    rewrite (receive_unknown _ m) by apply receive_removes.
    by destruct (receive_all _ ms).
  - unfold receive, Correlator.receive. by destruct (requests !! requestId m).
Qed.

(** ** C5 *)

(** C5: the [result] of a response is a string that decodes to a value
    and an error; for a pending request, a present error rejects it
    with the error rebuilt from the message, an absent one resolves it
    with the value. *)
Theorem response_resolves_or_rejects
    (requests : gmap string ContainerTypes.CallbackRequest)
    (m : CallbackResponse) (entry : ContainerTypes.CallbackRequest) :
  TsDecl.field_type ContainerTypes.ComponentCallbackResponse "result"
    = Some TsDecl.TString
  ∧ TsDecl.field_type Messaging.ComponentCallbackResponse "result"
    = Some TsDecl.TString
  ∧ (requests !! requestId m = Some entry →
     (receive requests m).2 =
       [ match error (decode (result m)) with
         | Some message => Reject (requestId m) entry (Reconstructed message)
         | None => Resolve (requestId m) entry (value (decode (result m)))
         end ]).
Proof.
  split; [done|]. split; [done|].
  intros H. unfold receive, Correlator.receive. by rewrite H.
Qed.

End Correlate.

Lemma response_resolves_or_rejects_witness :
  let decode (s : string) : ResultPair string :=
    match s with
    | String "E" message => {| value := ""; error := Some message |}
    | _ => {| value := s; error := None |}
    end in
  let entry := {| ContainerTypes.promise := 0; ContainerTypes.rejecter := true;
                  ContainerTypes.resolver := true |} in
  let requests : gmap string ContainerTypes.CallbackRequest :=
    {[ "r-1" := entry ]} in
  let ok := {| targetId := "alice.near/widget/Feed##root";
               componentId := "bob.near/widget/Post##post-1";
               requestId := "r-1"; result := "ok" |} in
  let failed := {| targetId := "alice.near/widget/Feed##root";
                   componentId := "bob.near/widget/Post##post-1";
                   requestId := "r-1"; result := "Eboom" |} in
  (receive string decode requests ok).2 = [ Resolve "r-1" entry "ok" ]
  ∧ (receive string decode requests failed).2
      = [ Reject "r-1" entry (Reconstructed "boom") ].
Proof.
  intros decode entry requests ok failed. split.
  - apply (response_resolves_or_rejects string decode requests ok entry).
    reflexivity.
  - apply (response_resolves_or_rejects string decode requests failed entry).
    reflexivity.
Defined.

End CorrelatorFacts.

(* ===================================================================== *)
(** * DOM callbacks: from the application, handled where they arrive *)
(* ===================================================================== *)

Module RuntimeFacts.
Import Js TsDecl Runtime MessageFacts.

Section Handlers.

Variable outcome : nat → Value → string.
Variable unanswerable : string → string.

(** A container emits render messages and callback-responses only. *)
Lemma process_posts (c : Container) (m out : Message) :
  Post out ∈ (process outcome unanswerable c m).2 →
  tag out = "component.render" ∨ tag out = "component.callbackResponse".
Proof.
  destruct m as [cid|cid props'|cid method args|target method args request from|
                 target cid request result]; cbn [process snd].
  - by intros ?%elem_of_nil.
  - intros [[=]|Hin]%elem_of_cons.
    apply list_elem_of_singleton in Hin as [= ->]. by left.
  - destruct (domCallbacks c !! method); [|by intros ?%elem_of_nil].
    by intros [=]%list_elem_of_singleton.
  - destruct (componentCallbacks c !! method).
    + intros [[=]|Hin]%elem_of_cons.
      apply list_elem_of_singleton in Hin as [= ->]. by right.
    + intros [= ->]%list_elem_of_singleton. by right.
  - by intros [=]%list_elem_of_singleton.
Qed.

(** What the host passes on is a callback-invocation or a
    callback-response. *)
Lemma host_forwards (h : Host) (m fm : Message) (target : string) :
  Forward target fm ∈ host_process outcome unanswerable h m →
  tag fm = "component.callbackInvocation" ∨ tag fm = "component.callbackResponse".
Proof.
  destruct m as [cid|cid props'|cid method args|to method args request from|
                 to cid request result]; cbn [host_process].
  - by intros [=]%list_elem_of_singleton.
  - by intros ?%elem_of_nil.
  - by intros ?%elem_of_nil.
  - destruct (decide _).
    + intros [= -> ->]%list_elem_of_singleton. by left.
    + destruct (capabilities h !! to).
      * intros [[=]|Hin]%elem_of_cons.
        apply list_elem_of_singleton in Hin as [= -> ->]. by right.
      * intros [= -> ->]%list_elem_of_singleton. by right.
  - destruct (decide _); [|by intros ?%elem_of_nil].
    intros [= -> ->]%list_elem_of_singleton. by right.
Qed.

(** C7: a message tagged [component.domCallback] is, by the declarations
    of [common/src/types/messaging.ts], a [DomCallback]: a payload the
    application sends to a container, and none a container sends to the
    application.  The container that receives it invokes the handler
    registered under the message's [method] in its DOM namespace, with the
    message's [args], and nothing else: its state stays as it is, it emits
    no message, and the registry of component-level callbacks has no part
    in it, whatever it holds; that registry is the one a
    callback-invocation of the same method is looked up in.  No container
    emits a dom-callback on any message, and the host passes none on from
    a container. *)
Theorem dom_callback_stays_local (o : gmap string Value) (c : Container) :
  in_union o Messaging.MessagePayload →
  o !! "type" = Some (VStr Messaging.ComponentDomCallbackType) →
  carries o Messaging.DomCallback
  ∧ in_union o Messaging.ApplicationPayload
  ∧ ¬ in_union o Messaging.ContainerPayload
  ∧ (∃ componentId method args,
       o !! "method" = Some (VStr method) ∧ o !! "args" = Some args
       ∧ decode o = Some (DomCallback componentId method args)
       ∧ process outcome unanswerable c (DomCallback componentId method args)
         = (c, match domCallbacks c !! method with
               | Some handler => [ Invoke handler args ]
               | None => []
               end)
       ∧ (∀ registry,
            (process outcome unanswerable (with_componentCallbacks registry c)
               (DomCallback componentId method args)).2
            = (process outcome unanswerable c
                 (DomCallback componentId method args)).2)
       ∧ ∀ targetId requestId originator handler,
           Invoke handler args
             ∈ (process outcome unanswerable c
                  (CallbackInvocation targetId method args requestId originator)).2 →
           componentCallbacks c !! method = Some handler)
  ∧ (∀ c' m out, Post out ∈ (process outcome unanswerable c' m).2 →
                 tag out ≠ "component.domCallback")
  ∧ (∀ h m target passed,
       Forward target passed ∈ host_process outcome unanswerable h m →
       tag passed ≠ "component.domCallback").
Proof.
  intros Hin Htype.
  destruct (dom_callback_declared o Hin Htype) as (Hdom & Happ & Hnot).
  split; [done|]. split; [done|]. split; [done|]. split; [|split].
  - destruct (dom_callback_members o Hdom) as ([method Hm] & [repr Ha] & Hid).
    exists (get_string o "componentId"), method, (VObject repr).
    split; [done|]. split; [done|]. split; [|split; [done|split; [done|]]].
    + unfold decode, get_string. rewrite Htype, Hm, Ha. done.
    + intros targetId requestId originator handler. cbn [process snd].
      destruct (componentCallbacks c !! method) as [registered|].
      * intros [[= ->]|Hpost]%elem_of_cons; [done|].
        by apply list_elem_of_singleton in Hpost.
      * by intros [=]%list_elem_of_singleton.
  - intros c' m out Hout.
    destruct (process_posts c' m out Hout) as [-> | ->]; discriminate.
  - intros h m target passed Hpassed.
    destruct (host_forwards h m passed target Hpassed) as [-> | ->]; discriminate.
Qed.

End Handlers.

Lemma dom_callback_stays_local_witness :
  let o : gmap string Value :=
    <[ "args" := VObject "[{}]" ]>
      (<[ "method" := VStr "onClick" ]>
         (<[ "type" := VStr "component.domCallback" ]> ∅)) in
  let c := {| containerId := "alice.near/Feed##root"; props := VObject "{}";
              domCallbacks := {[ "onClick" := 1%nat ]};
              componentCallbacks := {[ "onClick" := 2%nat ]} |} in
  let outcome := λ (_ : nat) (_ : Value), "{}" in
  let unanswerable := λ _ : string, "{}" in
  decode o = Some (DomCallback None "onClick" (VObject "[{}]"))
  ∧ process outcome unanswerable c (DomCallback None "onClick" (VObject "[{}]"))
    = (c, [ Invoke 1%nat (VObject "[{}]") ])
  ∧ ¬ in_union o Messaging.ContainerPayload.
Proof.
  intros o c outcome unanswerable.
  assert (in_union o Messaging.MessagePayload) as Hin.
  { exists Messaging.DomCallback. split.
    - unfold Messaging.MessagePayload, Messaging.ApplicationPayload.
      cbn [app]. apply elem_of_cons. right. apply elem_of_cons. by left.
    - split; [by vm_compute|]. apply (bool_decide_unpack _); by vm_compute. }
  assert (o !! "type" = Some (VStr Messaging.ComponentDomCallbackType)) as Htype
    by (by vm_compute).
  destruct (dom_callback_stays_local outcome unanswerable o c Hin Htype)
    as (_ & _ & Hnot & _).
  split; [by vm_compute|]. split; [by vm_compute|]. exact Hnot.
Defined.

End RuntimeFacts.

(* ===================================================================== *)
(** * [useComponents]: what a run of events keeps *)
(* ===================================================================== *)

Module UseComponentsRuns.
Import Js UseComponents UseComponentsFacts.

(** A handler never writes to the compiler: only the effect does. *)
Lemma handle_posts_nothing (p : Params) (h : Hook) (ev : Event) :
  compiler_requests (handle p h ev).2 = [].
Proof.
  destruct ev as [data|k|k c|b|f]; cbn [handle]; [| |done|done|done].
  - destruct (handler h) as [captured|]; [|done].
    unfold onmessage. destruct (loadError data); [done|]. cbn [snd].
    unfold compiler_requests. rewrite omap_app.
    destruct (containerStyles data) as [s|]; [destruct (truthy_string s)|];
      by destruct (hookContainerSourceCompiled p).
  - unfold componentRendered. cbn [snd]. by destruct (hookComponentRendered p).
Qed.

Lemma elem_of_handle_outputs (p : Params) (h : Hook) (ev : Event) (a c : string) :
  PostMessage a c ∉ (handle p h ev).2.
Proof.
  intros Hin. pose proof (handle_posts_nothing p h ev) as Hnone.
  unfold compiler_requests in Hnone.
  assert (c ∈ omap (λ o, match o with PostMessage _ c => Some c | _ => None end)
                (handle p h ev).2) as Hc.
  { apply list_elem_of_omap. by exists (PostMessage a c). }
  rewrite Hnone in Hc. by apply elem_of_nil in Hc.
Qed.

Lemma elem_of_run_effect (p : Params) (st : State) (o : Output) :
  o ∈ run_effect p st →
  o = PostMessage "execute" (rootComponentPath p)
  ∧ compiler p = true ∧ rootComponentPath p ≠ "" ∧ isValidRootComponentPath st = true.
Proof.
  unfold run_effect, effect_guard.
  destruct (truthy_string (rootComponentPath p)) eqn:Hroot; cbn [andb];
    [|by intros ?%elem_of_nil].
  destruct (isValidRootComponentPath st); cbn [andb]; [|by intros ?%elem_of_nil].
  destruct (compiler p); [|by intros ?%elem_of_nil].
  intros ->%list_elem_of_singleton. repeat split. by intros Heq; rewrite Heq in Hroot.
Qed.

Lemma elem_of_step_outputs (p : Params) (h : Hook) (ev : Event) (o : Output) :
  o ∈ (step p h ev).2 →
  o ∈ (handle p h ev).2 ∨ o ∈ run_effect p (handle p h ev).1.
Proof.
  unfold step. destruct (handle p h ev) as [after outs]. unfold commit.
  destruct (decide _); cbn [fst snd]; rewrite elem_of_app; [|tauto].
  intros [?|[]%elem_of_nil]. by left.
Qed.

(** X1: whatever the events, everything the hook posts to the compiler is
    an [execute] request for the root component path, and it posts only
    when it was given a compiler and a non-empty root path. *)
Theorem posts_only_execute_root (p : Params) (h : Hook) (evs : list Event)
    (action target : string) :
  PostMessage action target ∈ (run p h evs).2 →
  action = "execute" ∧ target = rootComponentPath p
  ∧ compiler p = true ∧ rootComponentPath p ≠ "".
Proof.
  revert h. induction evs as [|ev evs IH]; intros h; cbn [run].
  - by intros ?%elem_of_nil.
  - destruct (step p h ev) as [h' outs] eqn:Hstep.
    specialize (IH h'). destruct (run p h' evs) as [h'' outs'].
    cbn [snd] in *. rewrite elem_of_app. intros [Hin|Hin]; [|by apply IH].
    replace outs with (step p h ev).2 in Hin by (by rewrite Hstep).
    apply elem_of_step_outputs in Hin as [Hin|Hin].
    + by apply elem_of_handle_outputs in Hin.
    + apply elem_of_run_effect in Hin as ([= -> ->] & ? & ? & ?). done.
Qed.

Lemma posts_only_execute_root_witness :
  let p := {| compiler := true; rootComponentPath := "alice.near/Feed";
              bosLoaderUrl := None; hookComponentRendered := false;
              hookContainerSourceCompiled := false |} in
  "execute" = "execute" ∧ "alice.near/Feed" = rootComponentPath p
  ∧ compiler p = true ∧ rootComponentPath p ≠ "".
Proof.
  intros p.
  apply (posts_only_execute_root p mounted [ PathChecked true ]).
  vm_compute. apply list_elem_of_here.
Defined.

(** Only a compiler response that carries an error writes [error], and
    it writes the message. *)
Lemma handle_error (p : Params) (h : Hook) (ev : Event) :
  error (handle p h ev).1 = error (current h)
  ∨ ∃ data message, ev = CompilerMessage data ∧ loadError data = Some message
                    ∧ error (handle p h ev).1 = Some message.
Proof.
  destruct ev as [data|k|k c|b|f]; cbn [handle]; try by left.
  destruct (handler h) as [captured|]; [|by left].
  unfold onmessage. destruct (loadError data) as [message|] eqn:Hload.
  - right. by exists data, message.
  - left. cbn [fst addComponent set_components error]. by destruct (_ && _).
Qed.

(** X2: the hook never clears its error: once a message is stored, every
    later state holds a message. *)
Theorem error_never_cleared (p : Params) (h : Hook) (evs : list Event)
    (message : string) :
  error (current h) = Some message →
  is_Some (error (current (run p h evs).1)).
Proof.
  revert h message. induction evs as [|ev evs IH]; intros h message Herr; cbn [run].
  - cbn [fst]. by rewrite Herr.
  - destruct (step p h ev) as [h' outs] eqn:Hstep.
    assert (is_Some (error (current h'))) as [message' Herr'].
    { replace h' with (step p h ev).1 by (by rewrite Hstep). rewrite step_current.
      destruct (handle_error p h ev) as [->|(? & m & _ & _ & ->)]; [by rewrite Herr|done]. }
    specialize (IH h' message' Herr'). by destruct (run p h' evs).
Qed.

Lemma error_never_cleared_witness :
  let p := {| compiler := true; rootComponentPath := "alice.near/Feed";
              bosLoaderUrl := None; hookComponentRendered := false;
              hookContainerSourceCompiled := false |} in
  let failure := {| componentId := "alice.near/Feed"; componentSource := "";
                    containerStyles := None; loadError := Some "compile failed";
                    importedModules := VUndefined |} in
  let h := (run p mounted [ PathChecked true; CompilerMessage failure ]).1 in
  is_Some (error (current (run p h [ ComponentRendered "alice.near/Feed";
                                     PathChecked false ]).1)).
Proof.
  intros p failure h.
  apply (error_never_cleared p h _ "compile failed"). reflexivity.
Defined.

Lemma handle_rootComponentSource (p : Params) (h : Hook) (ev : Event) :
  rootComponentSource (handle p h ev).1 = rootComponentSource (current h)
  ∨ rootComponentSource (handle p h ev).1 = Some (rootComponentPath p).
Proof.
  destruct ev as [data|k|k c|b|f]; cbn [handle]; try by left.
  destruct (handler h) as [captured|]; [|by left].
  unfold onmessage. destruct (loadError data); [by left|].
  cbn [fst addComponent set_components rootComponentSource].
  destruct (negb _); cbn [andb]; [|by left].
  destruct (String.eqb_spec (componentId data) (rootComponentPath p)) as [->|];
    [by right | by left].
Qed.

Import UseComponentsProps.

Lemma commit_props_fields (previous p : Params) (m : Mounted) (after : State) :
  let m' := (commit_props previous p m after).1 in
  current (hook m') = after ∧ props m' = p
  ∧ (installed m' = installed m ∨ installed m' = p).
Proof.
  unfold commit_props. destruct (decide _); cbn [fst hook current props installed].
  - split; [done|]. split; [done|]. by left.
  - split; [done|]. split; [done|]. destruct (effect_guard p after); [by right | by left].
Qed.

(** While the props stay the same and the handler was installed under
    them, an event does to the mounted hook what [step] does. *)
Lemma act_happens_step (m : Mounted) (ev : Event) :
  installed m = props m →
  hook (act m (Happens ev)).1 = (step (props m) (hook m) ev).1
  ∧ (act m (Happens ev)).2 = (step (props m) (hook m) ev).2
  ∧ props (act m (Happens ev)).1 = props m
  ∧ installed (act m (Happens ev)).1 = props m.
Proof.
  intros Hinstalled. unfold act, step. rewrite Hinstalled.
  assert ((match ev with
           | CompilerMessage _ => handle (props m) (hook m) ev
           | _ => handle (props m) (hook m) ev
           end) = handle (props m) (hook m) ev) as -> by (by destruct ev).
  destruct (handle (props m) (hook m) ev) as [after outs].
  unfold commit_props, commit. rewrite Hinstalled.
  destruct (decide _); cbn [fst snd hook props installed]; [done|].
  by destruct (effect_guard (props m) after).
Qed.

Lemma source_known_mono (paths paths' : list string) (m : Mounted) :
  paths ⊆ paths' → source_known paths m → source_known paths' m.
Proof.
  intros Hsub (Hp & Hi & Hs). split; [by apply Hsub|]. split; [by apply Hsub|].
  destruct Hs as [Hs|(path & Hin & Hs)]; [by left|].
  right. exists path. split; [by apply Hsub | done].
Qed.

Lemma act_source_known (paths : list string) (m : Mounted) (a : Action) :
  source_known paths m →
  source_known (paths ++ match a with
                         | Rerender p' => [ rootComponentPath p' ]
                         | Happens _ => []
                         end) (act m a).1.
Proof.
  intros (Hp & Hi & Hs). destruct a as [ev|p']; cbn [act].
  - rewrite app_nil_r.
    set (q := match ev with CompilerMessage _ => installed m | _ => props m end).
    assert (rootComponentPath q ∈ paths) as Hq by (unfold q; by destruct ev).
    assert ((match ev with
             | CompilerMessage _ => handle (installed m) (hook m) ev
             | _ => handle (props m) (hook m) ev
             end) = handle q (hook m) ev) as -> by (unfold q; by destruct ev).
    pose proof (handle_rootComponentSource q (hook m) ev) as Hsrc.
    destruct (handle q (hook m) ev) as [after outs]. cbn [fst] in Hsrc.
    pose proof (commit_props_fields (props m) (props m) m after) as (Hc & Hpr & Hin).
    destruct (commit_props (props m) (props m) m after) as [m' posted].
    cbn [fst] in *. split; [by rewrite Hpr|]. split.
    + by destruct Hin as [-> | ->].
    + rewrite Hc. destruct Hsrc as [-> | ->]; [done|].
      right. by exists (rootComponentPath q).
  - pose proof (commit_props_fields (props m) p' m (current (hook m)))
      as (Hc & Hpr & Hin).
    destruct (commit_props (props m) p' m (current (hook m))) as [m' posted].
    cbn [fst] in *.
    assert (rootComponentPath p' ∈ paths ++ [ rootComponentPath p' ]) as Hnew
      by (apply elem_of_app; right; apply list_elem_of_here).
    split; [by rewrite Hpr|]. split.
    + destruct Hin as [-> | ->]; [|done]. apply elem_of_app. by left.
    + rewrite Hc. destruct Hs as [Hs|(path & Hpath & Hs)]; [by left|].
      right. exists path. split; [|done]. apply elem_of_app. by left.
Qed.

Lemma run_actions_source_known (actions : list Action) (paths : list string)
    (m : Mounted) :
  source_known paths m →
  source_known
    (paths ++ omap (λ a, match a with
                         | Rerender p' => Some (rootComponentPath p')
                         | Happens _ => None
                         end) actions)
    (run_actions m actions).1.
Proof.
  revert paths m. induction actions as [|a actions IH]; intros paths m Hm.
  - cbn [omap list_omap run_actions fst]. by rewrite app_nil_r.
  - cbn [run_actions]. pose proof (act_source_known paths m a Hm) as Ha.
    destruct (act m a) as [m' outs]. cbn [fst] in Ha.
    specialize (IH _ m' Ha). destruct (run_actions m' actions) as [m'' outs'].
    cbn [fst] in *.
    destruct a as [ev|p']; cbn [omap list_omap].
    + by rewrite app_nil_r in IH.
    + by rewrite <- app_assoc in IH.
Qed.

(** X3: from the first render on, whatever happens and with whatever
    props the hook is rendered anew, [rootComponentSource] is either unset
    or one of the root component paths the hook has been rendered with:
    no other component id is ever stored there. *)
Theorem rootComponentSource_is_root (p : Params) (actions : list Action) :
  let st := current (hook (run_actions (first_render p) actions).1) in
  rootComponentSource st = None
  ∨ ∃ path, path ∈ root_paths p actions ∧ rootComponentSource st = Some path.
Proof.
  cbv zeta.
  assert (source_known [ rootComponentPath p ] (first_render p)) as Hfirst.
  { split; [apply list_elem_of_here|]. split; [apply list_elem_of_here|]. by left. }
  apply (run_actions_source_known actions) in Hfirst as (_ & _ & Hs). exact Hs.
Qed.

(** The stored source need not be the current root component path: once
    set it stays, also when the hook is rendered with another path. *)
Lemma rootComponentSource_outlives_path :
  let p := {| compiler := true; rootComponentPath := "alice.near/Feed";
              bosLoaderUrl := None; hookComponentRendered := false;
              hookContainerSourceCompiled := false |} in
  let p' := {| compiler := true; rootComponentPath := "alice.near/Profile";
               bosLoaderUrl := None; hookComponentRendered := false;
               hookContainerSourceCompiled := false |} in
  let ok := {| componentId := "alice.near/Feed";
               componentSource := "export default () => null;";
               containerStyles := None; loadError := None;
               importedModules := VObject "[]" |} in
  let m := (run_actions (first_render p)
              [ Happens (PathChecked true); Happens (CompilerMessage ok);
                Rerender p'; Happens (PathChecked true) ]).1 in
  rootComponentPath (props m) = "alice.near/Profile"
  ∧ rootComponentSource (current (hook m)) = Some "alice.near/Feed".
Proof. by vm_compute. Qed.

(** What a step posts to the compiler is decided by the effect's
    dependencies before and after the handler, and by the effect's guard. *)
Lemma step_requests (p : Params) (h : Hook) (ev : Event) :
  compiler_requests (step p h ev).2 =
    if decide (effect_deps p (current h) = effect_deps p (handle p h ev).1)
    then []
    else if effect_guard p (handle p h ev).1 then [ rootComponentPath p ] else [].
Proof.
  pose proof (handle_posts_nothing p h ev) as Hnone.
  unfold step. destruct (handle p h ev) as [after outs]. cbn [fst snd] in *.
  unfold commit. destruct (decide _); cbn [snd]; unfold compiler_requests in *;
    rewrite omap_app, Hnone; [done|].
  unfold run_effect. by destruct (effect_guard p after).
Qed.

Lemma step_handler (p : Params) (h : Hook) (ev : Event) :
  handler (step p h ev).1 =
    if decide (effect_deps p (current h) = effect_deps p (handle p h ev).1)
    then handler h
    else if effect_guard p (handle p h ev).1 then Some (handle p h ev).1
         else handler h.
Proof.
  unfold step. destruct (handle p h ev) as [after outs]. cbn [fst].
  unfold commit. by destruct (decide _).
Qed.

(** X4: at start-up the root component is requested twice. Once its
    path is found valid the effect posts the request; the first successful
    response stores [rootComponentSource], a dependency of the effect,
    which posts the request again; the second response changes no
    dependency, and nothing more is posted. *)
Theorem root_requested_twice (p : Params) (first second : ComponentCompilerResponse) :
  compiler p = true →
  rootComponentPath p ≠ "" →
  componentId first = rootComponentPath p → loadError first = None →
  componentId second = rootComponentPath p → loadError second = None →
  let validated := step p mounted (PathChecked true) in
  let compiled := step p validated.1 (CompilerMessage first) in
  let again := step p compiled.1 (CompilerMessage second) in
  compiler_requests validated.2 = [ rootComponentPath p ]
  ∧ compiler_requests compiled.2 = [ rootComponentPath p ]
  ∧ compiler_requests again.2 = []
  ∧ rootComponentSource (current again.1) = Some (rootComponentPath p).
Proof.
  intros Hcompiler Hroot Hid1 Herr1 Hid2 Herr2 validated compiled again.
  assert (truthy_string (rootComponentPath p) = true) as Htruthy
    by (by destruct (rootComponentPath p)).
  (* the path is found valid *)
  set (st1 := setIsValidRootComponentPath true initial).
  assert (current validated.1 = st1) as Hcur1 by apply step_current.
  assert (handler validated.1 = Some st1) as Hh1.
  { unfold validated. rewrite step_handler. cbn [handle fst].
    rewrite decide_False by (by intros [=]).
    unfold effect_guard. by rewrite Htruthy, Hcompiler. }
  (* the first response *)
  set (st2 := (handle p validated.1 (CompilerMessage first)).1).
  assert (rootComponentSource st2 = Some (rootComponentPath p)
          ∧ error st2 = None ∧ isValidRootComponentPath st2 = true) as (Hsrc2 & He2 & Hv2).
  { unfold st2. cbn [handle]. rewrite Hh1, Hcur1. unfold onmessage.
    rewrite Herr1, Hid1. cbn [fst]. by rewrite String.eqb_refl. }
  assert (current compiled.1 = st2) as Hcur2 by apply step_current.
  assert (effect_deps p (current validated.1) ≠ effect_deps p st2) as Hdeps2.
  { rewrite Hcur1. unfold effect_deps. rewrite Hsrc2. by intros [=]. }
  assert (effect_guard p st2 = true) as Hguard2.
  { unfold effect_guard. by rewrite Htruthy, Hv2, Hcompiler. }
  assert (handler compiled.1 = Some st2) as Hh2.
  { unfold compiled. rewrite step_handler. fold st2.
    by rewrite decide_False, Hguard2 by done. }
  (* the second response *)
  set (st3 := (handle p compiled.1 (CompilerMessage second)).1).
  assert (effect_deps p st3 = effect_deps p st2) as Hdeps3.
  { unfold st3. cbn [handle]. rewrite Hh2, Hcur2. unfold onmessage.
    rewrite Herr2, Hid2. cbn [fst]. unfold truthy_opt. rewrite Hsrc2, Htruthy.
    done. }
  split; [|split; [|split]].
  - unfold validated. rewrite step_requests. cbn [handle fst].
    rewrite decide_False by (by intros [=]).
    unfold effect_guard. by rewrite Htruthy, Hcompiler.
  - unfold compiled. rewrite step_requests. fold st2.
    by rewrite decide_False, Hguard2 by done.
  - unfold again. rewrite step_requests. fold st3.
    by rewrite decide_True by (by rewrite Hcur2, Hdeps3).
  - unfold again. rewrite step_current. fold st3.
    assert (rootComponentSource st3 = rootComponentSource st2) as ->; [|done].
    by injection Hdeps3.
Qed.

Lemma root_requested_twice_witness :
  let p := {| compiler := true; rootComponentPath := "alice.near/Feed";
              bosLoaderUrl := None; hookComponentRendered := false;
              hookContainerSourceCompiled := false |} in
  let ok := {| componentId := "alice.near/Feed";
               componentSource := "export default () => null;";
               containerStyles := None; loadError := None;
               importedModules := VObject "[]" |} in
  let validated := step p mounted (PathChecked true) in
  let compiled := step p validated.1 (CompilerMessage ok) in
  let again := step p compiled.1 (CompilerMessage ok) in
  compiler_requests validated.2 = [ "alice.near/Feed" ]
  ∧ compiler_requests compiled.2 = [ "alice.near/Feed" ]
  ∧ compiler_requests again.2 = []
  ∧ rootComponentSource (current again.1) = Some "alice.near/Feed".
Proof.
  intros p ok. apply (root_requested_twice p ok ok); done.
Defined.

Lemma count_other_id (k k' : string) (o : gmap string Value)
    (cs : gmap string (gmap string Value)) :
  k' ≠ k →
  get_prop (<[ k' := o ]> cs !! k) "renderCount" = get_prop (cs !! k) "renderCount".
Proof. intros Hne. by rewrite lookup_insert_ne. Qed.

(** X5: [hooks.componentRendered] for [k] leaves every other component
    as it is, and of the component [k] it changes [renderCount] only. *)
Theorem componentRendered_frame (p : Params) (k k' f : string) (st : State) :
  k' ≠ k → f ≠ "renderCount" →
  components (componentRendered p k st).1 !! k' = components st !! k'
  ∧ get_prop (components (componentRendered p k st).1 !! k) f
    = get_prop (components st !! k) f.
Proof.
  intros Hk Hf. unfold componentRendered, componentRendered_update.
  cbn [fst set_components components]. split.
  - by rewrite lookup_insert_ne.
  - rewrite lookup_insert_eq. unfold get_prop at 1.
    rewrite lookup_insert_ne by done.
    unfold get_prop, spread_opt. by destruct (components st !! k).
Qed.

Lemma componentRendered_frame_witness :
  let p := {| compiler := true; rootComponentPath := "alice.near/Feed";
              bosLoaderUrl := None; hookComponentRendered := false;
              hookContainerSourceCompiled := false |} in
  let st := addComponent "a" {[ "componentSource" := VStr "A" ]}
              (addComponent "b" {[ "componentSource" := VStr "B" ]} initial) in
  components (componentRendered p "a" st).1 !! "b" = components st !! "b"
  ∧ get_prop (components (componentRendered p "a" st).1 !! "a") "componentSource"
    = get_prop (components st !! "a") "componentSource".
Proof. intros p st. by apply (componentRendered_frame p "a" "b" "componentSource" st). Defined.

(** X6: a render notification for a component id that has no entry
    creates one, holding nothing but [renderCount: 0]. *)
Theorem componentRendered_unknown_id (p : Params) (k : string) (st : State) :
  components st !! k = None →
  components (componentRendered p k st).1 !! k = Some {[ "renderCount" := VNum 0 ]}.
Proof.
  intros Hk. unfold componentRendered, componentRendered_update.
  cbn [fst set_components components]. rewrite lookup_insert_eq, Hk.
  cbn [spread_opt default get_prop add_one or_else truthy]. by rewrite insert_empty.
Qed.

Lemma componentRendered_unknown_id_witness :
  let p := {| compiler := true; rootComponentPath := "alice.near/Feed";
              bosLoaderUrl := None; hookComponentRendered := false;
              hookContainerSourceCompiled := false |} in
  components (componentRendered p "ghost" initial).1 !! "ghost"
    = Some {[ "renderCount" := VNum 0 ]}.
Proof. intros p. by apply (componentRendered_unknown_id p "ghost" initial). Defined.

(** X7: [addComponent] merges: a property other than [renderCount] of the
    stored component is the one the added component brings, and the one
    stored before when the added component has none; other components
    are left as they are. *)
Theorem addComponent_merges (k k' f : string) (component : gmap string Value)
    (st : State) :
  k' ≠ k → f ≠ "renderCount" →
  components (addComponent k component st) !! k' = components st !! k'
  ∧ get_prop (components (addComponent k component st) !! k) f
    = match component !! f with
      | Some v => v
      | None => get_prop (components st !! k) f
      end.
Proof.
  intros Hk Hf. unfold addComponent, addComponent_update.
  cbn [set_components components]. split.
  - by rewrite lookup_insert_ne.
  - rewrite lookup_insert_eq. unfold get_prop at 1.
    rewrite lookup_insert_ne by done. unfold spread.
    rewrite lookup_union. destruct (component !! f) as [v|] eqn:Hv.
    + by destruct (spread_opt (components st !! k) !! f).
    + rewrite left_id_L by apply _. unfold get_prop, spread_opt.
      by destruct (components st !! k).
Qed.

Lemma addComponent_merges_witness :
  let st := addComponent "a" {[ "componentSource" := VStr "old" ]}
              (addComponent "b" {[ "componentSource" := VStr "B" ]} initial) in
  let component : gmap string Value := {[ "moduleImports" := VObject "[]" ]} in
  components (addComponent "a" component st) !! "b" = components st !! "b"
  ∧ get_prop (components (addComponent "a" component st) !! "a") "componentSource"
    = match component !! "componentSource" with
      | Some v => v
      | None => get_prop (components st !! "a") "componentSource"
      end.
Proof.
  intros st component.
  by apply (addComponent_merges "a" "b" "componentSource" component st).
Defined.

Import UseComponentsTrace.

Lemma renders_nonneg (k : string) (evs : list Event) : (0 ≤ renders k evs)%Z.
Proof.
  induction evs as [|ev evs IH]; [done|].
  destruct ev as [?|k'| | |]; cbn [renders]; try done.
  destruct (String.eqb k' k); lia.
Qed.

Lemma handle_count (p : Params) (h : Hook) (ev : Event) (k : string) (c : Z) :
  resets k ev = false →
  getComponentRenderCount k (current h) = VNum c →
  (- 2 ^ 53 ≤ c ∧ c + renders k [ ev ] ≤ 2 ^ 53)%Z →
  getComponentRenderCount k (handle p h ev).1 = VNum (c + renders k [ ev ]).
Proof.
  unfold getComponentRenderCount. intros Hreset Hc Hsafe.
  destruct ev as [data|k'|k' component|b|f]; cbn [handle renders resets] in *.
  - rewrite Z.add_0_r. destruct (handler h) as [captured|]; [|done].
    unfold onmessage. destruct (loadError data); [done|].
    apply String.eqb_neq in Hreset.
    cbn [fst].
    destruct (_ && _);
      unfold addComponent, set_components, setRootComponentSource, addComponent_update;
      cbn [components]; by rewrite count_other_id.
  - unfold componentRendered, componentRendered_update.
    cbn [fst set_components components].
    destruct (String.eqb_spec k' k) as [->|Hne].
    + rewrite read_after_insert, Hc, next_count.
      rewrite Z.add_0_r in *. apply f_equal, next_count_exact. lia.
    + rewrite count_other_id by done. rewrite Hc. f_equal. lia.
  - rewrite Z.add_0_r. apply String.eqb_neq in Hreset.
    cbn [fst]. unfold addComponent, set_components, addComponent_update.
    cbn [components]. by rewrite count_other_id.
  - by rewrite Z.add_0_r.
  - done.
Qed.

(** X8: over a run of events none of which stores the component [k]
    anew (no [addComponent] and no successful compiler response for [k],
    no call of the returned [setComponents]), the render count of [k]
    grows by the number of render notifications for [k], whatever happens
    to other components; this as long as the count stays between [-2^53]
    and [2^53], where doubles add exactly. *)
Theorem render_count_counts (p : Params) (evs : list Event) (h : Hook)
    (k : string) (c : Z) :
  getComponentRenderCount k (current h) = VNum c →
  forallb (λ ev, negb (resets k ev)) evs = true →
  (- 2 ^ 53 ≤ c)%Z →
  (c + renders k evs ≤ 2 ^ 53)%Z →
  getComponentRenderCount k (current (run p h evs).1) = VNum (c + renders k evs).
Proof.
  revert h c. induction evs as [|ev evs IH]; intros h c Hc Hevs Hlow Hhigh.
  - cbn [run fst renders]. by rewrite Z.add_0_r.
  - cbn [forallb] in Hevs. apply andb_prop in Hevs as [Hev%negb_true_iff Hevs].
    pose proof (renders_nonneg k evs) as Hrest.
    pose proof (renders_nonneg k [ ev ]) as Hone.
    assert (renders k (ev :: evs) = renders k [ ev ] + renders k evs)%Z as Hsplit
      by (destruct ev as [?|k'| | |]; cbn [renders]; lia).
    cbn [run]. destruct (step p h ev) as [h' outs] eqn:Hstep.
    specialize (IH h' (c + renders k [ ev ])%Z).
    destruct (run p h' evs) as [h'' outs']. cbn [fst] in *.
    rewrite IH; [| |done| |].
    + f_equal. lia.
    + replace h' with (step p h ev).1 by (by rewrite Hstep).
      rewrite step_current. apply handle_count; [done|done|lia].
    + lia.
    + lia.
Qed.

Lemma render_count_counts_witness :
  let p := {| compiler := true; rootComponentPath := "alice.near/Feed";
              bosLoaderUrl := None; hookComponentRendered := false;
              hookContainerSourceCompiled := false |} in
  let h := (run p mounted [ AddComponent "a" ∅ ]).1 in
  let evs := [ ComponentRendered "a"; AddComponent "b" ∅; ComponentRendered "b";
               ComponentRendered "a"; PathChecked true ] in
  getComponentRenderCount "a" (current (run p h evs).1) = VNum (1 + renders "a" evs).
Proof.
  intros p h evs. apply (render_count_counts p evs h "a" 1); [reflexivity|reflexivity| |].
  - vm_compute. discriminate.
  - vm_compute. discriminate.
Defined.

End UseComponentsRuns.

(* ===================================================================== *)
(** * [SocialDb.get]: the request and the outcome *)
(* ===================================================================== *)

Module SocialDbGetFacts.
Import Js SocialDb SocialDbGetShape.

(** X11: every key that goes into a request is a non-empty string that
    the caller supplied, as [key] or among [keys]. *)
Theorem normalizedKeys_supplied (p : SocialGetParams) (k : string) :
  k ∈ normalizedKeys p →
  k ≠ "" ∧ (key p = Some k ∨ ∃ ks, keys p = Some ks ∧ k ∈ ks).
Proof.
  unfold normalizedKeys. rewrite list_elem_of_In, filter_In, <- list_elem_of_In.
  intros [Hin Htruthy]. split; [by intros ->|].
  assert (k ∈ default [] (keys p) → ∃ ks, keys p = Some ks ∧ k ∈ ks) as Hkeys.
  { destruct (keys p) as [ks|]; [by exists ks | by intros ?%elem_of_nil]. }
  destruct (key p) as [k'|]; [|right; by apply Hkeys].
  destruct (truthy_string k'); [|right; by apply Hkeys].
  apply list_elem_of_singleton in Hin as ->. by left.
Qed.

Lemma normalizedKeys_supplied_witness :
  let p := {| blockId := None; key := None;
              keys := Some [ ""; "alice.near/profile/*"; "" ];
              finality := None; options := None |} in
  "alice.near/profile/*" ≠ ""
  ∧ (key p = Some "alice.near/profile/*"
     ∨ ∃ ks, keys p = Some ks ∧ "alice.near/profile/*" ∈ ks).
Proof.
  intros p. apply (normalizedKeys_supplied p). vm_compute. apply list_elem_of_here.
Defined.

Section Get.
Variable networkId : string.
Variable MAINNET_SOCIAL_CONTRACT_ID TESTNET_SOCIAL_CONTRACT_ID : string.
Variable encodeJsonRpcArgs : GetData → string.
Variable Response : Type.
Variable query : RpcRequest → option Response.

Let get := get networkId MAINNET_SOCIAL_CONTRACT_ID TESTNET_SOCIAL_CONTRACT_ID
             encodeJsonRpcArgs Response query.
Let contractId := contractId networkId MAINNET_SOCIAL_CONTRACT_ID
                    TESTNET_SOCIAL_CONTRACT_ID.
Let request_of := request_of networkId MAINNET_SOCIAL_CONTRACT_ID
                    TESTNET_SOCIAL_CONTRACT_ID encodeJsonRpcArgs.

Lemma get_unfold (p : SocialGetParams) :
  get p =
    if passes_checks p then
      ([ request_of p ],
       match query (request_of p) with
       | Some d => Resolved d
       | None => Rejected rpc_error
       end)
    else if Nat.eqb (List.length (normalizedKeys p)) 0 then ([], Rejected keys_error)
    else ([], Rejected finality_error).
Proof.
  unfold get, SocialDb.get, passes_checks, request_of, SocialDbGetShape.request_of,
    rpcFetch.
  destruct (Nat.eqb _ 0); cbn [negb andb]; [done|].
  destruct (truthy_block (blockId p)) eqn:Hb; cbn [negb andb].
  - fold contractId. by destruct (query _).
  - destruct (truthy_string _); cbn [negb]; [|done].
    fold contractId. cbn [truthy_block]. by destruct (query _).
Qed.

(** X9: [get] issues at most one RPC request, and none exactly when no
    non-empty key is left or when neither a block id nor a finality is
    given (the finality being passed as the empty string). *)
Theorem get_request_count (p : SocialGetParams) :
  (List.length (get p).1 ≤ 1)%nat
  ∧ ((get p).1 = [] ↔
       normalizedKeys p = []
       ∨ (truthy_block (blockId p) = false ∧ finality p = Some "")).
Proof.
  rewrite get_unfold. unfold passes_checks.
  destruct (normalizedKeys p) as [|k ks] eqn:Hkeys; cbn [List.length Nat.eqb negb andb].
  - split; [cbn; lia|]. split; [by left | done].
  - destruct (truthy_block (blockId p)); cbn [negb andb fst].
    + split; [cbn; lia|]. split; [done|]. by intros [|[]].
    + destruct (finality p) as [[|c f]|]; cbn [default truthy_string negb fst];
        (split; [cbn; lia|]); split; try done; try (by right);
        by intros [|[_ [=]]].
Qed.

(** X10: the request of a [get] is a [call_function] of the method [get]
    on the network's contract, its arguments are the normalized keys and
    the options, and it carries either the block id (when one is passed)
    or the finality (by default [optimistic]), never both. *)
Theorem get_request_shape (p : SocialGetParams) (r : RpcRequest) :
  r ∈ (get p).1 →
  account_id r = contractId
  ∧ method_name r = "get"
  ∧ request_type r = "call_function"
  ∧ args_base64 r =
      encodeJsonRpcArgs {| data_keys := normalizedKeys p; data_options := options p |}
  ∧ (if truthy_block (blockId p)
     then block_id r = blockId p ∧ request_finality r = None
     else block_id r = None
          ∧ request_finality r = Some (default "optimistic" (finality p))).
Proof.
  rewrite get_unfold. destruct (passes_checks p).
  - intros ->%list_elem_of_singleton. unfold request_of, SocialDbGetShape.request_of.
    cbn [account_id method_name request_type args_base64 block_id request_finality].
    repeat split. by destruct (truthy_block (blockId p)).
  - destruct (Nat.eqb _ 0); by intros ?%elem_of_nil.
Qed.

(** X12: the promise of [get] resolves with what the provider returns
    for the one request issued; it rejects with one of three messages: the
    two checks' (nothing having been requested) or the one for a failed
    RPC. *)
Theorem get_outcome (p : SocialGetParams) :
  match (get p).2 with
  | Resolved d => ∃ r, (get p).1 = [ r ] ∧ query r = Some d
  | Rejected message =>
      (message =
         "Must pass a valid `key` or `keys` parameter with non empty string(s)."
       ∧ (get p).1 = [] ∧ normalizedKeys p = [])
      ∨ (message = "Must pass either `blockId` or `finality`" ∧ (get p).1 = [])
      ∨ (message = "Failed to fetch data from RPC."
         ∧ ∃ r, (get p).1 = [ r ] ∧ query r = None)
  end.
Proof.
  rewrite get_unfold. destruct (passes_checks p); cbn [fst snd].
  - destruct (query (request_of p)) eqn:Hq; [by eexists|].
    right. right. split; [done|]. by eexists.
  - destruct (normalizedKeys p); cbn [List.length Nat.eqb fst snd];
      [by left | right; by left].
Qed.

End Get.

Lemma get_request_shape_witness :
  let query (r : RpcRequest) : option string := Some (args_base64 r) in
  let encode (d : GetData) : string := String.concat "," (data_keys d) in
  let p := {| blockId := Some (BlockHeight 42); key := Some "alice.near/profile/*";
              keys := None; finality := Some "final"; options := None |} in
  let r := {| account_id := "social.near"; args_base64 := "alice.near/profile/*";
              block_id := Some (BlockHeight 42); request_finality := None;
              method_name := "get"; request_type := "call_function" |} in
  account_id r = contractId "mainnet" "social.near" "v1.social08.testnet"
  ∧ method_name r = "get"
  ∧ request_type r = "call_function"
  ∧ args_base64 r =
      encode {| data_keys := normalizedKeys p; data_options := options p |}
  ∧ (if truthy_block (blockId p)
     then block_id r = blockId p ∧ request_finality r = None
     else block_id r = None
          ∧ request_finality r = Some (default "optimistic" (finality p))).
Proof.
  intros query encode p r.
  apply (get_request_shape "mainnet" "social.near" "v1.social08.testnet"
           encode string query p r).
  vm_compute. apply list_elem_of_here.
Defined.

End SocialDbGetFacts.

(* ===================================================================== *)
(** * [SandboxWebEngine]: failures and odd entries *)
(* ===================================================================== *)

Module SandboxWebEngineMore.
Import Js SandboxWebEngine SandboxWebEngineView SandboxWebEngineFacts.

(** The loop throws when it comes to a key that holds no object. *)
Lemma forEach_keys_throws (ks : list string) (store : gmap string Entry) (k : string) :
  k ∈ ks → store !! k = Some None → forEach_keys ks store = None.
Proof.
  revert store. induction ks as [|k0 ks IH]; intros store Hin Hk.
  - by apply elem_of_nil in Hin.
  - cbn [forEach_keys]. unfold transform_at.
    destruct (store !! k0) as [[entry|]|] eqn:Hk0; [|done|done].
    assert (k ≠ k0) as Hne by (intros ->; congruence).
    apply elem_of_cons in Hin as [?|Hin]; [done|].
    apply IH; [done|]. by rewrite lookup_insert_ne.
Qed.

(** X13: the transformation is all or nothing. One entry that is not an
    object makes the whole fetch count as failed: [localComponents] is the
    empty object and the status is [ERROR], whatever the other entries
    are. *)
Theorem fetch_fails_on_non_object (components : gmap string Entry) (k : string)
    (st : State) :
  components !! k = Some None →
  let st' := fetchLocalComponents (FetchJson (Some components)) st in
  localComponents st' = Some ∅ ∧ localFetchStatus st' = Some ERROR.
Proof.
  intros Hk. unfold fetchLocalComponents.
  rewrite (forEach_keys_throws _ _ k); [done| |done].
  apply elem_of_object_keys. by rewrite Hk.
Qed.

Lemma fetch_fails_on_non_object_witness :
  let components : gmap string Entry :=
    <[ "alice.near/Feed" := Some {[ "code" := VStr "export default 1;" ]} ]>
      {[ "alice.near/Broken" := None ]} in
  let st' := fetchLocalComponents (FetchJson (Some components)) initial in
  localComponents st' = Some ∅ ∧ localFetchStatus st' = Some ERROR.
Proof.
  intros components.
  apply (fetch_fails_on_non_object components "alice.near/Broken" initial).
  reflexivity.
Defined.



(** X15: with the fetch settled, the sandbox is rendered unless no
    loader url is configured (then nothing is fetched) or the fetched
    [components] is a falsy number, boolean or string, which is stored as
    it is.  A fetch that fails (the request or the parsing throws, or the
    parsed data has no components) still renders the sandbox, with the
    empty object for its local components, and the status is [ERROR]. *)
Theorem sandbox_rendered_after_mount (bosLoaderUrl : option string)
    (fetch : string → Fetched) :
  (rendered (after_mount bosLoaderUrl fetch) = None
   ↔ bosLoaderUrl = None ∨ bosLoaderUrl = Some ""
     ∨ ∃ url, bosLoaderUrl = Some url ∧ fetch url = FetchJsonScalar false)
  ∧ ∀ url, bosLoaderUrl = Some url → url ≠ "" →
      fetch url = FetchFailed ∨ fetch url = FetchJson None →
      rendered (after_mount bosLoaderUrl fetch) = Some ∅
      ∧ localFetchStatus (after_mount bosLoaderUrl fetch) = Some ERROR.
Proof.
  split.
  - unfold after_mount. destruct bosLoaderUrl as [[|c url]|]; cbn [truthy_string].
    + split; [by auto | done].
    + unfold fetchLocalComponents.
      destruct (fetch (String c url)) as [|[components|]|[|]] eqn:Hfetch.
      * split; [done|]. by intros [|[[=]|(u & [= <-] & Hu)]]; [|rewrite Hfetch in Hu].
      * split; [by destruct (forEach_keys _ _)|].
        by intros [|[[=]|(u & [= <-] & Hu)]]; [|rewrite Hfetch in Hu].
      * split; [done|]. by intros [|[[=]|(u & [= <-] & Hu)]]; [|rewrite Hfetch in Hu].
      * split; [done|]. by intros [|[[=]|(u & [= <-] & Hu)]]; [|rewrite Hfetch in Hu].
      * split; [|done]. intros _. right. right. by exists (String c url).
    + split; [by auto | done].
  - intros url -> Hurl Hfail. unfold after_mount.
    destruct url; [done|]. cbn [truthy_string].
    by destruct Hfail as [-> | ->].
Qed.

Lemma sandbox_rendered_after_mount_witness :
  rendered (after_mount (Some "http://127.0.0.1:3030") (λ _, FetchFailed)) = Some ∅
  ∧ localFetchStatus (after_mount (Some "http://127.0.0.1:3030") (λ _, FetchFailed))
    = Some ERROR.
Proof.
  apply (proj2 (sandbox_rendered_after_mount (Some "http://127.0.0.1:3030")
                  (λ _, FetchFailed)) "http://127.0.0.1:3030"); [done|done|by left].
Defined.

End SandboxWebEngineMore.

(* ===================================================================== *)
(** * Developer-tools monitor: what the rows and the groups show *)
(* ===================================================================== *)

Module ComponentMonitorViewFacts.
Import Js JsFacts ComponentMonitor ComponentMonitorFacts ComponentMonitorView.

(** The first segment of a split is a prefix of the string. *)
Lemma first_segment_prefix (sep s : string) :
  sep ≠ "" → ∃ rest, s = first_segment sep s +:+ rest.
Proof.
  intros Hsep. pose proof (join_split sep s Hsep) as Hjoin.
  unfold first_segment, join in *.
  pose proof (split_go_nonempty sep 0 s) as Hne. fold (split sep s) in Hne.
  destruct (split sep s) as [|x [|y xs]]; [done| |].
  - exists "". cbn [nth String.concat] in *. rewrite Hjoin.
    clear. induction s as [|c s IH]; [done|]. by rewrite append_cons, <- IH.
  - rewrite concat_cons in Hjoin by done. cbn [nth]. by eexists.
Qed.

(** With a one-character separator, that character is not in the first
    segment. *)
Lemma first_segment_free (a : ascii) (s pre post : string) :
  first_segment (String a "") s ≠ pre +:+ String a post.
Proof.
  unfold first_segment. revert pre.
  induction s as [|c s IH]; intros pre.
  - cbn. by destruct pre.
  - destruct (String.prefix (String a "") (String c s)) eqn:Hp.
    + destruct (prefix_inv _ _ Hp) as [rest ->].
      rewrite (split_at_separator a "" rest). cbn [nth]. by destruct pre.
    + rewrite split_no_separator by done.
      pose proof (split_go_nonempty (String a "") 0 s) as Hne.
      fold (split (String a "") s) in Hne.
      destruct (split (String a "") s) as [|seg segs] eqn:Hsplit; [done|].
      cbn [nth] in *. destruct pre as [|c' pre].
      * rewrite append_nil_l. intros [= -> _].
        cbn [String.prefix] in Hp. destruct (ascii_dec a a); [|done].
        by destruct s.
      * rewrite append_cons. intros [= _ Hseg]. by apply (IH pre).
Qed.

Lemma first_segment_whole (a : ascii) (s : string) :
  (∀ pre post, s ≠ pre +:+ String a post) → first_segment (String a "") s = s.
Proof.
  unfold first_segment. induction s as [|c s IH]; intros Hfree; [done|].
  destruct (String.prefix (String a "") (String c s)) eqn:Hp.
  - destruct (prefix_inv _ _ Hp) as [rest Hrest].
    by destruct (Hfree "" rest).
  - rewrite split_no_separator by done.
    pose proof (split_go_nonempty (String a "") 0 s) as Hne.
    fold (split (String a "") s) in Hne.
    destruct (split (String a "") s) as [|seg segs] eqn:Hsplit; [done|].
    cbn [nth] in *. f_equal. apply IH. intros pre post ->.
    by apply (Hfree (String c pre) post).
Qed.

Lemma length_zero_empty (s : string) : String.length s = 0 → s = "".
Proof. by destruct s. Qed.

Lemma append_nil_r (s : string) : s +:+ "" = s.
Proof. induction s as [|c s IH]; [done|]. by rewrite append_cons, IH. Qed.

Lemma append_append (a b c : string) : (a +:+ b) +:+ c = a +:+ b +:+ c.
Proof. induction a as [|x a IH]; [done|]. by rewrite !append_cons, IH. Qed.

(** Two ways of cutting one string: the longer head starts with the
    shorter one. *)
Lemma append_split (a b c d : string) :
  a +:+ b = c +:+ d → (String.length a ≤ String.length c)%nat →
  ∃ e, c = a +:+ e ∧ b = e +:+ d.
Proof.
  revert c. induction a as [|x a IH]; intros c Heq Hlen.
  - exists c. by rewrite !append_nil_l in *.
  - destruct c as [|y c]; [cbn [String.length] in Hlen; lia|].
    rewrite !append_cons in Heq. injection Heq as -> Heq.
    destruct (IH c Heq) as (e & -> & ->); [cbn [String.length] in Hlen; lia|].
    exists e. by rewrite append_cons.
Qed.

Lemma first_segment_cons (sep : string) (c : ascii) (s : string) :
  String.prefix sep (String c s) = false →
  first_segment sep (String c s) = String c (first_segment sep s).
Proof.
  intros Hp. unfold first_segment. rewrite split_no_separator by done.
  pose proof (split_go_nonempty sep 0 s) as Hne. fold (split sep s) in Hne.
  by destruct (split sep s).
Qed.

Lemma first_segment_at_separator (sep s : string) :
  sep ≠ "" → String.prefix sep s = true → first_segment sep s = "".
Proof.
  intros Hsep Hp. destruct (prefix_inv _ _ Hp) as [rest ->].
  destruct sep as [|a sep]; [done|]. unfold first_segment.
  by rewrite split_at_separator.
Qed.

(** [s.split(sep)[0]] is [s] up to the first [sep]. *)
Lemma first_segment_up_to (sep s : string) :
  sep ≠ "" → up_to_first sep s (first_segment sep s).
Proof.
  intros Hsep. induction s as [|c s IH].
  - left. split; [|done]. intros (pre & post & H).
    apply (f_equal String.length) in H. rewrite !length_append in H.
    destruct sep; [done|]. cbn [String.length] in H. lia.
  - destruct (String.prefix sep (String c s)) eqn:Hp.
    + rewrite first_segment_at_separator by done.
      destruct (prefix_inv _ _ Hp) as [rest Hrest]. right. split.
      * exists rest. by rewrite append_nil_l.
      * intros pre post H. rewrite append_nil_l in H.
        apply (f_equal String.length) in H. rewrite !length_append in H.
        apply length_zero_empty. lia.
    + rewrite first_segment_cons by done.
      remember (first_segment sep s) as shown eqn:Hshown. clear Hshown.
      destruct IH as [[Hfree ->]|[[rest Hrest] Hleft]].
      * left. split; [|done]. intros (pre & post & H).
        destruct pre as [|c' pre].
        -- rewrite append_nil_l in H. by rewrite H, prefix_append in Hp.
        -- rewrite append_cons in H. injection H as _ H.
           apply Hfree. by exists pre, post.
      * right. split.
        -- exists rest. by rewrite append_cons, <- Hrest.
        -- intros pre post H. destruct pre as [|c' pre].
           ++ exfalso. rewrite append_nil_l in H.
              assert (String c s = sep +:+ post +:+ rest) as Hs.
              { rewrite Hrest, <- append_cons, <- append_append, H.
                by rewrite append_append. }
              by rewrite Hs, prefix_append in Hp.
           ++ rewrite !append_cons in H. injection H as _ H. by apply (Hleft pre).
Qed.

(** There is one such text. *)
Lemma up_to_first_unique (sep s shown shown' : string) :
  up_to_first sep s shown → up_to_first sep s shown' → shown = shown'.
Proof.
  assert (∀ f g r1 r2,
            s = f +:+ sep +:+ r1 → s = g +:+ sep +:+ r2 →
            (∀ pre post, g +:+ sep = pre +:+ sep +:+ post → post = "") →
            (String.length f ≤ String.length g)%nat → f = g) as Hle.
  { intros f g r1 r2 H1 H2 Hleft Hlen.
    assert (f +:+ sep +:+ r1 = g +:+ sep +:+ r2) as Heq by congruence.
    destruct (append_split _ _ _ _ Heq Hlen) as (e & -> & Hrest).
    rewrite <- append_append in Hrest.
    destruct (append_split _ _ _ _ Hrest) as (t & Ht & _).
    { rewrite length_append. lia. }
    assert (t = "") as ->.
    { apply (Hleft f). by rewrite append_append, Ht. }
    rewrite append_nil_r in Ht.
    apply (f_equal String.length) in Ht. rewrite length_append in Ht.
    assert (e = "") as -> by (apply length_zero_empty; lia).
    by rewrite append_nil_r. }
  intros [[Hfree ->]|[[r1 H1] L1]] [[Hfree' ->]|[[r2 H2] L2]].
  - done.
  - destruct Hfree. by exists shown', r2.
  - destruct Hfree'. by exists shown, r1.
  - destruct (Nat.le_ge_cases (String.length shown) (String.length shown')).
    + by apply (Hle shown shown' r1 r2).
    + symmetry. by apply (Hle shown' shown r2 r1).
Qed.

(** X16: the summary of a callback invocation shows the request id up
    to its first dash and the method up to its first [::] (the whole of
    it when there is none), and passes the arguments and the originator on
    as they are; no other texts are the id and the method up to there. *)
Theorem invocation_summary (targetId requestId method originator : string)
    (args : Value) :
  ∃ shownId shownMethod,
    value <$> buildEventSummary
                (CallbackInvocationEvent targetId requestId method args originator)
      = Some (InvokeValue shownId shownMethod args originator)
    ∧ up_to_first "-" requestId shownId
    ∧ up_to_first "::" method shownMethod
    ∧ (∀ other, up_to_first "-" requestId other → other = shownId)
    ∧ (∀ other, up_to_first "::" method other → other = shownMethod).
Proof.
  exists (first_segment "-" requestId), (first_segment "::" method).
  assert (up_to_first "-" requestId (first_segment "-" requestId)) as Hid
    by (by apply first_segment_up_to).
  assert (up_to_first "::" method (first_segment "::" method)) as Hmethod
    by (by apply first_segment_up_to).
  split; [done|]. split; [done|]. split; [done|]. split.
  - intros other Hother. by apply (up_to_first_unique "-" requestId).
  - intros other Hother. by apply (up_to_first_unique "::" method).
Qed.

Lemma count_type_cons (t : string) (ev : ComponentEventData)
    (evs : list ComponentEventData) :
  count_type t (ev :: evs) =
    (if String.eqb (event_type ev) t then 1 else 0) + count_type t evs.
Proof.
  unfold count_type. cbn [List.filter]. by destruct (String.eqb _ _).
Qed.

Lemma count_type_rev (t : string) (evs : list ComponentEventData) :
  count_type t (rev evs) = count_type t evs.
Proof.
  unfold count_type. induction evs as [|ev evs IH]; [done|].
  cbn [rev]. rewrite List.filter_app, length_app, IH.
  cbn [List.filter]. destruct (String.eqb _ _); cbn [List.length]; lia.
Qed.

(** An event has a summary unless it is a DOM callback. *)
Lemma summaries_count (l : list ComponentEventData) :
  List.length
    (List.filter (λ row, match row with Some _ => true | None => false end)
       (buildEventSummary <$> l))
  = count_type "component.render" l + count_type "component.update" l
    + count_type "component.callbackInvocation" l
    + count_type "component.callbackResponse" l.
Proof.
  induction l as [|ev l IH]; [done|].
  rewrite !count_type_cons, fmap_cons.
  destruct ev;
    cbn [buildEventSummary event_type List.filter List.length
         String.eqb Ascii.eqb Bool.eqb];
    rewrite IH; lia.
Qed.

(** When every row can be rendered, each summary gives one. *)
Lemma rendered_rows_count (stringify : SummaryValue → option string)
    (l : list (option ComponentEvent)) (k : list (option EventRow)) :
  mapM (render_row stringify) l = Some k →
  List.length (omap (λ row : option EventRow, row) k)
  = List.length
      (List.filter (λ row, match row with Some _ => true | None => false end) l).
Proof.
  intros H%mapM_Some_1. induction H as [|x y l k Hxy _ IH]; [done|].
  destruct x as [event|]; cbn [render_row] in Hxy.
  - destruct (event_label event); [|discriminate].
    destruct (stringify (value event)); [|discriminate].
    cbn in Hxy. injection Hxy as <-. cbn. by rewrite IH.
  - injection Hxy as <-. cbn. exact IH.
Qed.

(** X17: the four event counters count every event once, except the DOM
    callbacks, which they leave out.  When the event list can be rendered,
    it shows as many rows as the four counters add up to; it cannot when
    the id string of an event is empty, for then reading the label off the
    summary throws. *)
Theorem counters_partition_events {Loaded Missing : Type}
    (stringify : SummaryValue → option string)
    (metrics : ComponentMetrics Loaded Missing) :
  let shown := displayMetrics metrics in
  componentRenders shown + updatesRequested shown
    + callbacksInvoked shown + callbacksReturned shown
    + count_type "component.domCallback" (events metrics)
    = List.length (events metrics)
  ∧ (∀ rows, shown_rows stringify (events metrics) = Some rows →
       List.length rows
       = componentRenders shown + updatesRequested shown
         + callbacksInvoked shown + callbacksReturned shown)
  ∧ (∀ ev, ev ∈ events metrics → event_id ev = Some "" →
       shown_rows stringify (events metrics) = None).
Proof.
  cbv zeta. unfold displayMetrics, shown_rows, rendered_rows, event_rows.
  cbn [componentRenders updatesRequested callbacksInvoked callbacksReturned].
  generalize (events metrics) as evs. clear metrics. intros evs.
  split; [|split].
  - induction evs as [|ev evs IH]; [done|].
    rewrite !count_type_cons. cbn [List.length]. rewrite <- IH.
    destruct ev; cbn [event_type String.eqb Ascii.eqb Bool.eqb]; lia.
  - intros rows Hrows.
    destruct (mapM (render_row stringify) (buildEventSummary <$> rev evs))
      as [k|] eqn:Hk; [|discriminate].
    injection Hrows as <-.
    rewrite (rendered_rows_count _ _ _ Hk), summaries_count.
    by rewrite !count_type_rev.
  - intros ev Hin Hid.
    assert (mapM (render_row stringify) (buildEventSummary <$> rev evs) = None)
      as ->; [|done].
    apply mapM_None_2, Exists_exists. exists (buildEventSummary ev). split.
    + apply list_elem_of_fmap. exists ev. split; [done|].
      apply list_elem_of_In, in_rev. rewrite rev_involutive.
      by apply list_elem_of_In.
    + destruct ev; cbn in Hid; try discriminate; injection Hid as ->; done.
Qed.

Lemma counters_partition_events_witness :
  let metrics : ComponentMetrics unit unit :=
    {| componentsLoaded := [ () ];
       events := [ UpdateEvent "alice.near/widget/Feed##root" (VObject "{}");
                   DomCallbackEvent "onClick" (VObject "[]");
                   RenderEvent "alice.near/widget/Feed##root" [ "type"; "props" ] 0 ];
       missingComponents := [] |} in
  let rows :=
    [ {| rowBadge := "bg-danger"; rowName := "render";
         rowLabel := "Feed(root)"; rowValue := "{}" |};
      {| rowBadge := "bg-warning"; rowName := "update";
         rowLabel := "Feed(root)"; rowValue := "{}" |} ] in
  List.length rows
  = componentRenders (displayMetrics metrics) + updatesRequested (displayMetrics metrics)
    + callbacksInvoked (displayMetrics metrics)
    + callbacksReturned (displayMetrics metrics).
Proof.
  intros metrics rows.
  apply (proj1 (proj2 (counters_partition_events (λ _, Some "{}") metrics)) rows).
  reflexivity.
Defined.

(** X18: a row can be labelled exactly when the id string of its event
    is not empty: for the empty string the summary has no component id, and
    reading the name off it fails. For an id made of a path and an instance
    id, the label is the third ['/']-segment of the path followed by the
    instance id in brackets. *)
Theorem row_label (event : ComponentEventData) (s : string) :
  event_id event = Some s →
  ((buildEventSummary event ≫= event_label) = None ↔ s = "")
  ∧ ∀ p i, hash_free p = true → hash_free i = true → i ≠ "" →
      s = p +:+ delimiter +:+ i →
      (buildEventSummary event ≫= event_label)
        = Some (default "" (split "/" p !! 2%nat) +:+ "(" +:+ i +:+ ")").
Proof.
  intros Hid.
  assert ((buildEventSummary event ≫= event_label)
          = event_label {| badgeClass := ""; name := "";
                           componentId := parseComponentId s;
                           value := UpdateValue VUndefined |}) as ->.
  { destruct event; cbn in Hid; try discriminate; by injection Hid as <-. }
  unfold event_label. cbn [componentId]. split.
  - rewrite parseComponentId_unfold. destruct s; cbn [truthy_string negb]; [done|].
    cbv zeta. split; [discriminate | discriminate].
  - intros p i Hp Hi Hne ->.
    rewrite parseComponentId_unfold, truthy_with_delimiter. cbn [negb]. cbv zeta.
    rewrite split_segment, split_last_segment by done.
    cbn [nth lookup list_lookup ComponentMonitor.name ComponentMonitor.id].
    by destruct i.
Qed.

Lemma row_label_witness :
  let event := UpdateEvent "alice.near/widget/Feed##root" (VObject "{}") in
  (buildEventSummary event ≫= event_label) = Some ("Feed" +:+ "(" +:+ "root" +:+ ")").
Proof.
  intros event.
  by apply (proj2 (row_label event "alice.near/widget/Feed##root" eq_refl)
              "alice.near/widget/Feed" "root").
Defined.

Section Grouping.
Variable ComponentInstance : Type.
Variable instanceId : ComponentInstance → option string.
Variable inherited : string → bool.

Let source_of := source_of ComponentInstance instanceId.
Let group_step := group_step ComponentInstance instanceId inherited.
Let groupedComponents := groupedComponents ComponentInstance instanceId inherited.
Let of_source := of_source ComponentInstance instanceId.

Lemma of_source_snoc (s : string) (l : list ComponentInstance) (c : ComponentInstance) :
  of_source s (l ++ [ c ]) =
    of_source s l ++ (if String.eqb (source_of c) s then [ c ] else []).
Proof.
  unfold of_source, ComponentMonitorView.of_source. rewrite List.filter_app.
  cbn [List.filter]. fold source_of. by destruct (String.eqb _ _).
Qed.

(** X19: when no component's source is a name inherited from
    [Object.prototype], grouping succeeds, and under each source that
    occurs it lists exactly the components of that source, in the order
    they came; no other key is present and no group is empty. *)
Theorem grouped_by_source (components : list ComponentInstance) :
  (∀ c, c ∈ components → inherited (source_of c) = false) →
  ∃ groups,
    groupedComponents components = Some groups
    ∧ ∀ s, groups !! s =
           match of_source s components with
           | [] => None
           | c :: cs => Some (c :: cs)
           end.
Proof.
  unfold groupedComponents, ComponentMonitorView.groupedComponents.
  induction components as [|c l IH] using rev_ind; intros Hok.
  - exists ∅. split; [done|]. intros s. by rewrite lookup_empty.
  - destruct IH as (groups & Hgroups & Hlook).
    { intros c' Hc'. apply Hok. apply elem_of_app. by left. }
    rewrite foldl_app. cbn [foldl]. rewrite Hgroups.
    unfold ComponentMonitorView.group_step. fold source_of.
    rewrite Hok by (apply elem_of_app; right; apply list_elem_of_here).
    eexists. split; [done|]. intros s. rewrite of_source_snoc.
    pose proof (Hlook (source_of c)) as Hsrc. pose proof (Hlook s) as Hs.
    destruct (String.eqb_spec (source_of c) s) as [<-|Hne].
    + rewrite lookup_insert_eq.
      destruct (groups !! source_of c) as [old|] eqn:Hold.
      * rewrite Hold. cbn [default].
        destruct (of_source (source_of c) l); [done|]. by injection Hsrc as ->.
      * rewrite lookup_insert_eq. cbn [default].
        by destruct (of_source (source_of c) l).
    + rewrite lookup_insert_ne by done. rewrite app_nil_r.
      destruct (groups !! source_of c); [done|]. by rewrite lookup_insert_ne.
Qed.

Lemma foldl_group_step_None (l : list ComponentInstance) :
  foldl group_step None l = None.
Proof. by induction l. Qed.

(** A component whose source reads as inherited ends the grouping. *)
Lemma groupedComponents_inherited (components : list ComponentInstance)
    (c : ComponentInstance) :
  c ∈ components → inherited (source_of c) = true →
  groupedComponents components = None.
Proof.
  intros (l1 & l2 & ->)%list_elem_of_split Hinh.
  unfold groupedComponents, ComponentMonitorView.groupedComponents.
  rewrite foldl_app. cbn [foldl].
  replace (ComponentMonitorView.group_step ComponentInstance instanceId inherited
             (foldl (ComponentMonitorView.group_step ComponentInstance instanceId
                       inherited) (Some ∅) l1) c)
    with (@None (gmap string (list ComponentInstance))).
  - apply foldl_group_step_None.
  - unfold ComponentMonitorView.group_step. fold source_of.
    destruct (foldl _ _ l1); [|done]. by rewrite Hinh.
Qed.

End Grouping.

Section GroupingByReads.
Variable ComponentInstance : Type.
Variable instanceId : ComponentInstance → option string.

Local Abbreviation source_of := (source_of ComponentInstance instanceId).
Local Abbreviation read := (read ComponentInstance).
Local Abbreviation push := (push ComponentInstance).
Local Abbreviation found_truthy := (found_truthy ComponentInstance).
Local Abbreviation group_step := (group_step ComponentInstance instanceId inherited_name).
Local Abbreviation group_step_reads := (group_step_reads ComponentInstance instanceId).
Local Abbreviation groupedComponents :=
  (groupedComponents ComponentInstance instanceId inherited_name).
Local Abbreviation groupedComponents_reads :=
  (groupedComponents_reads ComponentInstance instanceId).
Local Abbreviation own_names_free := (own_names_free ComponentInstance).

(** Under an inherited name that is no own property, the read finds a
    truthy value that has no [push]. *)
Lemma read_inherited (own : gmap string (list ComponentInstance)) (key : string)
    (c : ComponentInstance) :
  own !! key = None → inherited_name key = true →
  (read own key = FoundPrototype ∨ read own key = FoundFunction key)
  ∧ found_truthy (read own key) = true
  ∧ push (read own key) c = None.
Proof.
  intros Hown Hkey. unfold ComponentMonitorView.read, inherited_name in *.
  rewrite Hown. destruct (String.eqb key "__proto__"); [by auto|].
  cbn [orb] in Hkey. rewrite Hkey. by auto.
Qed.

Lemma read_not_inherited (own : gmap string (list ComponentInstance)) (key : string) :
  inherited_name key = false →
  read own key = match own !! key with
                 | Some items => FoundArray items
                 | None => FoundNothing
                 end.
Proof.
  intros Hkey. unfold ComponentMonitorView.read, inherited_name in *.
  destruct (own !! key); [done|].
  apply orb_false_iff in Hkey as [-> ->]. done.
Qed.

(** On an accumulator without inherited names among its own, the
    reducer read by read does what [group_step] does. *)
Lemma group_step_reads_agrees (own : gmap string (list ComponentInstance))
    (c : ComponentInstance) :
  own_names_free own →
  group_step_reads (Some own) c = group_step (Some own) c.
Proof.
  intros Hfree. unfold ComponentMonitorView.group_step_reads,
    ComponentMonitorView.group_step.
  destruct (inherited_name (source_of c)) eqn:Hinh.
  - destruct (read_inherited own (source_of c) c (Hfree _ Hinh) Hinh)
      as (_ & Htruthy & Hpush). by rewrite Htruthy, Hpush.
  - rewrite read_not_inherited by done.
    destruct (own !! source_of c) as [items|] eqn:Hown.
    + cbn [ComponentMonitorView.found_truthy].
      rewrite read_not_inherited by done. rewrite Hown. done.
    + cbn [ComponentMonitorView.found_truthy].
      rewrite read_not_inherited by done. by rewrite lookup_insert_eq.
Qed.

Lemma group_step_free (own own' : gmap string (list ComponentInstance))
    (c : ComponentInstance) :
  own_names_free own → group_step (Some own) c = Some own' → own_names_free own'.
Proof.
  intros Hfree. unfold ComponentMonitorView.group_step.
  destruct (inherited_name (source_of c)) eqn:Hinh; [done|].
  intros [= <-] key Hkey.
  assert (source_of c ≠ key) as Hne by (intros <-; congruence).
  rewrite lookup_insert_ne by done.
  destruct (own !! source_of c); [by apply Hfree|].
  rewrite lookup_insert_ne by done. by apply Hfree.
Qed.

(** Read by read, the grouping is the grouping of [groupedComponents]
    with the names an object literal inherits. *)
Lemma groupedComponents_reads_agrees (components : list ComponentInstance) :
  groupedComponents_reads components = groupedComponents components
  ∧ ∀ own, groupedComponents components = Some own → own_names_free own.
Proof.
  unfold ComponentMonitorView.groupedComponents_reads,
    ComponentMonitorView.groupedComponents.
  induction components as [|c l [IH IHfree]] using rev_ind.
  - split; [done|]. intros own [= <-] key _. apply lookup_empty.
  - rewrite !foldl_app. cbn [foldl]. rewrite IH.
    destruct (foldl group_step (Some ∅) l) as [own|].
    + rewrite group_step_reads_agrees by (by apply IHfree). split; [done|].
      intros own' Hown'. by apply (group_step_free own own' c); [apply IHfree|].
    + done.
Qed.

(** X20: a component whose source is a name that an object literal
    inherits ([constructor], [toString], [__proto__], ...) makes the
    grouping throw.  The read under that name finds no own property but a
    function of [Object.prototype], or [Object.prototype] itself; that is
    truthy, so no array is stored, and it has no [push]. *)
Theorem grouping_throws_on_inherited (components : list ComponentInstance)
    (c : ComponentInstance) :
  c ∈ components → inherited_name (source_of c) = true →
  groupedComponents_reads components = None
  ∧ ∀ before own,
      groupedComponents_reads before = Some own →
      (read own (source_of c) = FoundPrototype
       ∨ read own (source_of c) = FoundFunction (source_of c))
      ∧ found_truthy (read own (source_of c)) = true
      ∧ push (read own (source_of c)) c = None
      ∧ group_step_reads (Some own) c = None.
Proof.
  intros Hin Hinh. split.
  - rewrite (proj1 (groupedComponents_reads_agrees components)).
    by apply (groupedComponents_inherited ComponentInstance instanceId
                inherited_name components c).
  - intros before own Hbefore.
    destruct (groupedComponents_reads_agrees before) as [Hagree Hfree].
    rewrite Hagree in Hbefore. specialize (Hfree own Hbefore).
    destruct (read_inherited own (source_of c) c (Hfree _ Hinh) Hinh)
      as (Hfound & Htruthy & Hpush).
    split; [done|]. split; [done|]. split; [done|].
    unfold ComponentMonitorView.group_step_reads.
    by rewrite Htruthy, Hpush.
Qed.

End GroupingByReads.

Lemma grouped_by_source_witness :
  let inherited (s : string) := String.eqb s "constructor" in
  let components := [ Some "alice.near/widget/Feed##root";
                      Some "bob.near/widget/Post##1##alice.near/widget/Feed##root";
                      Some "alice.near/widget/Feed##2"; None ] in
  ∃ groups,
    groupedComponents (option string) (λ c, c) inherited components = Some groups
    ∧ ∀ s, groups !! s =
           match of_source (option string) (λ c, c) s components with
           | [] => None
           | c :: cs => Some (c :: cs)
           end.
Proof.
  intros inherited components.
  apply (grouped_by_source (option string) (λ c, c) inherited components).
  intros c Hc. repeat (apply elem_of_cons in Hc as [->|Hc]; [reflexivity|]).
  by apply elem_of_nil in Hc.
Defined.

Lemma grouping_throws_on_inherited_witness :
  groupedComponents_reads (option string) (λ c, c)
    [ Some "alice.near/widget/Feed##root"; Some "constructor##1" ] = None.
Proof.
  apply (grouping_throws_on_inherited (option string) (λ c, c) _
           (Some "constructor##1")); [|reflexivity].
  apply list_elem_of_further, list_elem_of_here.
Defined.

End ComponentMonitorViewFacts.

(* ===================================================================== *)
(** * Wire messages: the [type] tag tells the members apart *)
(* ===================================================================== *)

Module MessageUnionFacts.
Import Js TsDecl MessageFacts.

Ltac tag_in H := eapply carries_literal in H; [|vm_compute; tauto].

Ltac same_tag Hi Hj :=
  tag_in Hi; tag_in Hj; rewrite Hi in Hj; discriminate.

(** X21: in both packages the message payloads form a discriminated
    union: a message has the shape of at most one member, the one its
    literal [type] names, and that literal is one of the five event
    types. *)
Theorem type_tag_discriminates (o : gmap string Value) (i j : Interface) :
  (i ∈ ContainerTypes.MessagePayload ∧ j ∈ ContainerTypes.MessagePayload)
  ∨ (i ∈ Messaging.MessagePayload ∧ j ∈ Messaging.MessagePayload) →
  carries o i → carries o j →
  i = j ∧ ∃ tag, o !! "type" = Some (VStr tag) ∧ tag ∈ event_type_literals.
Proof.
  intros Hunion Hi Hj.
  assert (∃ tag, o !! "type" = Some (VStr tag) ∧ tag ∈ event_type_literals) as Htag.
  { destruct Hunion as [[Hin _]|[Hin _]];
      unfold ContainerTypes.MessagePayload, Messaging.MessagePayload,
        Messaging.ApplicationPayload, Messaging.ContainerPayload in Hin;
      cbn [app] in Hin;
      repeat (apply elem_of_cons in Hin as [->|Hin];
              [tag_in Hi; eexists; split; [exact Hi|]; vm_compute;
               repeat (first [apply list_elem_of_here | apply list_elem_of_further])|]);
      by apply elem_of_nil in Hin. }
  split; [|done]. clear Htag.
  destruct Hunion as [[Hin1 Hin2]|[Hin1 Hin2]];
    unfold ContainerTypes.MessagePayload, Messaging.MessagePayload,
      Messaging.ApplicationPayload, Messaging.ContainerPayload in Hin1, Hin2;
    cbn [app] in Hin1, Hin2;
    repeat (apply elem_of_cons in Hin1 as [->|Hin1];
            [repeat (apply elem_of_cons in Hin2 as [->|Hin2];
                     [first [reflexivity | same_tag Hi Hj]|]);
             by apply elem_of_nil in Hin2|]);
    by apply elem_of_nil in Hin1.
Qed.

Lemma type_tag_discriminates_witness :
  let o : gmap string Value :=
    <[ "props" := VObject "{}" ]>
      (<[ "componentId" := VStr "alice.near/widget/Feed##root" ]>
         (<[ "type" := VStr "component.update" ]> ∅)) in
  Messaging.ComponentUpdate = Messaging.ComponentUpdate
  ∧ ∃ tag, o !! "type" = Some (VStr tag) ∧ tag ∈ event_type_literals.
Proof.
  intros o.
  assert (carries o Messaging.ComponentUpdate) as Hc.
  { split; [by vm_compute|]. apply (bool_decide_unpack _); by vm_compute. }
  apply (type_tag_discriminates o Messaging.ComponentUpdate
           Messaging.ComponentUpdate); [|done|done].
  right. split.
  - apply list_elem_of_here.
  - apply list_elem_of_here.
Defined.

End MessageUnionFacts.

(* ===================================================================== *)
(** * [parseComponentId]: recursion and what it reads *)
(* ===================================================================== *)

Module ComponentMonitorMore.
Import Js JsFacts ComponentMonitor ComponentMonitorFacts.

(** X22: the recursion of [parseComponentId] ends on every input. The
    string handed to the recursive call, the joined ancestors, is strictly
    shorter than a non-empty input, and the function satisfies the
    equation of its source text. *)
Theorem parse_recursion_ends (componentId : string) :
  (componentId ≠ "" →
   String.length (join delimiter (drop 3 (split delimiter componentId)))
     < String.length componentId)%nat
  ∧ parseComponentId componentId =
      if negb (truthy_string componentId) then None
      else
        let segments := split delimiter componentId in
        let path := nth 0 segments "" in
        let pathSegments := split "/" path in
        Some {| author := nth 0 pathSegments "";
                name := pathSegments !! 2%nat;
                path := path;
                id := segments !! 1%nat;
                parent := parseComponentId (join delimiter (drop 3 segments)) |}.
Proof.
  split; [|apply parseComponentId_unfold].
  intros Hne.
  pose proof (length_join_drop delimiter (split delimiter componentId)
                delimiter_nonempty) as Hlt.
  rewrite join_split in Hlt by apply delimiter_nonempty. by apply Hlt.
Qed.

(** X23: whatever the input, the author and the name of a parsed id are
    the first and the third ['/']-segment of its path, and the path is the
    text of the input before its first delimiter. *)
Theorem parsed_author_from_path (s : string) (v : ComponentId) :
  parseComponentId s = Some v →
  author v = nth 0 (split "/" (path v)) ""
  ∧ name v = split "/" (path v) !! 2%nat
  ∧ path v = nth 0 (split delimiter s) ""
  ∧ ∃ rest, s = path v +:+ rest.
Proof.
  intros Hparse. destruct (parse_author_from_path s v Hparse) as [Ha Hn].
  split; [done|]. split; [done|].
  rewrite parseComponentId_unfold in Hparse.
  destruct (negb (truthy_string s)); [done|]. cbv zeta in Hparse.
  injection Hparse as <-. cbn [path]. split; [done|].
  pose proof (join_split delimiter s delimiter_nonempty) as Hjoin. unfold join in Hjoin.
  pose proof (split_go_nonempty delimiter 0 s) as Hne.
  fold (split delimiter s) in Hne.
  destruct (split delimiter s) as [|x [|y xs]]; [done| |]; cbn [nth].
  - exists "". cbn [String.concat] in Hjoin. rewrite Hjoin.
    clear. induction s as [|c s IH]; [done|]. by rewrite append_cons, <- IH.
  - rewrite concat_cons in Hjoin by done. by eexists.
Qed.

Lemma parsed_author_from_path_witness :
  let v := {| author := "alice.near"; name := Some "Feed";
              path := "alice.near/widget/Feed"; id := Some "root";
              parent := None |} in
  author v = nth 0 (split "/" (path v)) ""
  ∧ name v = split "/" (path v) !! 2%nat
  ∧ path v = nth 0 (split delimiter "alice.near/widget/Feed##root") ""
  ∧ ∃ rest, "alice.near/widget/Feed##root" = path v +:+ rest.
Proof.
  intros v. by apply (parsed_author_from_path "alice.near/widget/Feed##root" v).
Defined.

(** X24: the third segment of an id string has no influence on what is
    parsed: the instance's path and id come from the first two segments
    and the parent from the fourth segment on. *)
Theorem third_segment_ignored (p i x y rest : string) :
  hash_free p = true → hash_free i = true →
  hash_free x = true → hash_free y = true →
  parseComponentId
    (p +:+ delimiter +:+ i +:+ delimiter +:+ x +:+ delimiter +:+ rest)
  = parseComponentId
      (p +:+ delimiter +:+ i +:+ delimiter +:+ y +:+ delimiter +:+ rest)
  ∧ ∃ v, parseComponentId
           (p +:+ delimiter +:+ i +:+ delimiter +:+ x +:+ delimiter +:+ rest) = Some v
         ∧ path v = p ∧ id v = Some i ∧ parent v = parseComponentId rest.
Proof.
  intros Hp Hi Hx Hy. rewrite !parse_skips_third_segment by done.
  split; [done|]. by eexists.
Qed.

Lemma third_segment_ignored_witness :
  parseComponentId
    ("bob.near/widget/Post" +:+ delimiter +:+ "post-1" +:+ delimiter
       +:+ "alice.near/widget/Feed" +:+ delimiter +:+ "root")
  = parseComponentId
      ("bob.near/widget/Post" +:+ delimiter +:+ "post-1" +:+ delimiter
         +:+ "anything" +:+ delimiter +:+ "root")
  ∧ ∃ v, parseComponentId
           ("bob.near/widget/Post" +:+ delimiter +:+ "post-1" +:+ delimiter
              +:+ "alice.near/widget/Feed" +:+ delimiter +:+ "root") = Some v
         ∧ path v = "bob.near/widget/Post" ∧ id v = Some "post-1"
         ∧ parent v = parseComponentId "root".
Proof. by apply third_segment_ignored. Defined.

End ComponentMonitorMore.

(* ===================================================================== *)
(** * Sandbox [Preview]: which files become components *)
(* ===================================================================== *)

Module PreviewFacts.
Import Js JsFacts Preview.

Lemma append_assoc (s t u : string) : (s +:+ t) +:+ u = s +:+ (t +:+ u).
Proof.
  induction s as [|c s IH]; [done|]. by rewrite !append_cons, IH.
Qed.

Lemma concat_snoc (sep x : string) (l : list string) :
  l ≠ [] → String.concat sep (l ++ [ x ]) = String.concat sep l +:+ sep +:+ x.
Proof.
  induction l as [|y l IH]; intros Hne; [done|].
  destruct l as [|z l].
  - done.
  - change ((y :: z :: l) ++ [ x ]) with (y :: ((z :: l) ++ [ x ])).
    rewrite concat_cons by done. rewrite IH by done.
    rewrite (concat_cons sep y (z :: l)) by done.
    by rewrite !append_assoc.
Qed.

Lemma last_snoc_eq (l : list string) (x d : string) : List.last (l ++ [ x ]) d = x.
Proof. induction l as [|y [|z l] IH]; done. Qed.

(** A string without the separator character is its own single segment. *)
Lemma split_free (a : ascii) (x : string) :
  (∀ pre post, x ≠ pre +:+ String a post) → split (String a "") x = [ x ].
Proof.
  induction x as [|c x IH]; intros Hfree; [done|].
  destruct (String.prefix (String a "") (String c x)) eqn:Hp.
  - destruct (prefix_inv _ _ Hp) as [rest Hrest]. by destruct (Hfree "" rest).
  - rewrite split_no_separator by done. rewrite IH; [done|].
    intros pre post ->. by apply (Hfree (String c pre) post).
Qed.

(** The segments after a separator are those of the text after it. *)
Lemma split_after (a : ascii) (pre x : string) :
  ∃ init, init ≠ []
          ∧ split (String a "") (pre +:+ String a x) = init ++ split (String a "") x.
Proof.
  induction pre as [|c pre (init & Hne & IH)].
  - exists [ "" ]. split; [done|]. rewrite append_nil_l.
    apply (split_at_separator a "" x).
  - rewrite append_cons.
    destruct (String.prefix (String a "") (String c (pre +:+ String a x))) eqn:Hp.
    + destruct (prefix_inv _ _ Hp) as [rest Hrest].
      injection Hrest as -> Hrest. rewrite append_nil_l in Hrest.
      exists ("" :: init). split; [done|].
      change (String a (pre +:+ String a x))
        with (String a "" +:+ (pre +:+ String a x)).
      by rewrite split_at_separator, IH.
    + rewrite split_no_separator by done. rewrite IH.
      destruct init as [|seg init]; [done|]. by exists (String c seg :: init).
Qed.

Lemma fileType_suffix (pre x : string) :
  (∀ p q, x ≠ p +:+ "." +:+ q) → fileType (pre +:+ "." +:+ x) = x.
Proof.
  intros Hfree. unfold fileType.
  change (pre +:+ "." +:+ x) with (pre +:+ String "." x).
  destruct (split_after "." pre x) as (init & Hne & ->).
  rewrite (split_free "." x) by (intros p q; exact (Hfree p q)).
  apply last_snoc_eq.
Qed.

Lemma fileType_inv (s : string) :
  s = fileType s ∨ ∃ pre, s = pre +:+ "." +:+ fileType s.
Proof.
  unfold fileType.
  pose proof (join_split "." s ltac:(done)) as Hjoin. unfold join in Hjoin.
  pose proof (split_go_nonempty "." 0 s) as Hne. fold (split "." s) in Hne.
  destruct (split "." s) as [|x l] using rev_ind; [done|]. clear IHl.
  rewrite last_snoc_eq. destruct l as [|y l].
  - left. by rewrite <- Hjoin.
  - right. rewrite concat_snoc in Hjoin by done. by eexists.
Qed.

(** X25: a file counts as a component file exactly when its path ends in
    [.jsx] or [.tsx], or is the bare word [jsx] or [tsx]. *)
Theorem component_file_iff_extension (filePath : string) :
  is_component_file filePath = true ↔
    filePath = "jsx" ∨ filePath = "tsx"
    ∨ (∃ pre, filePath = pre +:+ ".jsx") ∨ (∃ pre, filePath = pre +:+ ".tsx").
Proof.
  unfold is_component_file. cbn [existsb]. rewrite !orb_true_iff, !String.eqb_eq.
  split.
  - intros [Hx|[Hx|Hx]]; [| |discriminate];
      destruct (fileType_inv filePath) as [Heq|[pre Heq]];
      rewrite Hx in Heq; eauto 6.
  - assert (∀ p q, "jsx" ≠ p +:+ "." +:+ q) as Hjsx.
    { intros [|? [|? [|? [|? ?]]]] q; done. }
    assert (∀ p q, "tsx" ≠ p +:+ "." +:+ q) as Htsx.
    { intros [|? [|? [|? [|? ?]]]] q; done. }
    intros [->|[->|[[pre ->]|[pre ->]]]].
    + by left.
    + right. by left.
    + left. by apply (fileType_suffix pre "jsx").
    + right. left. by apply (fileType_suffix pre "tsx").
Qed.

Section Preview.
Variable ACCOUNT_ID : string.
Variable convertFilePathToComponentName : string → string.

Let component_path := component_path ACCOUNT_ID convertFilePathToComponentName.
Let add_file := add_file ACCOUNT_ID convertFilePathToComponentName.
Let editorComponents := editorComponents ACCOUNT_ID convertFilePathToComponentName.

(** X26: every local component of the preview comes from a file of the
    editor that is present and is a component file: its key is the
    component path of that file and its source is the file's. *)
Theorem editor_component_from_file (entries : list (string * option SandboxFile))
    (path src : string) :
  editorComponents entries !! path = Some src →
  ∃ filePath file,
    (filePath, Some file) ∈ entries
    ∧ is_component_file filePath = true
    ∧ path = component_path filePath
    ∧ src = source file.
Proof.
  unfold editorComponents, Preview.editorComponents.
  induction entries as [|[filePath file] entries IH] using rev_ind.
  - cbn [foldl]. by rewrite lookup_empty.
  - rewrite foldl_app. cbn [foldl]. unfold Preview.add_file at 1. cbn [fst snd].
    fold component_path.
    assert (foldl (Preview.add_file ACCOUNT_ID convertFilePathToComponentName) ∅ entries
              !! path = Some src →
            ∃ filePath0 file0,
              (filePath0, Some file0) ∈ entries ++ [ (filePath, file) ]
              ∧ is_component_file filePath0 = true
              ∧ path = component_path filePath0 ∧ src = source file0) as Hold.
    { intros (f0 & file0 & Hin & ?)%IH. exists f0, file0.
      split; [|done]. apply elem_of_app. by left. }
    destruct file as [file|]; [|done].
    destruct (is_component_file filePath) eqn:Hok; [|done].
    destruct (decide (component_path filePath = path)) as [<-|Hne].
    + rewrite lookup_insert_eq. intros [= <-]. exists filePath, file.
      split; [|done]. apply elem_of_app. right. apply list_elem_of_here.
    + by rewrite lookup_insert_ne.
Qed.

Lemma later_files_keep (after : list (string * option SandboxFile))
    (acc : gmap string string) (path src : string) :
  acc !! path = Some src →
  (∀ filePath' file', (filePath', Some file') ∈ after →
     is_component_file filePath' = true → component_path filePath' ≠ path) →
  foldl (Preview.add_file ACCOUNT_ID convertFilePathToComponentName) acc after
    !! path = Some src.
Proof.
  revert acc. induction after as [|[filePath' file'] after IH]; intros acc Hacc Hlater.
  - done.
  - cbn [foldl]. apply IH.
    + unfold Preview.add_file. cbn [fst snd]. destruct file' as [file'|]; [|done].
      destruct (is_component_file filePath') eqn:Hok'; [|done].
      rewrite lookup_insert_ne; [done|]. fold component_path.
      apply (Hlater filePath' file'); [apply list_elem_of_here | done].
    + intros f0 file0 Hin. apply (Hlater f0 file0). by apply list_elem_of_further.
Qed.

(** X27: when two files give the same component path, the one that comes
    later in the editor's files wins: a present component file is found
    under its component path with its own source, unless a later present
    component file has the same component path. *)
Theorem editor_component_last_wins
    (before after : list (string * option SandboxFile))
    (filePath : string) (file : SandboxFile) :
  is_component_file filePath = true →
  (∀ filePath' file', (filePath', Some file') ∈ after →
     is_component_file filePath' = true →
     component_path filePath' ≠ component_path filePath) →
  editorComponents (before ++ (filePath, Some file) :: after)
    !! component_path filePath = Some (source file).
Proof.
  intros Hok Hlater. unfold editorComponents, Preview.editorComponents.
  rewrite foldl_app. cbn [foldl]. apply later_files_keep; [|done].
  unfold Preview.add_file. cbn [fst snd]. rewrite Hok. apply lookup_insert_eq.
Qed.

End Preview.

Lemma editor_component_from_file_witness :
  let convert (filePath : string) := nth 0 (split "." filePath) "" in
  let entries := [ ("Feed.tsx", Some {| source := "export default Feed;" |});
                   ("notes.md", Some {| source := "# notes" |});
                   ("Gone.jsx", None) ] in
  ∃ filePath file,
    (filePath, Some file) ∈ entries
    ∧ is_component_file filePath = true
    ∧ "bwe-web.near/Feed" = component_path "bwe-web.near" convert filePath
    ∧ "export default Feed;" = source file.
Proof.
  intros convert entries.
  apply (editor_component_from_file "bwe-web.near" convert entries). reflexivity.
Defined.

Lemma editor_component_last_wins_witness :
  let convert (filePath : string) := nth 0 (split "." filePath) "" in
  editorComponents "bwe-web.near" convert
    ([ ("Feed.jsx", Some {| source := "old" |}) ]
       ++ ("Feed.tsx", Some {| source := "new" |})
       :: [ ("Post.tsx", Some {| source := "post" |}) ])
    !! component_path "bwe-web.near" convert "Feed.tsx" = Some "new".
Proof.
  intros convert.
  apply (editor_component_last_wins "bwe-web.near" convert
           [ ("Feed.jsx", Some {| source := "old" |}) ]
           [ ("Post.tsx", Some {| source := "post" |}) ]
           "Feed.tsx" {| source := "new" |}); [reflexivity|].
  intros filePath' file' Hin _.
  apply list_elem_of_singleton in Hin. injection Hin as -> _. by vm_compute.
Defined.

End PreviewFacts.

(* ===================================================================== *)
(** * [SocialDb.set]: signing in, the transaction, the outcome *)
(* ===================================================================== *)

Module SocialDbSetFacts.
Import Js SocialDb SocialDbSet.

Section SetCall.
Variable networkId : string.
Variable walletSelector : option WalletSelector.
Variable MAINNET_SOCIAL_CONTRACT_ID TESTNET_SOCIAL_CONTRACT_ID : string.
Variable STORAGE_COST_PER_BYTE INITIAL_ACCOUNT_STORAGE_BALANCE : Z.
Variable MIN_STORAGE_BALANCE WRITE_PERMISSION_STORAGE_BALANCE : Z.
Variable EXTRA_STORAGE_BALANCE ONE_TGAS : Z.
Variable bigMax : Z → Z → Z.
Variable convertToStringLeaves : Json → Json.
Variable encodeJsonRpcArgs : RpcData → string.
Variable estimateRequiredBytesForStorage : Obj → Obj → Z.
Variable extractKeys : Obj → list string.
Variable removeDuplicateData : Obj → Obj → Obj.
Variable FinalExecutionStatusBasic_Failure : string.
Variable query_storage : RpcRequest → option (option AccountStorage).
Variable query_permission : RpcRequest → option bool.
Variable query_get : RpcRequest → option Obj.
Variable signAndSendTransaction : TransactionRequest → SignResult.

Let set :=
  set networkId walletSelector MAINNET_SOCIAL_CONTRACT_ID TESTNET_SOCIAL_CONTRACT_ID
    STORAGE_COST_PER_BYTE INITIAL_ACCOUNT_STORAGE_BALANCE MIN_STORAGE_BALANCE
    WRITE_PERMISSION_STORAGE_BALANCE EXTRA_STORAGE_BALANCE ONE_TGAS bigMax
    convertToStringLeaves encodeJsonRpcArgs estimateRequiredBytesForStorage
    extractKeys removeDuplicateData FinalExecutionStatusBasic_Failure
    query_storage query_permission query_get signAndSendTransaction.
Let write :=
  write networkId MAINNET_SOCIAL_CONTRACT_ID TESTNET_SOCIAL_CONTRACT_ID
    STORAGE_COST_PER_BYTE INITIAL_ACCOUNT_STORAGE_BALANCE MIN_STORAGE_BALANCE
    WRITE_PERMISSION_STORAGE_BALANCE EXTRA_STORAGE_BALANCE ONE_TGAS bigMax
    convertToStringLeaves encodeJsonRpcArgs estimateRequiredBytesForStorage
    extractKeys removeDuplicateData FinalExecutionStatusBasic_Failure
    query_get signAndSendTransaction.
Let send := send FinalExecutionStatusBasic_Failure signAndSendTransaction.
Let failed := failed FinalExecutionStatusBasic_Failure.
Let contractId :=
  SocialDbSet.contractId networkId MAINNET_SOCIAL_CONTRACT_ID TESTNET_SOCIAL_CONTRACT_ID.
Let accountState := accountState walletSelector.
Let fetchStorageAndPermissions :=
  fetchStorageAndPermissions networkId MAINNET_SOCIAL_CONTRACT_ID
    TESTNET_SOCIAL_CONTRACT_ID encodeJsonRpcArgs query_storage query_permission.
Let get_keys :=
  get_keys networkId MAINNET_SOCIAL_CONTRACT_ID TESTNET_SOCIAL_CONTRACT_ID
    encodeJsonRpcArgs query_get.
Let deposit_for :=
  deposit_for STORAGE_COST_PER_BYTE INITIAL_ACCOUNT_STORAGE_BALANCE
    MIN_STORAGE_BALANCE WRITE_PERMISSION_STORAGE_BALANCE EXTRA_STORAGE_BALANCE
    bigMax.

(** What [set] writes and what it compares it with: the data under the
    account id, whole under [FORCE]; under [DIFF] the stored data is
    fetched, and what it already holds is left out. *)
Let written (account : AccountState) (p : SocialSetParams)
    (currentData dataToWrite : Obj) : Prop :=
  let wrapped : Obj := [ (accountId account, convertToStringLeaves (data p)) ] in
  match default DIFF (strategy p) with
  | FORCE => currentData = [] ∧ dataToWrite = wrapped
  | DIFF =>
      (get_keys (extractKeys wrapped)).2 = Resolved currentData
      ∧ dataToWrite = removeDuplicateData wrapped currentData
  end.

(** Signed in: the selector's state names a wallet and has a first
    account with a non-empty public key, and the wallet can be had. *)
Let signed_in : Prop :=
  ∃ selector state account others key,
    walletSelector = Some selector ∧ getState selector = Some state
    ∧ accounts state = account :: others
    ∧ UseComponents.truthy_opt (selectedWalletId state) = true
    ∧ walletResolves selector = true
    ∧ publicKey account = Some key ∧ key ≠ "".

(** X28: without a signed-in wallet [set] does nothing: it issues no RPC
    request and sends no transaction, and its promise rejects, with the
    configuration message when there is no wallet selector and with the
    sign-in message otherwise. *)
Theorem set_requires_sign_in (p : SocialSetParams) :
  ¬ signed_in →
  requests (set p) = [] ∧ transactions (set p) = []
  ∧ settled (set p) =
      Rejected
        (match walletSelector with
         | None =>
             "Social SDK must be configured with `walletSelector` instance to support setting data."
         | Some _ => "User needs to be signed in with wallet before setting data."
         end).
Proof.
  intros Hout. unfold set, SocialDbSet.set, wallet, SocialDbSet.accountState,
    walletSelectorState.
  destruct walletSelector as [selector|] eqn:Hsel; [|done].
  destruct (getState selector) as [state|] eqn:Hstate; [|done].
  destruct (accounts state) as [|account others] eqn:Hacc; [done|].
  cbn [List.length Nat.ltb Nat.leb andb head].
  destruct (UseComponents.truthy_opt (selectedWalletId state)) eqn:Hid; [|done].
  destruct (walletResolves selector) eqn:Hw; [|done].
  destruct (publicKey account) as [key|] eqn:Hkey; [|done].
  destruct (truthy_string key) eqn:Htruthy; [|done].
  destruct Hout. exists selector, state, account, others, key.
  repeat split; try done. by intros ->.
Qed.

Lemma send_outcome (request : TransactionRequest) :
  match send request with
  | Resolved None => False
  | Resolved (Some response) =>
      signAndSendTransaction request = SignReturns (Some response)
      ∧ failed response = false
  | Rejected message =>
      message = "Transaction cancelled by user." →
      signAndSendTransaction request
        = SignThrows "Invalid message. Only transactions can be signed"
      ∨ signAndSendTransaction request = SignThrows "Transaction cancelled by user."
  end.
Proof.
  unfold send, SocialDbSet.send.
  destruct (signAndSendTransaction request) as [message|[response|]].
  - destruct (String.eqb_spec message
                "Invalid message. Only transactions can be signed") as [->|Hne].
    + by left.
    + intros ->. by right.
  - unfold failed.
    destruct (SocialDbSet.failed FinalExecutionStatusBasic_Failure response) eqn:Hf;
      [by intros [=] | done].
  - by intros [=].
Qed.

(** What [write] sends: nothing, or one transaction with the [set]
    call last and the deposit on the first action. *)
Lemma write_transactions (account : AccountState) (key : string)
    (perms : StorageAndPermissions) (p : SocialSetParams) :
  let ran := write account key perms p in
  (List.length (requests ran) ≤ 1)%nat
  ∧ ((transactions ran = [] ∧ ∀ r, settled ran ≠ Resolved (Some r))
     ∨ (∃ currentData dataToWrite,
          let amount :=
            deposit_for perms
              (estimateRequiredBytesForStorage dataToWrite currentData) in
          dataToWrite ≠ []
          ∧ written account p currentData dataToWrite
          ∧ transactions ran =
              [ {| receiverId := contractId;
                   actions :=
                     build_actions ONE_TGAS account key perms dataToWrite amount |} ]
          ∧ settled ran =
              send {| receiverId := contractId;
                      actions :=
                        build_actions ONE_TGAS account key perms dataToWrite amount |})).
Proof.
  cbv zeta. unfold write, SocialDbSet.write, written.
  destruct (default DIFF (strategy p)).
  - unfold get_keys, SocialDbSet.get_keys. rewrite SocialDbGetFacts.get_unfold.
    destruct (SocialDbGetShape.passes_checks _).
    + destruct (query_get _) as [currentData|].
      * destruct (removeDuplicateData _ currentData) as [|kv rest] eqn:Hdata.
        -- cbn [requests transactions settled List.length]. split; [lia|].
           left. by split.
        -- cbn [requests transactions settled List.length]. split; [lia|]. right.
           exists currentData, (kv :: rest). by repeat split.
      * cbn [requests transactions settled List.length]. split; [lia|].
        left. by split.
    + destruct (Nat.eqb _ 0); cbn [requests transactions settled List.length];
        (split; [lia|]); left; by split.
  - cbn [requests transactions settled List.length]. split; [lia|]. right.
    eexists [], [ _ ]. by repeat split.
Qed.

(** What [set] does once signed in: the two storage and permission
    requests, then [write]. *)
Lemma set_signed_in (p : SocialSetParams) :
  (transactions (set p) = []
   ∧ (List.length (requests (set p)) ≤ 2)%nat
   ∧ ∃ message, settled (set p) = Rejected message
                ∧ message ≠ "Transaction cancelled by user.")
  ∨ ∃ account key perms,
      accountState = Some account ∧ publicKey account = Some key
      ∧ (fetchStorageAndPermissions account key).2 = Resolved perms
      ∧ List.length (requests (set p))
        = 2 + List.length (requests (write account key perms p))
      ∧ transactions (set p) = transactions (write account key perms p)
      ∧ settled (set p) = settled (write account key perms p).
Proof.
  unfold set, SocialDbSet.set, wallet, accountState, SocialDbSet.accountState,
    walletSelectorState, fetchStorageAndPermissions.
  destruct walletSelector as [selector|];
    [|left; split; [done|]; split; [cbn; lia|]; by eexists].
  destruct (getState selector) as [state|];
    [|left; split; [done|]; split; [cbn; lia|]; by eexists].
  destruct (_ && _);
    [|left; split; [done|]; split; [cbn; lia|]; by eexists].
  destruct (walletResolves selector);
    [|left; split; [done|]; split; [cbn; lia|]; by eexists].
  destruct (head (accounts state)) as [account|];
    [|left; split; [done|]; split; [cbn; lia|]; by eexists].
  destruct (publicKey account) as [key|] eqn:Hkey;
    [|left; split; [done|]; split; [cbn; lia|]; by eexists].
  destruct (truthy_string key);
    [|left; split; [done|]; split; [cbn; lia|]; by eexists].
  unfold SocialDbSet.fetchStorageAndPermissions.
  destruct (query_storage _) as [accountStorage|] eqn:Hstorage;
    [|left; split; [done|]; split; [cbn; lia|]; by eexists].
  destruct (query_permission _) as [hasWrite|] eqn:Hpermission;
    [|left; split; [done|]; split; [cbn; lia|]; by eexists].
  right. eexists account, key, _. fold write.
  cbn [requests transactions settled snd]. rewrite length_app, Hstorage, Hpermission.
  split; [done|]. split; [done|]. split; [reflexivity|]. by repeat split.
Qed.

Lemma write_settled (account : AccountState) (key : string)
    (perms : StorageAndPermissions) (p : SocialSetParams) :
  transactions (write account key perms p) = [] →
  settled (write account key perms p) = Resolved None
  ∨ ∃ message, settled (write account key perms p) = Rejected message
               ∧ message ≠ "Transaction cancelled by user.".
Proof.
  unfold write, SocialDbSet.write.
  destruct (default DIFF (strategy p)); [|done].
  unfold SocialDbSet.get_keys. rewrite SocialDbGetFacts.get_unfold.
  destruct (SocialDbGetShape.passes_checks _).
  - destruct (query_get _) as [currentData|]; [|right; by eexists].
    destruct (removeDuplicateData _ currentData); [by left | done].
  - destruct (Nat.eqb _ 0); right; by eexists.
Qed.

(** X29: [set] sends at most one transaction.  It goes to the network's
    social contract and writes data that is not empty: under [FORCE] the
    data under the account id, under [DIFF] what of it the stored data does
    not hold already.  With the write permission granted, its one action is
    the [set] call; without, a [grant_write_permission] call for the
    account's key comes first.  The first action carries the deposit, which
    is the one computed from the fetched storage and permissions and from
    the bytes the data is estimated to need; the [set] call after a grant
    has the deposit [0]; each action has 100 TGas. *)
Theorem set_transaction_shape (p : SocialSetParams) (tx : TransactionRequest) :
  tx ∈ transactions (set p) →
  transactions (set p) = [ tx ]
  ∧ receiverId tx = contractId
  ∧ ∃ account key perms currentData dataToWrite,
      let amount :=
        deposit_for perms (estimateRequiredBytesForStorage dataToWrite currentData) in
      accountState = Some account ∧ publicKey account = Some key
      ∧ (fetchStorageAndPermissions account key).2 = Resolved perms
      ∧ dataToWrite ≠ []
      ∧ match default DIFF (strategy p) with
        | FORCE =>
            currentData = []
            ∧ dataToWrite = [ (accountId account, convertToStringLeaves (data p)) ]
        | DIFF =>
            (get_keys
               (extractKeys [ (accountId account, convertToStringLeaves (data p)) ])).2
              = Resolved currentData
            ∧ dataToWrite =
                removeDuplicateData
                  [ (accountId account, convertToStringLeaves (data p)) ] currentData
        end
      ∧ actions tx =
          if hasWritePermission perms
          then [ {| methodName := "set"; args := SetArgs dataToWrite;
                    gas := pretty (ONE_TGAS * 100)%Z; deposit := pretty amount |} ]
          else [ {| methodName := "grant_write_permission";
                    args := GrantArgs key [ accountId account ];
                    gas := pretty (ONE_TGAS * 100)%Z; deposit := pretty amount |};
                 {| methodName := "set"; args := SetArgs dataToWrite;
                    gas := pretty (ONE_TGAS * 100)%Z; deposit := "0" |} ].
Proof.
  intros Hin.
  destruct (set_signed_in p)
    as [[Hnone _]|(account & key & perms & Ha & Hk & Hperms & _ & Htx & _)].
  { rewrite Hnone in Hin. by apply elem_of_nil in Hin. }
  rewrite Htx in *.
  destruct (write_transactions account key perms p)
    as [_ [[Hnone _]|(currentData & dataToWrite & Hne & Hwritten & Hsent & _)]].
  { rewrite Hnone in Hin. by apply elem_of_nil in Hin. }
  rewrite Hsent in *. apply list_elem_of_singleton in Hin as ->.
  split; [done|]. split; [done|].
  exists account, key, perms, currentData, dataToWrite. cbv zeta.
  split; [done|]. split; [done|]. split; [done|]. split; [done|].
  split; [exact Hwritten|].
  cbn [actions]. unfold build_actions.
  by destruct (hasWritePermission perms).
Qed.

(** X30: a call of [set] issues at most three RPC requests and sends at
    most one transaction. It resolves with null only when nothing was
    sent; it resolves with an outcome only when the wallet returned that
    outcome for the transaction sent and the outcome is no failure; and it
    rejects as cancelled by the user only when the wallet threw on the
    transaction sent. *)
Theorem set_outcome (p : SocialSetParams) :
  (List.length (requests (set p)) ≤ 3)%nat
  ∧ (List.length (transactions (set p)) ≤ 1)%nat
  ∧ match settled (set p) with
    | Resolved None => transactions (set p) = []
    | Resolved (Some response) =>
        ∃ tx, transactions (set p) = [ tx ]
              ∧ signAndSendTransaction tx = SignReturns (Some response)
              ∧ failed response = false
    | Rejected message =>
        message = "Transaction cancelled by user." →
        ∃ tx, transactions (set p) = [ tx ]
              ∧ (signAndSendTransaction tx
                   = SignThrows "Invalid message. Only transactions can be signed"
                 ∨ signAndSendTransaction tx
                   = SignThrows "Transaction cancelled by user.")
    end.
Proof.
  destruct (set_signed_in p)
    as [(Hnone & Hlen & message & -> & Hmsg)
       |(account & key & perms & _ & _ & _ & Hlen & -> & ->)].
  { rewrite Hnone. split; [lia|]. split; [cbn; lia|]. done. }
  rewrite Hlen. clear Hlen.
  pose proof (write_settled account key perms p) as Hsettled.
  destruct (write_transactions account key perms p)
    as [Hreq [[Hnone Hnot]|(currentData & dataToWrite & Hne & _ & Hsent & Hsend)]].
  - rewrite Hnone in *. split; [lia|]. split; [cbn; lia|].
    destruct (Hsettled eq_refl) as [-> |(message & -> & Hmsg)]; done.
  - rewrite Hsent, Hsend. split; [lia|]. split; [cbn; lia|].
    pose proof (send_outcome
                  {| receiverId := contractId;
                     actions :=
                       build_actions ONE_TGAS account key perms dataToWrite
                         (deposit_for perms
                            (estimateRequiredBytesForStorage dataToWrite
                               currentData)) |}) as Hout.
    destruct (send _) as [[response|]|message]; [|done|].
    + by eexists.
    + intros Hm. eexists. split; [done|]. by apply Hout.
Qed.

End SetCall.

Lemma set_requires_sign_in_witness :
  let selector := {| getState := Some {| accounts := []; selectedWalletId := None |};
                     walletResolves := true |} in
  let set := set "mainnet" (Some selector) "social.near" "v1.social08.testnet"
               1 10 50 5 1 1 Z.max (λ d, d) (λ _, "") (λ _ _, 100%Z)
               (λ o, o.*1) (λ d _, d) "Failure"
               (λ _, Some None) (λ _, Some false) (λ _, Some [])
               (λ _, SignReturns None) in
  let p := {| data := JObject []; strategy := None |} in
  requests (set p) = [] ∧ transactions (set p) = []
  ∧ settled (set p) =
      Rejected "User needs to be signed in with wallet before setting data.".
Proof.
  intros selector set p.
  apply (set_requires_sign_in "mainnet" (Some selector) "social.near"
           "v1.social08.testnet" 1 10 50 5 1 1 Z.max (λ d, d) (λ _, "")
           (λ _ _, 100%Z) (λ o, o.*1) (λ d _, d) "Failure"
           (λ _, Some None) (λ _, Some false) (λ _, Some [])
           (λ _, SignReturns None) p).
  intros (s & state & account & others & key & [= <-] & [= <-] & Hacc & _).
  discriminate.
Defined.

Lemma set_transaction_shape_witness :
  let account := {| accountId := "alice.near"; publicKey := Some "ed25519:abc" |} in
  let selector :=
    {| getState := Some {| accounts := [ account ];
                          selectedWalletId := Some "my-near-wallet" |};
       walletResolves := true |} in
  let set := set "mainnet" (Some selector) "social.near" "v1.social08.testnet"
               1 10 50 5 1 1 Z.max (λ d, d) (λ _, "") (λ _ _, 100%Z)
               (λ o, o.*1) (λ d _, d) "Failure"
               (λ _, Some None) (λ _, Some false) (λ _, Some [])
               (λ _, SignReturns (Some {| status := StatusBasic "Started" |})) in
  let p := {| data := JObject [ ("profile", JLeaf (VStr "Alice")) ];
              strategy := Some FORCE |} in
  let written := [ ("alice.near", JObject [ ("profile", JLeaf (VStr "Alice")) ]) ] in
  let tx := {| receiverId := "social.near";
               actions :=
                 [ {| methodName := "grant_write_permission";
                      args := GrantArgs "ed25519:abc" [ "alice.near" ];
                      gas := "100"; deposit := "116" |};
                   {| methodName := "set"; args := SetArgs written;
                      gas := "100"; deposit := "0" |} ] |} in
  transactions (set p) = [ tx ].
Proof.
  intros account selector set p written tx.
  apply (set_transaction_shape "mainnet" (Some selector) "social.near"
           "v1.social08.testnet" 1 10 50 5 1 1 Z.max (λ d, d) (λ _, "")
           (λ _ _, 100%Z) (λ o, o.*1) (λ d _, d) "Failure"
           (λ _, Some None) (λ _, Some false) (λ _, Some [])
           (λ _, SignReturns (Some {| status := StatusBasic "Started" |})) p tx).
  vm_compute. apply list_elem_of_here.
Defined.

End SocialDbSetFacts.

Module ComponentMonitorMoreWitness.
Import Js ComponentMonitor ComponentMonitorMore.

Lemma parse_recursion_ends_witness :
  (String.length
     (join delimiter
        (drop 3 (split delimiter
                   "bob.near/widget/Post##post-1##alice.near/widget/Feed##root")))
   < String.length "bob.near/widget/Post##post-1##alice.near/widget/Feed##root")%nat.
Proof.
  by apply (proj1 (parse_recursion_ends
                     "bob.near/widget/Post##post-1##alice.near/widget/Feed##root")).
Defined.

End ComponentMonitorMoreWitness.
